(** * HTML slide editor: extraction and synthesis over the parsed document tree

    A shallow embedding of the two template variants of the slide editor
    ([as_is_to_be_5.py], called Variant A, and [as_is_to_be_9_1.py], called
    Variant B).  Documents are the trees that the markup parser hands to the
    program; the program's queries, text extraction and in-place edits are
    functions on those trees, and nodes are addressed by their child-index
    path from the document root. *)

From Stdlib Require Import Ascii String.
From stdpp Require Import base option list strings gmap sorting.

Local Open Scope string_scope.
Local Open Scope list_scope.

(** ** Strings

    Python [str] values are modelled as [string]; each [ascii] stands for one
    character. *)

Module Str.

Definition nl : ascii := "010"%char.
Definition cr : ascii := "013"%char.
Definition NL : string := String nl EmptyString.
Definition CR : string := String cr EmptyString.
Definition CRNL : string := String cr (String nl EmptyString).

(** [sep.join(l)] *)
Fixpoint join (sep : string) (l : list string) : string :=
  match l with
  | [] => EmptyString
  | [s] => s
  | s :: l' => s +:+ sep +:+ join sep l'
  end.

(** [s.split(sep)] for a one-character separator: always at least one
    piece, empty pieces are kept. *)
Fixpoint split (sep : ascii) (s : string) : list string :=
  match s with
  | EmptyString => [EmptyString]
  | String c s' =>
      if decide (c = sep) then EmptyString :: split sep s'
      else match split sep s' with
           | h :: t => String c h :: t
           | [] => [String c EmptyString]
           end
  end.

Fixpoint drop (n : nat) (s : string) : string :=
  match n, s with
  | S k, String _ s' => drop k s'
  | _, _ => s
  end.

(** [s.startswith(p)] *)
Fixpoint starts_with (p s : string) : bool :=
  match p, s with
  | EmptyString, _ => true
  | String a p', String b s' => bool_decide (a = b) && starts_with p' s'
  | String _ _, EmptyString => false
  end.

(** [s.replace(old, new)] for a non-empty [old]: occurrences are found
    left to right and do not overlap.  [skip] counts the characters of an
    occurrence that are still to be passed over. *)
Fixpoint replace_go (old new : string) (skip : nat) (s : string) : string :=
  match s with
  | EmptyString => EmptyString
  | String c s' =>
      match skip with
      | S k => replace_go old new k s'
      | O =>
          if starts_with old s
          then new +:+ replace_go old new (String.length old - 1) s'
          else String c (replace_go old new 0 s')
      end
  end.

Definition replace (old new s : string) : string := replace_go old new 0 s.

(** [txt.replace("\r\n", "\n").replace("\r", "\n")] *)
Definition normalize_newlines (s : string) : string :=
  replace CR NL (replace CRNL NL s).

Fixpoint has_char (c : ascii) (s : string) : bool :=
  match s with
  | EmptyString => false
  | String d s' => if decide (d = c) then true else has_char c s'
  end.

(** [sub in s] *)
Fixpoint contains (sub s : string) : bool :=
  starts_with sub s ||
  match s with
  | EmptyString => false
  | String _ s' => contains sub s'
  end.

Definition lower_char (c : ascii) : ascii :=
  let n := nat_of_ascii c in
  if (65 <=? n)%nat && (n <=? 90)%nat then ascii_of_nat (n + 32) else c.

(** [s.lower()] on the letters A to Z. *)
Fixpoint lower (s : string) : string :=
  match s with
  | EmptyString => EmptyString
  | String c s' => String (lower_char c) (lower s')
  end.

(** The characters [str.strip()] removes (those below 128). *)
Definition is_space (c : ascii) : bool :=
  let n := nat_of_ascii c in
  ((9 <=? n)%nat && (n <=? 13)%nat) || ((28 <=? n)%nat && (n <=? 32)%nat).

Fixpoint lstrip (s : string) : string :=
  match s with
  | EmptyString => EmptyString
  | String c s' => if is_space c then lstrip s' else s
  end.

(** what is left of [s] once trailing spaces are removed *)
Fixpoint rstrip (s : string) : string :=
  match s with
  | EmptyString => EmptyString
  | String c s' =>
      match rstrip s' with
      | EmptyString => if is_space c then EmptyString else String c EmptyString
      | r => String c r
      end
  end.

Definition strip (s : string) : string := rstrip (lstrip s).

Definition nonempty (s : string) : bool :=
  match s with EmptyString => false | _ => true end.

End Str.


(** ** The document tree

    What the markup parser builds: text nodes, other string-like nodes that
    text extraction skips (comments, declarations), and elements with a tag
    name, an attribute dictionary and children.  An attribute value is a
    string, or a list of tokens for the multi-valued attributes (the parser
    stores [class] that way). *)

Inductive attr_value :=
| AStr (s : string)
| AList (l : list string).

Definition attrs := list (string * attr_value).

#[warnings="-register-all"]
Inductive node :=
| Text (s : string)
| Comment (s : string)
| Elem (name : string) (at_ : attrs) (kids : list node).

#[global] Instance attr_value_eq_dec : EqDecision attr_value.
Proof. solve_decision. Defined.

(** The document object itself is the element named [[document]] that holds
    the top-level nodes; queries look at its descendants only. *)
Definition soup_of (kids : list node) : node := Elem "[document]" [] kids.

Definition kids_of (n : node) : list node :=
  match n with Elem _ _ ks => ks | _ => [] end.


Section node_induction.
Variable P : node -> Prop.
Hypothesis Htext : forall s, P (Text s).
Hypothesis Hcomment : forall s, P (Comment s).
Hypothesis Helem : forall t a ks, Forall P ks -> P (Elem t a ks).

Fixpoint node_ind' (n : node) : P n :=
  match n with
  | Text s => Htext s
  | Comment s => Hcomment s
  | Elem t a ks =>
      Helem t a ks
        ((fix go (l : list node) : Forall P l :=
            match l with
            | [] => List.Forall_nil P
            | k :: l' => List.Forall_cons P k l' (node_ind' k) (go l')
            end) ks)
  end.
End node_induction.

(** *** Attribute dictionaries *)

Fixpoint get_attr (k : string) (a : attrs) : option attr_value :=
  match a with
  | [] => None
  | (k', v) :: a' => if decide (k' = k) then Some v else get_attr k a'
  end.

(** [tag[k] = v]: an existing key keeps its place, a new key goes last. *)
Fixpoint set_attr (k : string) (v : attr_value) (a : attrs) : attrs :=
  match a with
  | [] => [(k, v)]
  | (k', v') :: a' =>
      if decide (k' = k) then (k, v) :: a' else (k', v') :: set_attr k v a'
  end.

(** The class tokens the selector engine sees: the stored list, or the
    whitespace-separated words of a stored string. *)
Definition get_classes (a : attrs) : list string :=
  match get_attr "class" a with
  | Some (AList l) => l
  | Some (AStr s) => String.words s
  | None => []
  end.

(** *** Paths *)

Definition path := list nat.

Fixpoint get (p : path) (n : node) : option node :=
  match p with
  | [] => Some n
  | i :: p' =>
      match n with
      | Elem _ _ ks => match ks !! i with Some k => get p' k | None => None end
      | _ => None
      end
  end.

(** [update p f n] applies [f] to the node at [p]; a path that leads nowhere
    changes nothing. *)
Fixpoint update (p : path) (f : node -> node) (n : node) : node :=
  match p with
  | [] => f n
  | i :: p' =>
      match n with
      | Elem t a ks => Elem t a (alter (update p' f) i ks)
      | _ => n
      end
  end.

(** [remove p n] takes the node at [p] out of its parent's children. *)
Fixpoint remove (p : path) (n : node) : node :=
  match p with
  | [] => n
  | [i] =>
      match n with
      | Elem t a ks => Elem t a (delete i ks)
      | _ => n
      end
  | i :: p' =>
      match n with
      | Elem t a ks => Elem t a (alter (remove p') i ks)
      | _ => n
      end
  end.

Definition set_kids (ks : list node) (n : node) : node :=
  match n with Elem t a _ => Elem t a ks | _ => n end.

Definition append_kid (k : node) (n : node) : node :=
  match n with Elem t a ks => Elem t a (ks ++ [k]) | _ => n end.

Definition parent_path (p : path) : path := removelast p.

(** *** Selectors

    A selector is a chain of compound selectors joined by the descendant
    combinator, as in [".panel.left .section p"].  The engine returns the
    matching elements in document order; here each is given by its path. *)

Record compound := Compound {
  c_tag : option string;
  c_classes : list string;
  c_id : option string;
  c_attr : option (string * string)
}.

#[global] Instance compound_eq_dec : EqDecision compound.
Proof. solve_decision. Defined.

Definition by_tag (t : string) : compound := Compound (Some t) [] None None.
Definition by_class (cs : list string) : compound := Compound None cs None None.
Definition by_id (i : string) : compound := Compound None [] (Some i) None.
Definition by_attr (k v : string) : compound := Compound None [] None (Some (k, v)).

Definition selector := list compound.

Definition attr_string (v : attr_value) : string :=
  match v with AStr s => s | AList l => Str.join " " l end.

Definition matches (c : compound) (t : string) (a : attrs) : bool :=
  match c_tag c with Some x => bool_decide (t = x) | None => true end
  && forallb (fun cl => bool_decide (cl ∈ get_classes a)) (c_classes c)
  && match c_id c with
     | Some i => bool_decide (get_attr "id" a = Some (AStr i))
     | None => true
     end
  && match c_attr c with
     | Some (k, v) =>
         match get_attr k a with
         | Some w => bool_decide (attr_string w = v)
         | None => false
         end
     | None => true
     end.

(** A pre-order walk that carries a matcher state down the tree: [step]
    says whether the element matches and which state its children get. *)
Section walk.
Context {St : Type} (step : St -> string -> attrs -> bool * St).

Fixpoint walk (s : St) (n : node) : list path :=
  match n with
  | Elem t a ks =>
      (if (step s t a).1 then [[]] else []) ++
      (fix go (i : nat) (l : list node) : list path :=
         match l with
         | [] => []
         | k :: l' => map (cons i) (walk (step s t a).2 k) ++ go (S i) l'
         end) 0 ks
  | _ => []
  end.

Fixpoint walk_kids (s : St) (i : nat) (l : list node) : list path :=
  match l with
  | [] => []
  | k :: l' => map (cons i) (walk s k) ++ walk_kids s (S i) l'
  end.
End walk.

(** The state of a descendant chain is the part of the chain that the
    ancestors have not matched yet (each compound is matched by the highest
    ancestor that can take it); an element is selected when only the last
    compound is left and it matches. *)
Definition chain_step (rem : selector) (t : string) (a : attrs) : bool * selector :=
  match rem with
  | [] => (false, [])
  | [c] => (matches c t a, [c])
  | c :: rest => (false, if matches c t a then rest else rem)
  end.

(** [soup.select(sel)] *)
Definition select (sel : selector) (soup : node) : list path :=
  walk_kids chain_step sel 0 (kids_of soup).

(** [soup.select_one(sel)] *)
Definition select_one (sel : selector) (soup : node) : option path :=
  head (select sel soup).

(** [soup.find_all(True, ...)] with a test on the attributes. *)
Definition pred_step (P : string -> attrs -> bool) (_ : unit) (t : string) (a : attrs)
  : bool * unit := (P t a, tt).

Definition find_all (P : string -> attrs -> bool) (soup : node) : list path :=
  walk_kids (pred_step P) tt 0 (kids_of soup).

(** [el.decompose()] for each element of a result list.  The list is in
    document order; the elements are taken out last to first, so that the
    paths still to be used stay valid.  (The source goes first to last: an
    element inside one already destroyed is no longer in the tree, and
    destroying it again changes nothing.) *)
Definition decompose_all (l : list path) (soup : node) : node :=
  foldr remove soup l.

(** *** Text extraction *)

Fixpoint all_strings (n : node) : list string :=
  match n with
  | Text s => [s]
  | Comment _ => []
  | Elem _ _ ks =>
      (fix go (l : list node) : list string :=
         match l with
         | [] => []
         | k :: l' => all_strings k ++ go l'
         end) ks
  end.

(** [el.get_text(separator=sep, strip=strip)] *)
Definition get_text (sep : string) (strip : bool) (el : node) : string :=
  Str.join sep
    (if strip
     then filter (fun s => Str.nonempty s = true) (map Str.strip (all_strings el))
     else all_strings el).

(** *** What printing and parsing again does to a tree

    [reparse] models [BeautifulSoup(str(soup), "html.parser")]: an empty text
    node prints as nothing, text nodes that stand next to each other are
    read back as one, and the parser replaces a text node made only of
    blanks by a single newline or space unless it is inside [pre] or
    [textarea].  Elements, attributes and comments come back as they were. *)

Definition is_ascii_space (c : ascii) : bool :=
  bool_decide (c ∈ [" "; "010"; "009"; "012"; "013"]%char).

Fixpoint all_ascii_space (s : string) : bool :=
  match s with
  | EmptyString => true
  | String c s' => is_ascii_space c && all_ascii_space s'
  end.

Definition collapse_blank (s : string) : string :=
  if all_ascii_space s then (if Str.has_char Str.nl s then Str.NL else " ") else s.

Definition flush_text (pre : bool) (cur : string) : list node :=
  match cur with
  | EmptyString => []
  | _ => [Text (if pre then cur else collapse_blank cur)]
  end.

Fixpoint coalesce (pre : bool) (cur : string) (l : list node) : list node :=
  match l with
  | [] => flush_text pre cur
  | Text s :: l' => coalesce pre (cur +:+ s) l'
  | n :: l' => flush_text pre cur ++ n :: coalesce pre EmptyString l'
  end.

Definition keeps_blanks (t : string) : bool :=
  bool_decide (t = "pre") || bool_decide (t = "textarea").

Fixpoint reparse_in (pre : bool) (n : node) : node :=
  match n with
  | Elem t a ks =>
      let pre' := pre || keeps_blanks t in
      Elem t a (coalesce pre' EmptyString (map (reparse_in pre') ks))
  | _ => n
  end.

Definition reparse (soup : node) : node := reparse_in false soup.

(** ** Shared schema vocabulary *)

(** [STATIC_LABELS]: the section headings of each label language, by key. *)
Definition STATIC_LABELS : gmap string (gmap string string) :=
  list_to_map
    [ ("sl", list_to_map [ ("people", "Ljudje:"); ("process", "Proces:");
                           ("technology", "Tehnologija:"); ("data", "Podatki:");
                           ("output", "Output:") ]);
      ("en", list_to_map [ ("people", "People:"); ("process", "Process:");
                           ("technology", "Technology:"); ("data", "Data:");
                           ("output", "Output:") ]) ].

(** The list [desired] that the heading loop enumerates. *)
Definition desired (labels : gmap string string) : list string :=
  map (fun k => default EmptyString (labels !! k))
      ["people"; "process"; "technology"; "data"; "output"].

(** [label_lang in ("sl", "en")] *)
Definition lang_supported (label_lang : option string) : bool :=
  bool_decide (label_lang = Some "sl") || bool_decide (label_lang = Some "en").

(** The selectors of the template, written as the source writes them. *)
Definition sel_html : selector := [by_tag "html"].
Definition sel_h1 : selector := [by_tag "h1"].
(** [".panel.<side> .side-label .tag"] *)
Definition sel_side_label (side : string) : selector :=
  [by_class ["panel"; side]; by_class ["side-label"]; by_class ["tag"]].
(** [".panel.<side> .section"] *)
Definition sel_section (side : string) : selector :=
  [by_class ["panel"; side]; by_class ["section"]].
(** [".panel.<side> .section p"] *)
Definition sel_section_p (side : string) : selector :=
  [by_class ["panel"; side]; by_class ["section"]; by_tag "p"].
(** [".panel.<side> .section h3"] *)
Definition sel_section_h3 (side : string) : selector :=
  [by_class ["panel"; side]; by_class ["section"]; by_tag "h3"].
(** [".panel.user"] *)
Definition sel_user_panel : selector := [by_class ["panel"; "user"]].
(** ["footer .pagenum"] and ["footer strong"] *)
Definition sel_pagenum : selector := [by_tag "footer"; by_class ["pagenum"]].
Definition sel_footer_strong : selector := [by_tag "footer"; by_tag "strong"].

(** [soup.html["lang"] = label_lang], when the language is supported and the
    document has an [html] element. *)
Definition put_lang (l : string) (el : node) : node :=
  match el with
  | Elem t a ks => Elem t (set_attr "lang" (AStr l) a) ks
  | _ => el
  end.

Definition set_lang (label_lang : option string) (soup : node) : node :=
  match label_lang with
  | Some l =>
      if lang_supported label_lang then
        match select_one sel_html soup with
        | Some p => update p (put_lang l) soup
        | None => soup
        end
      else soup
  | None => soup
  end.

(** The text of the element at a path, read with [read]; a path that leads
    nowhere reads as the empty string. *)
Definition text_at (read : node -> string) (soup : node) (p : path) : string :=
  match get p soup with Some el => read el | None => EmptyString end.

(** The closing loop of [parse_html_fields]:
    [if not fields.get(k): fields[k] = DEFAULTS.get(k, "TBD")]. *)
Definition fill_defaults (keys : list string) (defaults fields : gmap string string)
  : gmap string string :=
  foldl (fun fs k =>
           if Str.nonempty (default EmptyString (fs !! k)) then fs
           else <[k := default "TBD" (defaults !! k)]> fs)
        fields keys.

(** The heading loop of [apply_fields_to_html]: both result lists are taken
    before the loop; position [idx] of the left list is written, then
    position [idx] of the right list. *)
Definition write_headings (write : string -> node -> node)
    (left_h3s right_h3s : list path) (texts : list string) (soup : node) : node :=
  foldl (fun sp it =>
           let '(idx, text) := it in
           let sp := match left_h3s !! idx with
                     | Some p => update p (write text) sp
                     | None => sp
                     end in
           match right_h3s !! idx with
           | Some p => update p (write text) sp
           | None => sp
           end)
        soup (imap (fun idx text => (idx, text)) texts).

Definition translate_headings (write : string -> node -> node)
    (label_lang : option string) (soup : node) : node :=
  match label_lang with
  | Some l =>
      match STATIC_LABELS !! l with
      | Some labels =>
          write_headings write
            (select (sel_section_h3 "left") soup)
            (select (sel_section_h3 "right") soup)
            (desired labels) soup
      | None => soup
      end
  | None => soup
  end.

(** ** Variant A ([as_is_to_be_5.py]) *)

Module VariantA.

Definition FIELD_KEYS : list string :=
  [ "title"; "left_label"; "right_label";
    "left_people"; "left_process"; "left_technology"; "left_data"; "left_output";
    "right_people"; "right_process"; "right_technology"; "right_data"; "right_output";
    "page_number"; "footer_summary" ].

Definition DEFAULTS : gmap string string :=
  <["footer_summary" :=
      "Digitalizacija in centralizacija procesa z avtomatskimi kontrolami."]>
  (<["right_label" := "Ambicija (to-be)"]>
  (<["left_label" := "AS-IS (danes)"]>
  (<["page_number" := "1"]>
  (list_to_map (map (fun k => (k, "TBD")) FIELD_KEYS))))).

(** [el.get_text(strip=True)] *)
Definition stripped_text (el : node) : string := get_text EmptyString true el.

(** The dictionary [fields] as [parse_html_fields] first builds it. *)
Definition slot_texts (soup : node) : gmap string string :=
  let get_text := fun sel =>
    match select_one sel soup with
    | Some p => text_at stripped_text soup p
    | None => EmptyString
    end in
  let left_sections := select (sel_section_p "left") soup in
  let right_sections := select (sel_section_p "right") soup in
  let sec := fun (idx : nat) (arr : list path) =>
    match arr !! idx with
    | Some p => text_at stripped_text soup p
    | None => EmptyString
    end in
  list_to_map
    [ ("title", get_text sel_h1);
      ("left_label", get_text (sel_side_label "left"));
      ("right_label", get_text (sel_side_label "right"));
      ("left_people", sec 0 left_sections);
      ("left_process", sec 1 left_sections);
      ("left_technology", sec 2 left_sections);
      ("left_data", sec 3 left_sections);
      ("left_output", sec 4 left_sections);
      ("right_people", sec 0 right_sections);
      ("right_process", sec 1 right_sections);
      ("right_technology", sec 2 right_sections);
      ("right_data", sec 3 right_sections);
      ("right_output", sec 4 right_sections);
      ("page_number", get_text sel_pagenum);
      ("footer_summary", get_text sel_footer_strong) ].

Definition parse_html_fields (soup : node) : gmap string string :=
  fill_defaults FIELD_KEYS DEFAULTS (slot_texts soup).

(** [el.string = value] *)
Definition set_string (value : string) (el : node) : node :=
  set_kids [Text value] el.

Definition set_text (sel : selector) (value : string) (soup : node) : node :=
  match select_one sel soup with
  | Some p => update p (set_string value) soup
  | None => soup
  end.

Definition set_sec (side : string) (idx : nat) (value : string) (soup : node) : node :=
  match select (sel_section_p side) soup !! idx with
  | Some p => update p (set_string value) soup
  | None => soup
  end.

(** [fields[k]] raises on a missing key: the result is then [None]. *)
Definition apply_fields_to_html (original : node) (fields : gmap string string)
    (label_lang : option string) : option node :=
  let soup := set_lang label_lang original in
  v ← fields !! "title"; let soup := set_text sel_h1 v soup in
  v ← fields !! "left_label"; let soup := set_text (sel_side_label "left") v soup in
  v ← fields !! "right_label"; let soup := set_text (sel_side_label "right") v soup in
  v ← fields !! "left_people"; let soup := set_sec "left" 0 v soup in
  v ← fields !! "left_process"; let soup := set_sec "left" 1 v soup in
  v ← fields !! "left_technology"; let soup := set_sec "left" 2 v soup in
  v ← fields !! "left_data"; let soup := set_sec "left" 3 v soup in
  v ← fields !! "left_output"; let soup := set_sec "left" 4 v soup in
  v ← fields !! "right_people"; let soup := set_sec "right" 0 v soup in
  v ← fields !! "right_process"; let soup := set_sec "right" 1 v soup in
  v ← fields !! "right_technology"; let soup := set_sec "right" 2 v soup in
  v ← fields !! "right_data"; let soup := set_sec "right" 3 v soup in
  v ← fields !! "right_output"; let soup := set_sec "right" 4 v soup in
  let soup := translate_headings set_string label_lang soup in
  v ← fields !! "page_number"; let soup := set_text sel_pagenum v soup in
  v ← fields !! "footer_summary"; let soup := set_text sel_footer_strong v soup in
  Some soup.

End VariantA.

(** ** Variant B ([as_is_to_be_9_1.py]) *)

Module VariantB.

Definition FIELD_KEYS : list string :=
  [ "title";
    "left_label"; "right_label";
    "left_people"; "left_process"; "left_technology"; "left_data"; "left_output";
    "right_people"; "right_process"; "right_technology"; "right_data"; "right_output";
    "user_notes" ].

Definition DEFAULTS : gmap string string :=
  <["user_notes" := EmptyString]>
  (<["right_label" := "Ambicija (to-be)"]>
  (<["left_label" := "AS-IS (danes)"]>
  (list_to_map (map (fun k => (k, "TBD")) FIELD_KEYS)))).

(** [el.get_text(separator="\n", strip=False)] with carriage returns
    turned into newlines. *)
Definition _text_with_newlines (el : node) : string :=
  Str.normalize_newlines (get_text Str.NL false el).

(** [".panel.user .section p"] *)
Definition sel_user_p : selector := sel_section_p "user".

(** The dictionary [fields] as [parse_html_fields] first builds it. *)
Definition slot_texts (soup : node) : gmap string string :=
  let get_text := fun sel =>
    match select_one sel soup with
    | Some p => text_at _text_with_newlines soup p
    | None => EmptyString
    end in
  let left_sections := select (sel_section_p "left") soup in
  let right_sections := select (sel_section_p "right") soup in
  let user_section := select_one sel_user_p soup in
  let sec := fun (idx : nat) (arr : list path) =>
    match arr !! idx with
    | Some p => text_at _text_with_newlines soup p
    | None => EmptyString
    end in
  list_to_map
    [ ("title", get_text sel_h1);
      ("left_label", get_text (sel_side_label "left"));
      ("right_label", get_text (sel_side_label "right"));
      ("left_people", sec 0 left_sections);
      ("left_process", sec 1 left_sections);
      ("left_technology", sec 2 left_sections);
      ("left_data", sec 3 left_sections);
      ("left_output", sec 4 left_sections);
      ("right_people", sec 0 right_sections);
      ("right_process", sec 1 right_sections);
      ("right_technology", sec 2 right_sections);
      ("right_data", sec 3 right_sections);
      ("right_output", sec 4 right_sections);
      ("user_notes",
       match user_section with
       | Some p => text_at _text_with_newlines soup p
       | None => EmptyString
       end) ].

Definition parse_html_fields (soup : node) : gmap string string :=
  fill_defaults FIELD_KEYS DEFAULTS (slot_texts soup).

(** [soup.new_tag("br")] *)
Definition br : node := Elem "br" [] [].

(** The children that [set_rich_text] appends: one text node per part and
    a [br] between two parts, none after the last. *)
Fixpoint rich_nodes (parts : list string) : list node :=
  match parts with
  | [] => []
  | [part] => [Text part]
  | part :: rest => Text part :: br :: rich_nodes rest
  end.

Definition set_rich_text (value : string) (el : node) : node :=
  set_kids (rich_nodes (Str.split Str.nl (Str.normalize_newlines value))) el.

(** Keep the first [keep] elements of a result list, destroy the rest. *)
Definition trim (sel : selector) (keep : nat) (soup : node) : node :=
  let sections := select sel soup in
  if decide (keep < length sections)
  then decompose_all (drop keep sections) soup
  else soup.

Definition trim_sections (soup : node) : node :=
  let soup := trim (sel_section "left") 5 soup in
  let soup := trim (sel_section "right") 5 soup in
  trim (sel_section "user") 1 soup.

Definition set_text (sel : selector) (value : string) (soup : node) : node :=
  match select_one sel soup with
  | Some p => update p (set_rich_text value) soup
  | None => soup
  end.

Definition set_sec (side : string) (idx : nat) (value : string) (soup : node) : node :=
  match select (sel_section_p side) soup !! idx with
  | Some p => update p (set_rich_text value) soup
  | None => soup
  end.

Definition basic_selectors : list selector :=
  [ [by_tag "footer"];
    [by_attr "role" "contentinfo"];
    [by_class ["footer"]];
    [by_id "footer"];
    [by_class ["page-footer"]];
    [by_class ["site-footer"]];
    [by_class ["app-footer"]] ].

Definition mentions_footer (v : string) : bool :=
  Str.contains "footer" (Str.lower v).

(** How [find_all] applies a test function to an attribute: to a string
    value as it is; to a multi-valued attribute token by token and then to
    the tokens joined by spaces; to [None] when the attribute is absent. *)
Definition attr_test (f : option string -> bool) (v : option attr_value) : bool :=
  match v with
  | None => f None
  | Some (AStr s) => f (Some s)
  | Some (AList l) => existsb (fun x => f (Some x)) l || f (Some (Str.join " " l))
  end.

(** [lambda v: isinstance(v, str) and "footer" in v.lower()] *)
Definition id_contains_footer (v : option string) : bool :=
  match v with Some s => mentions_footer s | None => false end.

(** [_class_contains_footer], as [find_all] calls it (with a string or
    [None]). *)
Definition _class_contains_footer (v : option string) : bool :=
  match v with
  | None => false
  | Some s => Str.nonempty s && mentions_footer s
  end.

Definition has_footer_id (_ : string) (a : attrs) : bool :=
  attr_test id_contains_footer (get_attr "id" a).

Definition has_footer_class (_ : string) (a : attrs) : bool :=
  attr_test _class_contains_footer (get_attr "class" a).

Definition remove_footers (soup : node) : node :=
  let soup := foldl (fun sp sel => decompose_all (select sel sp) sp) soup basic_selectors in
  let soup := decompose_all (find_all has_footer_id soup) soup in
  decompose_all (find_all has_footer_class soup) soup.

(** [user_panel.extract(); parent.append(user_panel)] *)
Definition relocate (p : path) (soup : node) : node :=
  match get p soup with
  | Some el => update (parent_path p) (append_kid el) (remove p soup)
  | None => soup
  end.

Definition relocate_user_panel (soup : node) : node :=
  match select_one sel_user_panel soup with
  | Some p => relocate p soup
  | None => soup
  end.

(** The soup that [apply_fields_to_html] prints as its result. *)
Definition apply_fields_to_html (original : node) (fields : gmap string string)
    (label_lang : option string) : option node :=
  let soup := set_lang label_lang original in
  let soup := trim_sections soup in
  v ← fields !! "title"; let soup := set_text sel_h1 v soup in
  v ← fields !! "left_label"; let soup := set_text (sel_side_label "left") v soup in
  v ← fields !! "right_label"; let soup := set_text (sel_side_label "right") v soup in
  v ← fields !! "left_people"; let soup := set_sec "left" 0 v soup in
  v ← fields !! "left_process"; let soup := set_sec "left" 1 v soup in
  v ← fields !! "left_technology"; let soup := set_sec "left" 2 v soup in
  v ← fields !! "left_data"; let soup := set_sec "left" 3 v soup in
  v ← fields !! "left_output"; let soup := set_sec "left" 4 v soup in
  v ← fields !! "right_people"; let soup := set_sec "right" 0 v soup in
  v ← fields !! "right_process"; let soup := set_sec "right" 1 v soup in
  v ← fields !! "right_technology"; let soup := set_sec "right" 2 v soup in
  v ← fields !! "right_data"; let soup := set_sec "right" 3 v soup in
  v ← fields !! "right_output"; let soup := set_sec "right" 4 v soup in
  v ← fields !! "user_notes"; let soup := set_text sel_user_p v soup in
  let soup := translate_headings set_rich_text label_lang soup in
  let soup := remove_footers soup in
  Some (relocate_user_panel soup).

End VariantB.

(** ** The translation wrapper (the same in both variants)

    The optional translator is a capability the caller injects: [None] when
    the library is not installed, otherwise a function that may fail.  The
    wrapper returns its result together with the log of what it asked of the
    capability. *)

Inductive call :=
| GetTranslator
| Translate (src dest txt : string).

Definition translator := string -> string -> string -> option string.

Definition translate_text (GT : option translator) (txt src dest : string)
  : string * list call :=
  if Str.nonempty txt then
    match GT with
    | None => (txt, [GetTranslator])
    | Some tr =>
        if decide (src = dest) then (txt, [GetTranslator])
        else match tr src dest txt with
             | Some out => (out, [GetTranslator; Translate src dest txt])
             | None => (txt, [GetTranslator; Translate src dest txt])
             end
    end
  else (txt, []).
(** ** The form's section names (Variant B) *)

(** [[STATIC_LABELS[lang][k] for k in ("people", "process", "technology",
    "data", "output")]]; [None] when the language has no entry. *)
Definition static_names (lang : string) : option (list string) :=
  desired <$> STATIC_LABELS !! lang.

(** [".panel.<side>"], the [panel_sel] that the callers pass. *)
Definition sel_panel (side : string) : selector := [by_class ["panel"; side]].

(** [h.get_text(separator=" ", strip=True)] *)
Definition heading_text (el : node) : string := get_text " " true el.

(** [_headings_from_panel(soup, panel_sel)]: the selector is
    [f"{panel_sel} .section h3"]. *)
Definition _headings_from_panel (soup : node) (panel_sel : selector) : list string :=
  let h3s := select (panel_sel ++ [by_class ["section"]; by_tag "h3"]) soup in
  map (text_at heading_text soup) (take 5 h3s).

(** The dictionary that [detect_ui_labels_from_html] returns. *)
Record ui_detect := UiDetect {
  ui_left : list string;
  ui_right : list string;
  ui_user : string;
  ui_doc_lang : option string
}.

(** [soup.html.get(k)]; [soup.html] is the first [html] element of the
    document. *)
Definition html_attr (k : string) (soup : node) : option attr_value :=
  p ← select_one sel_html soup;
  el ← get p soup;
  match el with Elem _ a _ => get_attr k a | _ => None end.

Definition detect_ui_labels_from_html (soup : node) : ui_detect :=
  let left := _headings_from_panel soup (sel_panel "left") in
  let right := _headings_from_panel soup (sel_panel "right") in
  let user_label :=
    match select_one (sel_section_h3 "user") soup with
    | Some p => text_at heading_text soup p
    | None => "User notes"
    end in
  let lang :=
    match html_attr "lang" soup with
    | Some (AStr l) => if bool_decide (l ∈ ["sl"; "en"]) then Some l else None
    | _ => None
    end in
  UiDetect left right user_label lang.

(** [_pad5(lst, lang_fallback)]; [defaults[-need:]] is the list of the last
    [need] defaults.  [None]: [STATIC_LABELS] has no entry for the fallback
    language, which is looked up only when the list is shorter than five. *)
Definition _pad5 (lst : list string) (lang_fallback : string) : option (list string) :=
  if decide (5 <= length lst) then Some (take 5 lst)
  else
    defaults ← static_names lang_fallback;
    let need := 5 - length lst in
    Some (if decide (0 < need)
          then lst ++ drop (length defaults - need) defaults
          else lst).

(** ** The session state

    [st.session_state] is a dictionary that lives across the runs of the
    script.  Its values are the texts of the widgets (under the field
    keys), the chosen label language, the base document, the hash of the
    last upload and two dictionaries.  The base document is kept as the tree
    that the parser makes of [base_html]: the program does nothing else with
    it than parse it. *)

#[warnings="-register-all"]
Inductive sval :=
| VStr (s : string)
| VNone
| VHash (h : Z)
| VDoc (html : node)
| VDict (d : list (string * sval))
| VLabels (left right : list string) (user : string).

#[warnings="-notation-for-abbreviation"]
Notation session := (gmap string sval).

(** [st.session_state.get(k, dflt)] where the program goes on with a text.
    [None]: the key holds a value of another kind. *)
Definition text_or (dflt : string) (v : option sval) : option string :=
  match v with
  | None => Some dflt
  | Some (VStr s) => Some s
  | Some _ => None
  end.

(** [st.session_state.get("_upload_hash") != new_hash], negated. *)
Definition same_hash (v : option sval) (new_hash : Z) : bool :=
  match v with
  | Some (VHash h) => bool_decide (h = new_hash)
  | _ => false
  end.

(** The code of this section is the same in both variants, each with its own
    [FIELD_KEYS] and [DEFAULTS]. *)
Section session.
Variable FIELD_KEYS : list string.
Variable DEFAULTS : gmap string string.

(** [fields.get(k, DEFAULTS.get(k, ""))] *)
Definition field_or_default (fields : gmap string string) (k : string) : string :=
  default (default EmptyString (DEFAULTS !! k)) (fields !! k).

Definition init_fields (fields : gmap string string) (st : session) : session :=
  let st := foldl (fun st k => <[k := VStr (field_or_default fields k)]> st)
                  st FIELD_KEYS in
  <["fields_obj" := VDict (omap (fun k => pair k <$> st !! k) FIELD_KEYS)]> st.

(** The keys are listed before the loop; the order of the list does not
    matter for the result. *)
Definition clear_widget_state (st : session) : session :=
  foldl (fun st k => if bool_decide (k ∈ FIELD_KEYS) then delete k st else st)
        st (map_to_list st).*1.

(** [{k: st.session_state.get(k, DEFAULTS.get(k, "")) for k in FIELD_KEYS}],
    the field map handed to [apply_fields_to_html]. *)
Definition current (st : session) : option (gmap string string) :=
  list_to_map <$>
    mapM (fun k => pair k <$> text_or (default EmptyString (DEFAULTS !! k)) (st !! k))
         FIELD_KEYS.

(** The button "Translate current fields": [lang] is the value of the radio
    widget.  The result is the new session state and what was asked of the
    translation capability, in order. *)
Definition translate_fields (GT : option translator) (lang : string) (st : session)
  : option (session * list call) :=
  let src := if decide (lang = "en") then "sl" else "en" in
  texts ← mapM (fun k => pair k <$> text_or EmptyString (st !! k)) FIELD_KEYS;
  let results := map (fun kv => (kv.1, translate_text GT kv.2 src lang)) texts in
  let translated : gmap string string :=
    list_to_map (map (fun r => (r.1, r.2.1)) results) in
  Some (<["_label_lang" := VStr lang]> (init_fields translated st),
        concat (map (fun r => r.2.2) results)).

End session.

(** What the script does with an uploaded file: [new_hash] is the hash of
    its bytes, [html] the tree of its text. *)
Definition upload_A (new_hash : Z) (html : node) (st : session) : session :=
  if same_hash (st !! "_upload_hash") new_hash then st
  else
    let st := <["base_html" := VDoc html]> st in
    let parsed := VariantA.parse_html_fields html in
    let st := clear_widget_state VariantA.FIELD_KEYS st in
    let st := init_fields VariantA.FIELD_KEYS VariantA.DEFAULTS parsed st in
    <["_upload_hash" := VHash new_hash]> st.

Definition upload_B (new_hash : Z) (html : node) (st : session) : session :=
  if same_hash (st !! "_upload_hash") new_hash then st
  else
    let st := <["base_html" := VDoc html]> st in
    let parsed := VariantB.parse_html_fields html in
    let ui_detect := detect_ui_labels_from_html html in
    let st := clear_widget_state VariantB.FIELD_KEYS st in
    let st := init_fields VariantB.FIELD_KEYS VariantB.DEFAULTS parsed st in
    let st :=
      <["_ui_labels" :=
          VLabels (ui_left ui_detect) (ui_right ui_detect)
                  (if Str.nonempty (ui_user ui_detect) then ui_user ui_detect
                   else "User notes")]> st in
    let st :=
      match ui_doc_lang ui_detect with
      | Some l =>
          if bool_decide (l ∈ ["sl"; "en"]) then <["_label_lang" := VStr l]> st else st
      | None => st
      end in
    <["_upload_hash" := VHash new_hash]> st.

(** The names of the form's text areas (Variant B): the detected headings
    of a side, or the English names when there are none, padded to five. *)
Definition fallback_lang (st : session) : string :=
  match st !! "_label_lang" with
  | None => "sl"
  | Some (VStr l) => if bool_decide (l ∈ ["sl"; "en"]) then l else "en"
  | Some _ => "en"
  end.

(** [ui_labels.get(side) or [STATIC_LABELS["en"][k] for k in ...]], then
    [_pad5].  [None]: [_ui_labels] holds something that is not the
    dictionary of labels. *)
Definition form_names (pick : list string * list string -> list string)
    (st : session) : option (list string) :=
  names ← match st !! "_ui_labels" with
          | None => static_names "en"
          | Some (VLabels l r _) =>
              match pick (l, r) with
              | [] => static_names "en"
              | names => Some names
              end
          | Some _ => None
          end;
  _pad5 names (fallback_lang st).

Definition left_names : session -> option (list string) := form_names fst.
Definition right_names : session -> option (list string) := form_names snd.

(** * Vocabulary of the statements *)

(** A child that [set_rich_text] may create. *)
Definition is_text_or_br (k : node) : Prop :=
  k = VariantB.br \/ exists s, k = Text s.

Definition sample_markup_value : string :=
  "a < b & " +:+ Str.NL +:+ Str.NL +:+ "<p>'q'</p>".

(** The text that the extractor reads for a slot: the element at position
    [i] of the result list of [sel], or the empty string when the list is
    too short. *)
Definition slot_text (read : node -> string) (soup : node) (sel : selector) (i : nat)
  : string :=
  match select sel soup !! i with
  | Some p => text_at read soup p
  | None => EmptyString
  end.

(** The slot of each field: its selector and its position in the result
    list ([select_one] takes position 0). *)
Definition head_slots : list (string * (selector * nat)) :=
  [ ("title", (sel_h1, 0));
    ("left_label", (sel_side_label "left", 0));
    ("right_label", (sel_side_label "right", 0)) ].

Definition left_slots : list (string * (selector * nat)) :=
  [ ("left_people", (sel_section_p "left", 0));
    ("left_process", (sel_section_p "left", 1));
    ("left_technology", (sel_section_p "left", 2));
    ("left_data", (sel_section_p "left", 3));
    ("left_output", (sel_section_p "left", 4)) ].

Definition right_slots : list (string * (selector * nat)) :=
  [ ("right_people", (sel_section_p "right", 0));
    ("right_process", (sel_section_p "right", 1));
    ("right_technology", (sel_section_p "right", 2));
    ("right_data", (sel_section_p "right", 3));
    ("right_output", (sel_section_p "right", 4)) ].

Definition footer_slots : list (string * (selector * nat)) :=
  [ ("page_number", (sel_pagenum, 0)); ("footer_summary", (sel_footer_strong, 0)) ].

Definition slots_A : list (string * (selector * nat)) :=
  head_slots ++ left_slots ++ right_slots ++ footer_slots.

Definition slots_B : list (string * (selector * nat)) :=
  head_slots ++ left_slots ++ right_slots ++
  [ ("user_notes", (VariantB.sel_user_p, 0)) ].

Definition slot_table (read : node -> string) (soup : node)
    (slots : list (string * (selector * nat))) : gmap string string :=
  list_to_map (map (fun e => (e.1, slot_text read soup e.2.1 e.2.2)) slots).

(** No element of the document is in any slot. *)
Definition no_slot (slots : list (string * (selector * nat))) (soup : node) : Prop :=
  Forall (fun e => select e.2.1 soup = []) slots.

(** A small document of the template, in the style of Variant B. *)
Definition cls (l : list string) : attrs := [("class", AList l)].

Definition mk_section (heading : string) (content : list node) : node :=
  Elem "div" (cls ["section"]) [Elem "h3" [] [Text heading]; Elem "p" [] content].

Definition mk_panel (side label : string) (sections : list node) : node :=
  Elem "div" (cls ["panel"; side])
    (Elem "div" (cls ["side-label"]) [Elem "span" (cls ["tag"]) [Text label]]
     :: sections).

Definition five_sections (prefix : string) : list node :=
  [ mk_section "Ljudje:" [Text (prefix +:+ "1")];
    mk_section "Proces:" [Text (prefix +:+ "2")];
    mk_section "Tehnologija:" [Text (prefix +:+ "3")];
    mk_section "Podatki:" [Text (prefix +:+ "4")];
    mk_section "Output:" [Text (prefix +:+ "5")] ].

Definition mk_doc (left right : list node) (rest : list node) : node :=
  soup_of
    [ Elem "html" []
        [ Elem "body" []
            ([ Elem "h1" [] [Text "Title"];
               mk_panel "left" "AS-IS" left;
               mk_panel "right" "TO-BE" right ] ++ rest) ] ].

Definition notes_panel (content : list node) : node :=
  Elem "div" (cls ["panel"; "user"]) [mk_section "Notes" content].

Definition sample_doc : node :=
  mk_doc (five_sections "X") (five_sections "Y")
    [ notes_panel [Text "note"]; Elem "footer" [] [Text "page 1"] ].

(** The same slide with a blank line inside the first paragraph. *)
Definition blank_line_doc : node :=
  mk_doc
    [ mk_section "Ljudje:" [Text ("a" +:+ Str.NL +:+ Str.NL +:+ "b")] ] [] [].

(** What the closing loop of the extractor leaves for a slot text [r]. *)
Definition or_default (defaults : gmap string string) (k r : string) : string :=
  if Str.nonempty r then r else default "TBD" (defaults !! k).

(** ** Paths and result lists *)

(** [at_or_inside q m]: the node at [m] is the node at [q] or lies below it. *)
Fixpoint at_or_inside (q m : path) : bool :=
  match q, m with
  | [], _ => true
  | i :: q', j :: m' => bool_decide (i = j) && at_or_inside q' m'
  | _ :: _, [] => false
  end.

(** [inside q m]: the node at [m] lies strictly below the node at [q]. *)
Definition inside (q m : path) : bool :=
  at_or_inside q m && negb (bool_decide (q = m)).

(** Document order on paths: an element comes before its descendants and
    before everything in its later siblings. *)
Fixpoint before (p q : path) : bool :=
  match p, q with
  | [], _ :: _ => true
  | i :: p', j :: q' => bool_decide (i < j) || (bool_decide (i = j) && before p' q')
  | _, [] => false
  end.

(** Where the node at [m] is found once the node at [q] has been taken out:
    the later siblings of [q], and what is below them, move one place to
    the left. *)
Fixpoint shift (q m : path) : path :=
  match m with
  | [] => []
  | j :: m' =>
      match q with
      | [] => m
      | [i] => (if decide (i < j) then pred j else j) :: m'
      | i :: q' => if decide (i = j) then j :: shift q' m' else m
      end
  end.

(** Whether the walk selects the node at [p], computed along the path. *)
Fixpoint matched {St : Type} (step : St -> string -> attrs -> bool * St)
    (p : path) (s : St) (n : node) : bool :=
  match n with
  | Elem t a ks =>
      match p with
      | [] => (step s t a).1
      | i :: p' =>
          match ks !! i with
          | Some k => matched step p' (step s t a).2 k
          | None => false
          end
      end
  | _ => false
  end.

(** The label (tag name and attributes) of an element. *)
Definition label_of (n : node) : option (string * attrs) :=
  match n with Elem t a _ => Some (t, a) | _ => None end.

(** The labels of all elements of a tree, in document order. *)
Fixpoint labels (n : node) : list (string * attrs) :=
  match n with
  | Elem t a ks =>
      (t, a) :: (fix go (l : list node) : list (string * attrs) :=
                   match l with
                   | [] => []
                   | k :: l' => labels k ++ go l'
                   end) ks
  | _ => []
  end.

Definition labels_kids (ks : list node) : list (string * attrs) :=
  concat (map labels ks).

(** Nodes in which no walk selects anything, whatever state of [R] the
    matcher is in. *)
Definition unseen {St : Type} (step : St -> string -> attrs -> bool * St)
    (R : St -> Prop) (new : list node) : Prop :=
  forall s, R s -> walk_kids step s 0 new = [].

(** A set of matcher states that the walk does not leave. *)
Definition closed {St : Type} (step : St -> string -> attrs -> bool * St)
    (R : St -> Prop) : Prop :=
  forall s t a, R s -> R (step s t a).2.

(** [del_kid i] takes child [i] out of an element. *)
Definition del_kid (i : nat) (n : node) : node :=
  match n with Elem t a ks => Elem t a (delete i ks) | _ => n end.

(** ** Footer landmarks and the place of the notes panel *)






(** The result list of a walk over the descendants of the document object. *)
Definition walk_root {St : Type} (step : St -> string -> attrs -> bool * St)
    (s : St) (soup : node) : list path :=
  walk_kids step s 0 (kids_of soup).

(** ** The synthesizer as a sequence of steps *)

(** Writing one field: the element at the slot's position in the result
    list of the slot's selector, taken on the document as it is then. *)
Definition write_slot (write : string -> node -> node) (soup : node)
    (sel : selector) (idx : nat) (v : string) : node :=
  match select sel soup !! idx with
  | Some p => update p (write v) soup
  | None => soup
  end.

(** Writing the fields of a list of slots in order; [None] when a field is
    missing from the field map. *)
Definition write_slots (write : string -> node -> node)
    (slots : list (string * (selector * nat))) (fields : gmap string string)
    (soup : node) : option node :=
  foldl (fun acc e => sp ← acc; v ← fields !! e.1; Some (write_slot write sp e.2.1 e.2.2 v))
        (Some soup) slots.

(** ** The matcher state along a path *)





(** The document with one more child appended to the element at [q]. *)
Definition append_at (q : path) (k : node) (soup : node) : node :=
  update q (append_kid k) soup.



(** A slide whose left panel is the child [[0; 0; 1]] of the document. *)
Definition seven_doc : node :=
  mk_doc (five_sections "X" ++ [ mk_section "Six" [Text "X6"]; mk_section "Seven" [Text "X7"] ])
         (five_sections "Y")
         [ notes_panel [Text "note"] ].

(** ** Queries and edits *)

(** A query: a walk with its first state.  [select] and [find_all] are the
    two kinds the program uses. *)
Record query := Query {
  q_state : Type;
  q_step : q_state -> string -> attrs -> bool * q_state;
  q_init : q_state
}.

Definition ask (Q : query) (soup : node) : list path :=
  walk_root (q_step Q) (q_init Q) soup.

Definition by_selector (sel : selector) : query := Query selector chain_step sel.

Definition by_test (P : string -> attrs -> bool) : query := Query unit (pred_step P) tt.

(** A compound selector that does not look at the [lang] attribute. *)
Definition lang_free (c : compound) : Prop :=
  match c_attr c with Some (k, _) => k <> "lang" | None => True end.

(** A query that never selects a bare [br] element and does not look at
    the [lang] attribute. *)
Definition blind (Q : query) : Prop :=
  exists R : q_state Q -> Prop,
    closed (q_step Q) R /\ R (q_init Q)
    /\ (forall s, R s -> (q_step Q s "br" []).1 = false)
    /\ (forall s t a l, R s ->
          q_step Q s t (set_attr "lang" (AStr l) a) = q_step Q s t a).

(** Two nodes of which neither is the other nor lies inside the other. *)
Definition apart (x m : path) : Prop :=
  at_or_inside x m = false /\ at_or_inside m x = false.

(** The two edits of the synthesizer: replacing the children of an element
    and destroying an element. *)
Inductive edit :=
| Write (q : path) (new : list node)
| Remove (q : path).

Definition apply_edit (e : edit) (soup : node) : node :=
  match e with
  | Write q new => update q (set_kids new) soup
  | Remove q => remove q soup
  end.

(** Where a node that the edit leaves in the tree is found afterwards. *)
Definition rename_edit (e : edit) (p : path) : path :=
  match e with Remove q => shift q p | Write _ _ => p end.

Definition apply_edits (es : list edit) (soup : node) : node :=
  foldl (fun sp e => apply_edit e sp) soup es.

Definition rename_edits (es : list edit) (p : path) : path :=
  foldl (fun x e => rename_edit e x) p es.

(** The first matches of a result list up to a bound, or all of them. *)
Definition upto (cap : option nat) (l : list path) : list path :=
  match cap with Some n => take n l | None => l end.

(** A range of positions of a result list: from a position on, up to a
    bound or to the end. *)
Definition range : Type := nat * option nat.

Definition within (r : range) (l : list path) : list path :=
  drop r.1 (upto r.2 l).

(** What a run of edits may touch: the children of the matches of some
    queries at a range of positions, and the matches of other queries from
    a position on. *)
Record layout := Layout {
  written : list (query * range);
  destroyed : list (query * nat)
}.

Definition licensed (L : layout) (e : edit) (soup : node) : Prop :=
  match e with
  | Write q new =>
      Forall is_text_or_br new
      /\ exists Q r, (Q, r) ∈ written L /\ q ∈ within r (ask Q soup)
  | Remove q =>
      exists Q lo, (Q, lo) ∈ destroyed L /\ q ∈ drop lo (ask Q soup)
  end.

Fixpoint licensed_all (L : layout) (es : list edit) (soup : node) : Prop :=
  match es with
  | [] => True
  | e :: es' => licensed L e soup /\ licensed_all L es' (apply_edit e soup)
  end.

(** The elements a run may rewrite and those it may destroy. *)
Definition blocks (L : layout) (soup : node) : list (list path) :=
  map (fun e : query * range => within e.2 (ask e.1 soup)) (written L).

Definition tails (L : layout) (soup : node) : list (list path) :=
  map (fun e : query * nat => drop e.2 (ask e.1 soup)) (destroyed L).

(** The node at [p] is neither touched by a run nor holds something a run
    touches or carries elsewhere. *)
Definition safe (L : layout) (carried : list query) (soup : node) (p : path) : Prop :=
  Forall (Forall (apart p)) (blocks L soup)
  /\ Forall (Forall (apart p)) (tails L soup)
  /\ Forall (fun Q => Forall (fun u => at_or_inside p u = false) (ask Q soup)) carried.

Definition blind_layout (L : layout) : Prop :=
  Forall (fun e : query * range => blind e.1) (written L)
  /\ Forall (fun e : query * nat => blind e.1) (destroyed L).

(** Whether the node at [m] is still in the tree after an edit. *)
Definition survives (e : edit) (m : path) : Prop :=
  match e with
  | Write q _ => inside q m = false
  | Remove q => at_or_inside q m = false
  end.

(** An edit that leaves the bounded result lists of the layout as they
    are, up to renaming. *)
Definition steady (L : layout) (e : edit) (soup : node) : Prop :=
  Forall (fun w : query * range =>
            match w.2.2 with
            | Some n => Forall (survives e) (take n (ask w.1 soup))
            | None => True
            end) (written L).

Fixpoint steady_all (L : layout) (es : list edit) (soup : node) : Prop :=
  match es with
  | [] => True
  | e :: es' => steady L e soup /\ steady_all L es' (apply_edit e soup)
  end.

(** The path an edit works on. *)
Definition target (e : edit) : path :=
  match e with Write q _ => q | Remove q => q end.

(** An edit of an element of the tree, with new children that are text
    and line breaks. *)
Definition sound (e : edit) (soup : node) : Prop :=
  target e <> []
  /\ (exists t a ks, get (target e) soup = Some (Elem t a ks))
  /\ match e with Write _ new => Forall is_text_or_br new | Remove _ => True end.

(** A way of writing a value into an element that replaces its children
    by text and line breaks. *)
Definition writer (write : string -> node -> node) : Prop :=
  forall v, exists new,
    Forall is_text_or_br new /\ forall el, write v el = set_kids new el.

(** The stale writes of the heading loop: the paths are those of the two
    result lists taken before the loop. *)
Definition heading_writes (left_h3s right_h3s : list path) (texts : list string)
  : list (path * string) :=
  concat (imap (fun idx text =>
                  option_list ((fun p => (p, text)) <$> left_h3s !! idx)
                  ++ option_list ((fun p => (p, text)) <$> right_h3s !! idx))
               texts).

Definition stale_write (write : string -> node -> node) (sp : node)
    (pv : path * string) : node :=
  update pv.1 (write pv.2) sp.

(** [el.string = text] and [set_rich_text(el, text)] do the same for [text]. *)
Definition plain (write : string -> node -> node) (text : string) : Prop :=
  forall el, write text el = set_kids [Text text] el.

(** The queries of the footer removal. *)
Definition footer_queries : list query :=
  map by_selector VariantB.basic_selectors
  ++ [ by_test VariantB.has_footer_id; by_test VariantB.has_footer_class ].

(** The frame of a synthesis: what it rewrites, what it destroys. *)
Definition uncapped (sels : list selector) : list (query * range) :=
  map (fun sel => (by_selector sel, (0, None))) sels.

Definition heading_selectors (label_lang : option string) : list selector :=
  if lang_supported label_lang
  then [sel_section_h3 "left"; sel_section_h3 "right"]
  else [].


Definition slot_selectors_B : list selector :=
  [ sel_h1; sel_side_label "left"; sel_side_label "right";
    sel_section_p "left"; sel_section_p "right"; VariantB.sel_user_p ].

Definition trimmed_B : list (query * nat) :=
  [ (by_selector (sel_section "left"), 5);
    (by_selector (sel_section "right"), 5);
    (by_selector (sel_section "user"), 1) ].


Definition frame_B (label_lang : option string) : layout :=
  Layout (uncapped (slot_selectors_B ++ heading_selectors label_lang))
         (trimmed_B ++ map (fun Q => (Q, 0)) footer_queries).






#[global] Instance survives_dec e m : Decision (survives e m).
Proof. destruct e; cbn; apply _. Defined.

(** A phase of the synthesizer is a licensed run. *)
Definition phase (L : layout) (soup soup' : node) : Prop :=
  exists es, soup' = apply_edits es soup /\ licensed_all L es soup.

(** ** Documents whose template elements keep out of each other's way *)

(** No element of the list lies inside another one. *)
Definition nest_free (l : list path) : Prop :=
  Forall (fun x => Forall (fun y => inside x y = false) l) l.

(** The elements of different lists are apart. *)
Fixpoint separate (ls : list (list path)) : Prop :=
  match ls with
  | [] => True
  | l :: ls' => Forall (fun x => Forall (Forall (apart x)) ls') l /\ separate ls'
  end.

(** The elements a run may rewrite are not nested, those of different
    queries are apart, and all of them are apart from what the run may
    destroy. *)
Definition tidy (L : layout) (soup : node) : Prop :=
  Forall nest_free (blocks L soup)
  /\ separate (blocks L soup)
  /\ Forall (Forall (fun x => Forall (Forall (apart x)) (tails L soup))) (blocks L soup).

(** Every range of the layout starts at the first match. *)
Definition from_start (L : layout) : Prop :=
  Forall (fun w : query * range => w.2.1 = 0) (written L).

(** The first [n] matches of a query are not inside anything a run may
    rewrite, and neither are nor lie inside anything it may destroy. *)
Definition lasting (L : layout) (soup : node) (K : query * nat) : Prop :=
  Forall (fun x =>
            Forall (Forall (fun y => inside y x = false)) (blocks L soup)
            /\ Forall (Forall (fun m => at_or_inside m x = false)) (tails L soup))
         (take K.2 (ask K.1 soup)).

(** No match of [Q] is a match of [Q'] or lies inside one. *)
Definition never_inside (Q Q' : query) (soup : node) : Prop :=
  Forall (fun m => Forall (fun u => at_or_inside u m = false) (ask Q' soup)) (ask Q soup).

(** A layout that bounds each selector's result list, and a layout of
    single positions. *)
Definition capped (caps : list (selector * nat)) : list (query * range) :=
  map (fun c => (by_selector c.1, (0, Some c.2))) caps.

Definition positions (ps : list (selector * nat)) : list (query * range) :=
  map (fun p => (by_selector p.1, (p.2, Some (S p.2)))) ps.

(** Position [p] is below the bound that [caps] gives to its selector. *)
Definition below_cap (caps : list (selector * nat)) (p : selector * nat) : Prop :=
  Exists (fun c => c.1 = p.1 /\ p.2 < c.2) caps.

(** [L'] licenses no more than [L], and watches no longer prefixes. *)
Definition sub_layout (L' L : layout) : Prop :=
  Forall (fun w' : query * range =>
            exists r : range,
              (w'.1, r) ∈ written L /\ r.1 <= w'.2.1
              /\ match w'.2.2, r.2 with
                 | Some n', Some n => n' <= n
                 | None, None => True
                 | _, _ => False
                 end)
         (written L')
  /\ destroyed L' ⊆ destroyed L.

(** ** The template, as the two variants use it *)

(** How many matches of each selector a synthesis rewrites. *)
Definition slot_caps_A : list (selector * nat) :=
  [ (sel_h1, 1); (sel_side_label "left", 1); (sel_side_label "right", 1);
    (sel_section_p "left", 5); (sel_section_p "right", 5);
    (sel_pagenum, 1); (sel_footer_strong, 1) ].

Definition slot_caps_B : list (selector * nat) :=
  [ (sel_h1, 1); (sel_side_label "left", 1); (sel_side_label "right", 1);
    (sel_section_p "left", 5); (sel_section_p "right", 5);
    (VariantB.sel_user_p, 1) ].

Definition heading_caps (label_lang : option string) : list (selector * nat) :=
  if lang_supported label_lang
  then [ (sel_section_h3 "left", 5); (sel_section_h3 "right", 5) ]
  else [].

(** The positions the heading loop writes, in its order. *)
Definition heading_positions (label_lang : option string) : list (selector * nat) :=
  if lang_supported label_lang
  then [ (sel_section_h3 "left", 0); (sel_section_h3 "right", 0);
         (sel_section_h3 "left", 1); (sel_section_h3 "right", 1);
         (sel_section_h3 "left", 2); (sel_section_h3 "right", 2);
         (sel_section_h3 "left", 3); (sel_section_h3 "right", 3);
         (sel_section_h3 "left", 4); (sel_section_h3 "right", 4) ]
  else [].

Definition plan_A (label_lang : option string) : layout :=
  Layout (capped (slot_caps_A ++ heading_caps label_lang)) [].

Definition plan_B (label_lang : option string) : layout :=
  Layout (capped (slot_caps_B ++ heading_caps label_lang))
         (trimmed_B ++ map (fun Q => (Q, 0)) footer_queries).

Definition notes : query := by_selector sel_user_panel.

(** A document of the template of Variant A: the slot elements (and the
    headings to be overwritten) are apart from one another, and the first
    [html] element is inside none of them. *)
Definition well_formed_A (label_lang : option string) (soup : node) : Prop :=
  tidy (plan_A label_lang) soup
  /\ lasting (plan_A label_lang) soup (by_selector sel_html, 1).

(** A document of the template of Variant B: the slot elements (and the
    headings to be overwritten) are apart from one another, from the
    sections beyond the fifth and from the footers; the first [html]
    element and the first five sections of the left and of the right panel
    are inside none of these; the paragraphs, headings and sections of the
    two panels are outside the notes panels, and no notes panel is inside
    one of those paragraphs or headings. *)
Definition well_formed_B (label_lang : option string) (soup : node) : Prop :=
  tidy (plan_B label_lang) soup
  /\ Forall (lasting (plan_B label_lang) soup)
       [ (by_selector sel_html, 1);
         (by_selector (sel_section "left"), 5);
         (by_selector (sel_section "right"), 5) ]
  /\ Forall (fun sel => never_inside (by_selector sel) notes soup)
       [ sel_html; sel_section "left"; sel_section "right";
         sel_section_p "left"; sel_section_p "right";
         sel_section_h3 "left"; sel_section_h3 "right" ]
  /\ Forall (fun sel => never_inside notes (by_selector sel) soup)
       [ sel_section_p "left"; sel_section_p "right";
         sel_section_h3 "left"; sel_section_h3 "right" ].

(** The result of a synthesis with label language [l]: the first [html]
    element says so, and the headings of the two panels hold the
    vocabulary of [l], position by position. *)
Definition localized (l : string) (labels : gmap string string) (out : node) : Prop :=
  (exists h t a ks,
     select_one sel_html out = Some h /\ get h out = Some (Elem t a ks)
     /\ get_attr "lang" a = Some (AStr l))
  /\ forall side i x text,
       side ∈ ["left"; "right"] ->
       select (sel_section_h3 side) out !! i = Some x ->
       desired labels !! i = Some text ->
       exists t a, get x out = Some (Elem t a [Text text]).

#[global] Instance apart_dec x m : Decision (apart x m).
Proof. unfold apart. apply _. Defined.

#[global] Instance nest_free_dec l : Decision (nest_free l).
Proof. unfold nest_free. apply _. Defined.

#[global] Instance separate_dec ls : Decision (separate ls).
Proof. induction ls as [|l ls IH]; cbn; apply _. Defined.

#[global] Instance tidy_dec L soup : Decision (tidy L soup).
Proof. unfold tidy. apply _. Defined.

#[global] Instance lasting_dec L soup K : Decision (lasting L soup K).
Proof. unfold lasting. apply _. Defined.

#[global] Instance never_inside_dec Q Q' soup : Decision (never_inside Q Q' soup).
Proof. unfold never_inside. apply _. Defined.

#[global] Instance well_formed_A_dec label_lang soup : Decision (well_formed_A label_lang soup).
Proof. unfold well_formed_A. apply _. Defined.

#[global] Instance well_formed_B_dec label_lang soup : Decision (well_formed_B label_lang soup).
Proof. unfold well_formed_B. apply _. Defined.

(** A slide without an [html] element. *)
Definition bare_doc : node :=
  soup_of
    [ Elem "h1" [] [Text "Title"];
      mk_panel "left" "AS-IS" (five_sections "X");
      mk_panel "right" "TO-BE" (five_sections "Y") ].

#[global] Instance below_cap_dec caps p : Decision (below_cap caps p).
Proof. unfold below_cap. apply _. Defined.

(** [l'] holds only renamed survivors of [l]. *)
Definition renamed (e : edit) (l l' : list path) : Prop :=
  forall x', x' ∈ l' -> exists x, x' = rename_edit e x /\ x ∈ l /\ survives e x.
(** ** Vocabulary for the code around the two functions *)




(** The field keys of the session state hold texts or nothing (what the
    widgets and [init_fields] store there). *)
Definition holds_texts (keys : list string) (st : session) : Prop :=
  Forall (fun k => is_Some (text_or EmptyString (st !! k))) keys.

#[global] Instance holds_texts_dec keys st : Decision (holds_texts keys st).
Proof. unfold holds_texts. apply _. Defined.

(** [st.session_state.get(k, "")] for a key that holds a text or nothing. *)
Definition field_text (st : session) (k : string) : string :=
  default EmptyString (text_or EmptyString (st !! k)).

(** [fields.get(k, DEFAULTS.get(k, ""))] for every key of the schema. *)
Definition completed (keys : list string) (defaults fields : gmap string string)
  : gmap string string :=
  list_to_map (map (fun k => (k, field_or_default defaults fields k)) keys).

(** Every call of the log is the lookup of the translator or the
    translation, into [lang] and from another language, of the non-empty
    text that the session state has under a field key. *)
Definition asks_only (keys : list string) (lang : string) (st : session)
    (log : list call) : Prop :=
  forall c, c ∈ log ->
    c = GetTranslator
    \/ exists k txt src,
         k ∈ keys /\ st !! k = Some (VStr txt) /\ txt <> EmptyString
         /\ src <> lang /\ c = Translate src lang txt.

(** The source language that the button chooses. *)
Definition source_lang (lang : string) : string :=
  if decide (lang = "en") then "sl" else "en".

(** What the button leaves in the session state: the chosen label
    language, and under every field key what [translate_text] returns for
    the text that was there (the empty text for a key that was missing),
    which is that text itself when there is no translator. *)
Definition translated_state (keys : list string) (GT : option translator)
    (lang : string) (st st' : session) : Prop :=
  st' !! "_label_lang" = Some (VStr lang)
  /\ (forall k, k ∈ keys ->
        st' !! k
        = Some (VStr (translate_text GT (field_text st k) (source_lang lang) lang).1))
  /\ (GT = None -> forall k, k ∈ keys -> st' !! k = Some (VStr (field_text st k))).

(** A session state in which one widget holds a text and a translator
    that marks what it is given. *)
Definition one_title : session := {[ "title" := VStr "Naslov" ]}.

Definition marking_translator : translator :=
  fun _ _ txt => Some (txt +:+ "!").

(** The headings that the session state keeps for a side of the form. *)
Definition kept_labels (pick : list string * list string -> list string)
    (st : session) : list string :=
  match st !! "_ui_labels" with
  | Some (VLabels l r _) => pick (l, r)
  | _ => []
  end.

(** [_ui_labels] is missing or holds the dictionary of labels. *)
Definition labels_typed (st : session) : Prop :=
  match st !! "_ui_labels" with
  | None | Some (VLabels _ _ _) => True
  | Some _ => False
  end.

(** A session state after the upload of a slide with two custom headings
    on the left. *)
Definition two_headings_doc : node :=
  mk_doc [mk_section " Team " [Text "a"]; mk_section "Flow" [Text "b"]] [] [].

(** ** The elements of a result list *)

(** The elements that a walk selects, in the order of the walk. *)
Section hits.
Context {St : Type} (step : St -> string -> attrs -> bool * St).

Fixpoint hits (s : St) (n : node) : list node :=
  match n with
  | Elem t a ks =>
      (if (step s t a).1 then [n] else []) ++
      (fix go (l : list node) : list node :=
         match l with
         | [] => []
         | k :: l' => hits (step s t a).2 k ++ go l'
         end) ks
  | _ => []
  end.

Definition hits_kids (s : St) (l : list node) : list node :=
  concat (map (hits s) l).
End hits.

(** What the parser makes of a printed element. *)
Definition reparsed (a b : node) : Prop := exists pre, a = reparse_in pre b.

(** * Properties *)

(** ** Strings *)

Lemma split_not_nil sep s : Str.split sep s <> [].
Proof.
  destruct s as [|c s]; simpl; [done|].
  case_decide; [done|]. by destruct (Str.split sep s).
Qed.

Lemma join_cons_cons sep a b l :
  Str.join sep (a :: b :: l) = a +:+ sep +:+ Str.join sep (b :: l).
Proof. reflexivity. Qed.

Lemma join_split s : Str.join Str.NL (Str.split Str.nl s) = s.
Proof.
  induction s as [|c s IH]; [done|]. simpl Str.split.
  pose proof (split_not_nil Str.nl s) as Hne.
  destruct (Str.split Str.nl s) as [|h t] eqn:E; [done|].
  case_decide as Hc.
  - subst c. rewrite join_cons_cons, IH. reflexivity.
  - destruct t as [|h' t].
    + simpl in *. by rewrite IH.
    + rewrite join_cons_cons. rewrite join_cons_cons in IH.
      rewrite <- IH. reflexivity.
Qed.

Lemma replace_cr_step c s :
  Str.replace_go Str.CR Str.NL 0 (String c s) =
  String (if decide (c = Str.cr) then Str.nl else c) (Str.replace_go Str.CR Str.NL 0 s).
Proof.
  cbn [Str.replace_go Str.starts_with Str.CR Str.NL String.length].
  case_bool_decide as H; case_decide as H'; try congruence; subst; try done.
Qed.

Lemma replace_cr_clean s : Str.has_char Str.cr (Str.replace Str.CR Str.NL s) = false.
Proof.
  unfold Str.replace. induction s as [|c s IH]; [done|].
  rewrite replace_cr_step. cbn [Str.has_char].
  repeat case_decide; subst; try done; try congruence.
Qed.

Lemma replace_cr_id s : Str.has_char Str.cr s = false -> Str.replace Str.CR Str.NL s = s.
Proof.
  unfold Str.replace. induction s as [|c s IH]; [done|].
  cbn [Str.has_char]. case_decide as H; [done|]. intros Hs.
  rewrite replace_cr_step, decide_False by done. by rewrite IH.
Qed.

Lemma replace_crnl_id s : Str.has_char Str.cr s = false -> Str.replace Str.CRNL Str.NL s = s.
Proof.
  unfold Str.replace. induction s as [|c s IH]; [done|].
  cbn [Str.has_char]. case_decide as H; [done|]. intros Hs.
  cbn [Str.replace_go Str.starts_with Str.CRNL].
  rewrite bool_decide_false by congruence. cbn [andb]. by rewrite IH.
Qed.

Lemma normalize_newlines_clean s : Str.has_char Str.cr (Str.normalize_newlines s) = false.
Proof. apply replace_cr_clean. Qed.

Lemma normalize_newlines_id s :
  Str.has_char Str.cr s = false -> Str.normalize_newlines s = s.
Proof.
  intros H. unfold Str.normalize_newlines.
  rewrite (replace_crnl_id s H). by apply replace_cr_id.
Qed.

Lemma normalize_newlines_idem s :
  Str.normalize_newlines (Str.normalize_newlines s) = Str.normalize_newlines s.
Proof. apply normalize_newlines_id, normalize_newlines_clean. Qed.

(** ** The rich-text codec *)

Lemma all_strings_elem t a ks :
  all_strings (Elem t a ks) = concat (map all_strings ks).
Proof.
  cbn [all_strings]. induction ks as [|k ks IH]; [done|].
  cbn [map concat]. by rewrite IH.
Qed.

Lemma rich_nodes_cons_cons a b l :
  VariantB.rich_nodes (a :: b :: l) = Text a :: VariantB.br :: VariantB.rich_nodes (b :: l).
Proof. reflexivity. Qed.

Lemma all_strings_rich parts :
  concat (map all_strings (VariantB.rich_nodes parts)) = parts.
Proof.
  induction parts as [|a [|b l] IH]; [done|done|].
  rewrite rich_nodes_cons_cons. cbn [map concat]. rewrite IH. reflexivity.
Qed.

Lemma rich_nodes_flat parts : Forall is_text_or_br (VariantB.rich_nodes parts).
Proof.
  induction parts as [|a [|b l] IH].
  - constructor.
  - constructor; [right; eauto | constructor].
  - rewrite rich_nodes_cons_cons. constructor; [right; eauto|].
    constructor; [by left | exact IH].
Qed.

Lemma text_of_rich t a v :
  VariantB._text_with_newlines
    (Elem t a (VariantB.rich_nodes (Str.split Str.nl (Str.normalize_newlines v))))
  = Str.normalize_newlines v.
Proof.
  unfold VariantB._text_with_newlines, get_text.
  rewrite all_strings_elem, all_strings_rich, join_split.
  apply normalize_newlines_idem.
Qed.

(** C3 (as amended). Writing a value into an element with [set_rich_text] and
    reading the element back with [_text_with_newlines] gives the value with
    its carriage returns turned into newlines; a value without carriage
    returns comes back exactly.  The element's children are then only text
    nodes and [br] elements, and its text nodes hold the value's lines
    character for character, whatever characters they contain. *)
Theorem rich_text_encode_decode (t : string) (a : attrs) (ks : list node) (value : string) :
  let el := VariantB.set_rich_text value (Elem t a ks) in
  VariantB._text_with_newlines el = Str.normalize_newlines value
  /\ (Str.has_char Str.cr value = false -> VariantB._text_with_newlines el = value)
  /\ Forall is_text_or_br (kids_of el)
  /\ all_strings el = Str.split Str.nl (Str.normalize_newlines value).
Proof.
  cbn zeta. unfold VariantB.set_rich_text. cbn [set_kids kids_of].
  rewrite text_of_rich. split_and!.
  - reflexivity.
  - intros H. by apply normalize_newlines_id.
  - apply rich_nodes_flat.
  - by rewrite all_strings_elem, all_strings_rich.
Qed.

Lemma rich_text_encode_decode_witness :
  Str.has_char Str.cr sample_markup_value = false
  /\ VariantB._text_with_newlines
       (VariantB.set_rich_text sample_markup_value (Elem "p" [] [Text "old"]))
     = sample_markup_value.
Proof.
  split; [reflexivity|].
  apply (rich_text_encode_decode "p" [] [Text "old"] sample_markup_value).
  reflexivity.
Defined.

(** C3 (as stated) fails on a value that holds a carriage return. *)
Lemma rich_text_carriage_return_changed :
  VariantB._text_with_newlines
    (VariantB.set_rich_text ("a" +:+ Str.CR +:+ "b") (Elem "p" [] []))
  = "a" +:+ Str.NL +:+ "b"
  /\ "a" +:+ Str.NL +:+ "b" <> "a" +:+ Str.CR +:+ "b".
Proof. split; [reflexivity | discriminate]. Qed.

(** ** The translation wrapper *)

(** C10. With the empty text the wrapper returns the empty text and asks
    nothing of the translation capability, whatever the capability and the
    two language codes are. *)
Theorem translate_text_empty (GT : option translator) (src dest : string) :
  translate_text GT EmptyString src dest = (EmptyString, []).
Proof. reflexivity. Qed.

(** ** The extractor *)

Lemma fill_defaults_lookup keys d f k :
  fill_defaults keys d f !! k =
  if bool_decide (k ∈ keys) then
    if Str.nonempty (default EmptyString (f !! k)) then f !! k
    else Some (default "TBD" (d !! k))
  else f !! k.
Proof.
  unfold fill_defaults. revert f. induction keys as [|k0 keys IH]; intros f.
  - done.
  - cbn [foldl]. rewrite IH. clear IH.
    destruct (decide (k = k0)) as [->|Hne].
    + rewrite (bool_decide_true (k0 ∈ k0 :: keys)) by apply list_elem_of_here.
      destruct (Str.nonempty (default EmptyString (f !! k0))) eqn:E.
      * rewrite E. by case_bool_decide.
      * rewrite lookup_insert_eq. cbn [default].
        case_bool_decide; [|done].
        by case_match.
    + assert (bool_decide (k ∈ k0 :: keys) = bool_decide (k ∈ keys)) as ->.
      { apply bool_decide_ext. rewrite elem_of_cons.
        split; [intros [?|?]; [congruence | done] | by right]. }
      destruct (Str.nonempty (default EmptyString (f !! k0))); [done|].
      by rewrite lookup_insert_ne.
Qed.

Lemma slot_texts_A_table soup :
  VariantA.slot_texts soup = slot_table VariantA.stripped_text soup slots_A.
Proof.
  unfold VariantA.slot_texts, slot_table, slot_text, select_one.
  rewrite !head_lookup. reflexivity.
Qed.

Lemma slot_texts_B_table soup :
  VariantB.slot_texts soup = slot_table VariantB._text_with_newlines soup slots_B.
Proof.
  unfold VariantB.slot_texts, slot_table, slot_text, select_one.
  rewrite !head_lookup. reflexivity.
Qed.

Lemma slot_table_lookup read soup slots k sel i :
  NoDup slots.*1 -> (k, (sel, i)) ∈ slots ->
  slot_table read soup slots !! k = Some (slot_text read soup sel i).
Proof.
  intros Hnd Hin. unfold slot_table.
  apply elem_of_list_to_map_1.
  - by rewrite <- list_fmap_compose.
  - apply list_elem_of_fmap. by exists (k, (sel, i)).
Qed.

Lemma slots_A_keys : slots_A.*1 = VariantA.FIELD_KEYS.
Proof. reflexivity. Qed.

Lemma slots_B_keys : slots_B.*1 = VariantB.FIELD_KEYS.
Proof. reflexivity. Qed.

Lemma NoDup_keys_A : NoDup VariantA.FIELD_KEYS.
Proof. apply (bool_decide_unpack _). by vm_compute. Qed.

Lemma NoDup_keys_B : NoDup VariantB.FIELD_KEYS.
Proof. apply (bool_decide_unpack _). by vm_compute. Qed.

Lemma parse_A_lookup soup k sel i :
  (k, (sel, i)) ∈ slots_A ->
  VariantA.parse_html_fields soup !! k =
  Some (or_default VariantA.DEFAULTS k (slot_text VariantA.stripped_text soup sel i)).
Proof.
  intros Hin. unfold VariantA.parse_html_fields.
  rewrite fill_defaults_lookup, slot_texts_A_table.
  rewrite (slot_table_lookup _ _ _ k sel i); [| rewrite slots_A_keys; apply NoDup_keys_A | done].
  rewrite bool_decide_true.
  - unfold or_default. cbn [default id]. by case_match.
  - rewrite <- slots_A_keys. apply list_elem_of_fmap. by exists (k, (sel, i)).
Qed.

Lemma parse_B_lookup soup k sel i :
  (k, (sel, i)) ∈ slots_B ->
  VariantB.parse_html_fields soup !! k =
  Some (or_default VariantB.DEFAULTS k (slot_text VariantB._text_with_newlines soup sel i)).
Proof.
  intros Hin. unfold VariantB.parse_html_fields.
  rewrite fill_defaults_lookup, slot_texts_B_table.
  rewrite (slot_table_lookup _ _ _ k sel i); [| rewrite slots_B_keys; apply NoDup_keys_B | done].
  rewrite bool_decide_true.
  - unfold or_default. cbn [default id]. by case_match.
  - rewrite <- slots_B_keys. apply list_elem_of_fmap. by exists (k, (sel, i)).
Qed.

Lemma defaults_A_nonempty k :
  k ∈ VariantA.FIELD_KEYS ->
  exists d, VariantA.DEFAULTS !! k = Some d /\ Str.nonempty d = true.
Proof.
  intros Hin. unfold VariantA.FIELD_KEYS in Hin.
  repeat (apply elem_of_cons in Hin as [->|Hin]; [eexists; split; [by vm_compute | done]|]).
  by apply elem_of_nil in Hin.
Qed.

Lemma defaults_B_nonempty k :
  k ∈ VariantB.FIELD_KEYS ->
  exists d, VariantB.DEFAULTS !! k = Some d /\ (k <> "user_notes" -> Str.nonempty d = true).
Proof.
  intros Hin. unfold VariantB.FIELD_KEYS in Hin.
  repeat (apply elem_of_cons in Hin as [->|Hin];
          [eexists; split; [by vm_compute | first [done | intros _; reflexivity]]|]).
  by apply elem_of_nil in Hin.
Qed.




(** C4 (as amended). For every document and every field of the schema: when
    the field's slot is absent, or its text reads as the empty string, the
    extractor's output holds the schema default for the field.  That
    default is a non-empty placeholder for every field of Variant A, and for
    every field of Variant B except [user_notes], whose default is the
    empty string. *)
Theorem default_substitution (soup : node) (k : string) (sel : selector) (i : nat) :
  ((k, (sel, i)) ∈ slots_A ->
   select sel soup !! i = None \/ slot_text VariantA.stripped_text soup sel i = EmptyString ->
   exists d, VariantA.DEFAULTS !! k = Some d
             /\ VariantA.parse_html_fields soup !! k = Some d
             /\ Str.nonempty d = true)
  /\
  ((k, (sel, i)) ∈ slots_B ->
   select sel soup !! i = None
   \/ slot_text VariantB._text_with_newlines soup sel i = EmptyString ->
   exists d, VariantB.DEFAULTS !! k = Some d
             /\ VariantB.parse_html_fields soup !! k = Some d
             /\ (k <> "user_notes" -> Str.nonempty d = true)).
Proof.
  split; intros Hin Hraw.
  - assert (slot_text VariantA.stripped_text soup sel i = EmptyString) as Hr.
    { destruct Hraw as [Hn|Hr]; [|done]. unfold slot_text. by rewrite Hn. }
    destruct (defaults_A_nonempty k) as (d & Hd & Hne).
    { rewrite <- slots_A_keys. apply list_elem_of_fmap. by exists (k, (sel, i)). }
    exists d. split_and!; [done| |done].
    rewrite (parse_A_lookup soup k sel i Hin), Hr. unfold or_default. cbn [Str.nonempty default].
    by rewrite Hd.
  - assert (slot_text VariantB._text_with_newlines soup sel i = EmptyString) as Hr.
    { destruct Hraw as [Hn|Hr]; [|done]. unfold slot_text. by rewrite Hn. }
    destruct (defaults_B_nonempty k) as (d & Hd & Hne).
    { rewrite <- slots_B_keys. apply list_elem_of_fmap. by exists (k, (sel, i)). }
    exists d. split_and!; [done| |done].
    rewrite (parse_B_lookup soup k sel i Hin), Hr. unfold or_default. cbn [Str.nonempty default].
    by rewrite Hd.
Qed.

Lemma default_substitution_witness :
  exists d, VariantB.DEFAULTS !! "right_output" = Some d
            /\ VariantB.parse_html_fields blank_line_doc !! "right_output" = Some d
            /\ ("right_output" <> "user_notes" -> Str.nonempty d = true).
Proof.
  refine (proj2 (default_substitution blank_line_doc "right_output"
                   (sel_section_p "right") 4) _ _).
  - apply (bool_decide_unpack _). by vm_compute.
  - left. reflexivity.
Defined.

(** C4 (as stated) fails for [user_notes] in Variant B: a document without a
    notes slot gets the empty string. *)
Lemma user_notes_default_is_empty :
  select VariantB.sel_user_p blank_line_doc = []
  /\ VariantB.DEFAULTS !! "user_notes" = Some EmptyString
  /\ VariantB.parse_html_fields blank_line_doc !! "user_notes" = Some EmptyString.
Proof. split_and!; by vm_compute. Qed.

Lemma slot_table_no_slot read soup slots :
  no_slot slots soup ->
  slot_table read soup slots = list_to_map (map (fun e => (e.1, EmptyString)) slots).
Proof.
  intros H. unfold slot_table. f_equal.
  apply Forall_fmap_ext. eapply Forall_impl; [exact H|].
  intros [k [sel i]] Hs. cbn [fst snd] in *. unfold slot_text. by rewrite Hs.
Qed.



(** ** Round trip through the printed document *)

(** C1, at a failing input. The paragraph of the first left section holds a
    blank line.  The extractor reads it with the blank line; synthesizing
    with the extracted fields writes two [br] elements with an empty text
    node between them; in the printed document, read again, the two [br]
    elements stand side by side, and the extractor reads the paragraph
    without the blank line. *)
Lemma roundtrip_loses_blank_line :
  let fields := VariantB.parse_html_fields blank_line_doc in
  fields !! "left_people" = Some ("a" +:+ Str.NL +:+ Str.NL +:+ "b")
  /\ exists out,
      VariantB.apply_fields_to_html blank_line_doc fields None = Some out
      /\ get [0; 0; 1; 1; 1] out
         = Some (Elem "p" [] [Text "a"; VariantB.br; Text EmptyString; VariantB.br; Text "b"])
      /\ get [0; 0; 1; 1; 1] (reparse out)
         = Some (Elem "p" [] [Text "a"; VariantB.br; VariantB.br; Text "b"])
      /\ VariantB.parse_html_fields (reparse out) !! "left_people"
         = Some ("a" +:+ Str.NL +:+ "b").
Proof.
  cbn zeta. split; [by vm_compute|].
  eexists. split; [by vm_compute|]. split_and!; by vm_compute.
Qed.

(** ** Paths *)

Lemma at_or_inside_refl q : at_or_inside q q = true.
Proof. induction q as [|i q IH]; [done|]. cbn. by rewrite bool_decide_true, IH. Qed.

Lemma at_or_inside_app q r : at_or_inside q (q ++ r) = true.
Proof. induction q as [|i q IH]; [done|]. cbn. by rewrite bool_decide_true, IH. Qed.

Lemma at_or_inside_spec q m : at_or_inside q m = true <-> exists r, m = q ++ r.
Proof.
  split.
  - revert m. induction q as [|i q IH]; intros m H; [by exists m|].
    destruct m as [|j m]; [done|]. cbn in H.
    apply andb_true_iff in H as [Hij H]. apply bool_decide_eq_true in Hij as <-.
    destruct (IH _ H) as [r ->]. by exists r.
  - intros [r ->]. apply at_or_inside_app.
Qed.

Lemma at_or_inside_trans p q m :
  at_or_inside p q = true -> at_or_inside q m = true -> at_or_inside p m = true.
Proof.
  rewrite !at_or_inside_spec. intros [r ->] [r' ->]. exists (r ++ r'). by rewrite app_assoc.
Qed.

Lemma inside_spec q m : inside q m = true <-> exists j r, m = q ++ j :: r.
Proof.
  unfold inside. rewrite andb_true_iff, negb_true_iff, bool_decide_eq_false, at_or_inside_spec.
  split.
  - intros [[r ->] Hne]. destruct r as [|j r]; [by rewrite app_nil_r in Hne|]. eauto.
  - intros (j & r & ->). split; [eauto|]. intros H.
    apply (f_equal length) in H. rewrite length_app in H. cbn in H. lia.
Qed.

Lemma inside_at_or_inside q m : inside q m = true -> at_or_inside q m = true.
Proof. unfold inside. by intros [? _]%andb_true_iff. Qed.

Lemma before_irrefl p : before p p = false.
Proof.
  induction p as [|i p IH]; [done|]. cbn.
  rewrite bool_decide_false by lia. by rewrite bool_decide_true, IH.
Qed.


Lemma before_inside q m : inside q m = true -> before q m = true.
Proof.
  rewrite inside_spec. intros (j & r & ->).
  induction q as [|i q IH]; [reflexivity|]. cbn.
  rewrite (bool_decide_true (i = i)) by done. by rewrite IH, orb_true_r.
Qed.

(** A node that comes before [q] in document order is neither [q] nor below it. *)
Lemma before_not_at_or_inside q m : before m q = true -> at_or_inside q m = false.
Proof.
  revert m. induction q as [|i q IH]; intros [|j m]; cbn; try done.
  rewrite orb_true_iff, andb_true_iff, !bool_decide_eq_true.
  intros [H|[-> H]].
  - rewrite bool_decide_false by lia. done.
  - rewrite bool_decide_true by done. by apply IH.
Qed.

Lemma shift_single i j m :
  shift [i] (j :: m) = (if decide (i < j) then pred j else j) :: m.
Proof. reflexivity. Qed.

Lemma shift_deeper i i' q j m :
  shift (i :: i' :: q) (j :: m) = if decide (i = j) then j :: shift (i' :: q) m else j :: m.
Proof. reflexivity. Qed.

(** ... and taking [q] out does not move it. *)
Lemma shift_before q m : before m q = true -> shift q m = m.
Proof.
  revert m. induction q as [|i q IH]; intros [|j m]; try done.
  cbn [before]. rewrite orb_true_iff, andb_true_iff, !bool_decide_eq_true.
  intros [H|[-> H]].
  - destruct q as [|i' q].
    + rewrite shift_single. by rewrite decide_False by lia.
    + rewrite shift_deeper. by rewrite decide_False by lia.
  - destruct q as [|i' q].
    + by destruct m.
    + rewrite shift_deeper, decide_True by done. by rewrite IH.
Qed.

(** ** The walk *)

Section walk_facts.
Context {St : Type} (step : St -> string -> attrs -> bool * St).

Lemma walk_elem s t a ks :
  walk step s (Elem t a ks) =
  (if (step s t a).1 then [[]] else []) ++ walk_kids step (step s t a).2 0 ks.
Proof.
  cbn [walk]. f_equal. generalize 0.
  induction ks as [|k ks IH]; intros b; [done|]. cbn [walk_kids]. by rewrite IH.
Qed.

Lemma walk_kids_app s b l1 l2 :
  walk_kids step s b (l1 ++ l2) =
  walk_kids step s b l1 ++ walk_kids step s (b + length l1) l2.
Proof.
  revert b. induction l1 as [|k l1 IH]; intros b.
  - cbn. by rewrite Nat.add_0_r.
  - cbn [app walk_kids length]. rewrite IH, <- app_assoc.
    by replace (S b + length l1) with (b + S (length l1)) by lia.
Qed.

Lemma walk_kids_split s b ks i k :
  ks !! i = Some k ->
  walk_kids step s b ks =
  walk_kids step s b (take i ks) ++ map (cons (b + i)) (walk step s k)
  ++ walk_kids step s (b + S i) (drop (S i) ks).
Proof.
  intros Hk. rewrite <- (take_drop_middle ks i k Hk) at 1.
  rewrite walk_kids_app. cbn [walk_kids]. rewrite length_take_le.
  - by replace (S (b + i)) with (b + S i) by lia.
  - apply lookup_lt_Some in Hk. lia.
Qed.

Lemma walk_kids_first s b ks m :
  m ∈ walk_kids step s b ks ->
  exists j m', m = j :: m' /\ b <= j < b + length ks.
Proof.
  revert b. induction ks as [|k ks IH]; intros b Hm; [by apply elem_of_nil in Hm|].
  cbn [walk_kids] in Hm. apply elem_of_app in Hm as [Hm|Hm].
  - apply list_elem_of_fmap in Hm as (m' & -> & _). exists b, m'. cbn. split; [done|lia].
  - destruct (IH _ Hm) as (j & m' & -> & Hj). exists j, m'. cbn. split; [done|lia].
Qed.

(** Membership in the result list, read off along the path. *)
Lemma elem_of_walk s n m : m ∈ walk step s n <-> matched step m s n = true.
Proof.
  revert s m. induction n as [x|x|t a ks IH] using node_ind'; intros s m.
  - cbn. destruct m; split; try done; by intros ?%elem_of_nil.
  - cbn. destruct m; split; try done; by intros ?%elem_of_nil.
  - rewrite walk_elem. destruct m as [|i m].
    + cbn [matched]. rewrite elem_of_app. split.
      * intros [H|H].
        -- destruct ((step s t a).1); [done | by apply elem_of_nil in H].
        -- by apply walk_kids_first in H as (? & ? & ? & _).
      * intros ->. left. apply list_elem_of_here.
    + cbn [matched]. rewrite elem_of_app. split.
      * intros [H|H].
        { destruct ((step s t a).1); [by apply list_elem_of_singleton in H | by apply elem_of_nil in H]. }
        set (s' := (step s t a).2) in *. clearbody s'.
        assert (forall b, (i :: m) ∈ walk_kids step s' b ks ->
                  exists k, ks !! (i - b) = Some k /\ b <= i /\ matched step m s' k = true) as Hgen.
        { clear H. induction ks as [|k ks IHks]; intros b Hm; [by apply elem_of_nil in Hm|].
          apply Forall_cons in IH as [IHk IHrest].
          cbn [walk_kids] in Hm. apply elem_of_app in Hm as [Hm|Hm].
          - apply list_elem_of_fmap in Hm as (m' & [= <- <-] & Hm').
            exists k. rewrite Nat.sub_diag. split_and!; [done|lia|]. by apply IHk.
          - destruct (IHks IHrest _ Hm) as (k' & Hk' & Hb & Hmt).
            exists k'. split_and!; [|lia|done].
            replace (i - b) with (S (i - S b)) by lia. done. }
        destruct (Hgen 0 H) as (k & Hk & _ & Hmt). rewrite Nat.sub_0_r in Hk.
        by rewrite Hk.
      * destruct (ks !! i) as [k|] eqn:Hk; [|done]. intros Hmt. right.
        rewrite (walk_kids_split _ _ _ _ _ Hk), !elem_of_app. right. left.
        apply list_elem_of_fmap. exists m. split; [done|].
        rewrite Forall_forall in IH. apply IH; [|done].
        by eapply list_elem_of_lookup_2.
Qed.

Lemma elem_of_walk_kids s ks m :
  m ∈ walk_kids step s 0 ks <->
  exists i m' k, m = i :: m' /\ ks !! i = Some k /\ matched step m' s k = true.
Proof.
  split.
  - intros Hm.
    assert (forall b, m ∈ walk_kids step s b ks ->
              exists i m' k, m = (b + i) :: m' /\ ks !! i = Some k
                             /\ matched step m' s k = true) as Hgen.
    { clear Hm. induction ks as [|k ks IHks]; intros b Hm; [by apply elem_of_nil in Hm|].
      cbn [walk_kids] in Hm. apply elem_of_app in Hm as [Hm|Hm].
      - apply list_elem_of_fmap in Hm as (m' & -> & Hm').
        exists 0, m', k. rewrite Nat.add_0_r. split_and!; [done|done|].
        by apply elem_of_walk.
      - destruct (IHks _ Hm) as (i & m' & k' & -> & Hk' & Hmt).
        exists (S i), m', k'. split_and!; [f_equal; lia|done|done]. }
    destruct (Hgen 0 Hm) as (i & m' & k & -> & Hk & Hmt). by exists i, m', k.
  - intros (i & m' & k & -> & Hk & Hmt).
    rewrite (walk_kids_split _ _ _ _ _ Hk), !elem_of_app. right. left.
    apply list_elem_of_fmap. exists m'. split; [done|]. by apply elem_of_walk.
Qed.

End walk_facts.

(** ** Small list facts *)

Lemma filter_keep_all {A} (P : A -> Prop) `{!forall x, Decision (P x)} (l : list A) :
  (forall x, x ∈ l -> P x) -> filter P l = l.
Proof.
  induction l as [|x l IH]; intros Hall; [done|].
  rewrite filter_cons_True by (apply Hall; left). f_equal. apply IH.
  intros y Hy. apply Hall. by right.
Qed.

Lemma filter_drop_all {A} (P : A -> Prop) `{!forall x, Decision (P x)} (l : list A) :
  (forall x, x ∈ l -> ~ P x) -> filter P l = [].
Proof.
  induction l as [|x l IH]; intros Hall; [done|].
  rewrite filter_cons_False by (apply Hall; left). apply IH.
  intros y Hy. apply Hall. by right.
Qed.

Lemma map_keep_all {A} (f : A -> A) (l : list A) :
  (forall x, x ∈ l -> f x = x) -> map f l = l.
Proof.
  induction l as [|x l IH]; intros H; [done|]. cbn.
  rewrite H by left. f_equal. apply IH. intros y Hy. apply H. by right.
Qed.

Lemma filter_map_cons (P : path -> Prop) `{!forall x, Decision (P x)} i (l : list path) :
  filter P (map (cons i) l) = map (cons i) (filter (fun m => P (i :: m)) l).
Proof.
  induction l as [|x l IH]; [done|]. cbn [map].
  destruct (decide (P (i :: x))) as [Hx|Hx].
  - rewrite !filter_cons_True by done. cbn [map]. f_equal. exact IH.
  - rewrite !filter_cons_False by done. exact IH.
Qed.

(** ** Paths and the walk *)

Lemma at_or_inside_cons i q j m :
  at_or_inside (i :: q) (j :: m) = bool_decide (i = j) && at_or_inside q m.
Proof. reflexivity. Qed.

Lemma inside_cons_same i q m : inside (i :: q) (i :: m) = inside q m.
Proof.
  unfold inside. cbn. rewrite (bool_decide_true (i = i)) by done. cbn.
  f_equal. f_equal. apply bool_decide_ext. split; [by intros [= ->] | by intros ->].
Qed.

Lemma inside_cons_other i q j m : i <> j -> inside (i :: q) (j :: m) = false.
Proof. intros H. unfold inside. cbn. by rewrite bool_decide_false. Qed.

Lemma inside_nil_cons j m : inside [] (j :: m) = true.
Proof. reflexivity. Qed.

Section walk_edit.
Context {St : Type} (step : St -> string -> attrs -> bool * St).

Lemma walk_kids_alter s b ks i k f :
  ks !! i = Some k ->
  walk_kids step s b (alter f i ks) =
  walk_kids step s b (take i ks) ++ map (cons (b + i)) (walk step s (f k))
  ++ walk_kids step s (b + S i) (drop (S i) ks).
Proof.
  intros Hk.
  assert (alter f i ks !! i = Some (f k)) as Hk'.
  { by rewrite list_lookup_alter_eq, Hk. }
  rewrite (walk_kids_split _ _ _ _ _ _ Hk').
  rewrite take_alter_ge by lia. by rewrite drop_alter_lt by lia.
Qed.

Lemma walk_kids_succ s b l :
  walk_kids step s (S b) l =
  map (fun m => match m with j :: m' => S j :: m' | [] => [] end) (walk_kids step s b l).
Proof.
  revert b. induction l as [|k l IH]; intros b; [done|].
  cbn [walk_kids]. rewrite map_app, <- IH. f_equal.
  rewrite map_map. reflexivity.
Qed.

(** The result list of a forest from which child [i] has been deleted. *)
Lemma walk_kids_delete s b ks i :
  i < length ks ->
  walk_kids step s b (delete i ks) =
  map (shift [b + i]) (filter (fun m => at_or_inside [b + i] m = false) (walk_kids step s b ks)).
Proof.
  intros Hi. destruct (lookup_lt_is_Some_2 ks i Hi) as [k Hk].
  rewrite (walk_kids_split _ _ _ _ _ _ Hk), !filter_app, !map_app.
  rewrite delete_take_drop, walk_kids_app, length_take_le by lia.
  f_equal; [|rewrite filter_drop_all; cbn [map app]].
  - rewrite filter_keep_all, map_keep_all; [done| |].
    + intros m Hm. apply walk_kids_first in Hm as (j & m' & -> & Hj).
      rewrite length_take_le in Hj by lia.
      rewrite shift_single. by rewrite decide_False by lia.
    + intros m Hm. apply walk_kids_first in Hm as (j & m' & -> & Hj).
      rewrite length_take_le in Hj by lia.
      cbn. by rewrite bool_decide_false by lia.
  - rewrite filter_keep_all.
    + replace (b + S i) with (S (b + i)) by lia. rewrite walk_kids_succ, map_map.
      symmetry. apply map_keep_all. intros m Hm.
      apply walk_kids_first in Hm as (j & m' & -> & Hj).
      rewrite shift_single. by rewrite decide_True by lia.
    + intros m Hm. apply walk_kids_first in Hm as (j & m' & -> & Hj).
      cbn. by rewrite bool_decide_false by lia.
  - intros m Hm. apply list_elem_of_fmap in Hm as (m' & -> & _).
    cbn. rewrite bool_decide_true by done. destruct m'; done.
Qed.

(** *** Taking a node out *)

Lemma filter_self_remove (b : bool) i q :
  map (shift (i :: q))
    (filter (fun m => at_or_inside (i :: q) m = false) (if b then [[]] else []))
  = if b then [[]] else [].
Proof. destruct b; [|done]. rewrite filter_cons_True by done. by destruct q. Qed.

Lemma walk_kids_remove_deeper s ks i k q (f : node -> node) :
  q <> [] ->
  ks !! i = Some k ->
  walk step s (f k)
  = map (shift q) (filter (fun m => at_or_inside q m = false) (walk step s k)) ->
  walk_kids step s 0 (alter f i ks)
  = map (shift (i :: q))
      (filter (fun m => at_or_inside (i :: q) m = false) (walk_kids step s 0 ks)).
Proof.
  intros Hq Hk IH.
  rewrite (walk_kids_alter _ _ _ _ _ _ Hk), (walk_kids_split _ _ _ _ _ _ Hk).
  rewrite !filter_app, !map_app.
  assert (forall l b, (forall m, m ∈ walk_kids step s b l ->
              exists j m', m = j :: m' /\ j <> i) ->
            map (shift (i :: q))
              (filter (fun m => at_or_inside (i :: q) m = false) (walk_kids step s b l))
            = walk_kids step s b l) as Hside.
  { intros l b Hne. rewrite filter_keep_all, map_keep_all; [done| |].
    - intros m Hm. destruct (Hne _ Hm) as (j & m' & -> & Hj).
      destruct q as [|i' q]; [done|]. rewrite shift_deeper. by rewrite decide_False.
    - intros m Hm. destruct (Hne _ Hm) as (j & m' & -> & Hj).
      cbn. by rewrite bool_decide_false. }
  f_equal; [|f_equal].
  - symmetry. apply Hside. intros m Hm.
    apply walk_kids_first in Hm as (j & m' & -> & Hj).
    apply lookup_lt_Some in Hk. rewrite length_take_le in Hj by lia.
    exists j, m'. split; [done|lia].
  - rewrite IH, filter_map_cons, !map_map. cbn [Nat.add].
    rewrite (list_filter_iff (fun m => at_or_inside (i :: q) (i :: m) = false)
               (fun m => at_or_inside q m = false)).
    + apply map_ext. intros m. destruct q as [|i' q]; [done|].
      rewrite shift_deeper. by rewrite decide_True.
    + intros m. rewrite at_or_inside_cons. by rewrite bool_decide_true.
  - symmetry. apply Hside. intros m Hm.
    apply walk_kids_first in Hm as (j & m' & -> & Hj).
    exists j, m'. split; [done|lia].
Qed.

Lemma walk_remove s q n :
  q <> [] -> is_Some (get q n) ->
  walk step s (remove q n)
  = map (shift q) (filter (fun m => at_or_inside q m = false) (walk step s n)).
Proof.
  revert s n. induction q as [|i q IH]; intros s n Hq Hv; [done|].
  destruct n as [x|x|t a ks]; [by destruct Hv..|].
  cbn [get] in Hv. destruct (ks !! i) as [k|] eqn:Hk; [|by destruct Hv].
  rewrite (walk_elem _ s t a ks), filter_app, map_app, filter_self_remove.
  destruct q as [|i' q].
  - cbn [remove]. rewrite walk_elem. f_equal.
    apply lookup_lt_Some in Hk.
    by rewrite (walk_kids_delete _ 0 ks i Hk).
  - change (remove (i :: i' :: q) (Elem t a ks))
      with (Elem t a (alter (remove (i' :: q)) i ks)).
    rewrite walk_elem. f_equal.
    apply (walk_kids_remove_deeper _ ks i k (i' :: q) (remove (i' :: q))); [done|done|]. by apply IH.
Qed.

(** *** Replacing the children of an element by nodes that no walk selects *)

Lemma walk_kids_set_kids_deeper s ks i k q f :
  ks !! i = Some k ->
  walk step s (update q f k) = filter (fun m => inside q m = false) (walk step s k) ->
  walk_kids step s 0 (alter (update q f) i ks)
  = filter (fun m => inside (i :: q) m = false) (walk_kids step s 0 ks).
Proof.
  intros Hk IH.
  rewrite (walk_kids_alter _ _ _ _ _ _ Hk), (walk_kids_split _ _ _ _ _ _ Hk).
  rewrite !filter_app.
  f_equal; [|f_equal].
  - symmetry. apply filter_keep_all. intros m Hm.
    apply walk_kids_first in Hm as (j & m' & -> & Hj).
    apply lookup_lt_Some in Hk. rewrite length_take_le in Hj by lia.
    apply inside_cons_other. lia.
  - rewrite IH, filter_map_cons. cbn [Nat.add]. f_equal.
    apply list_filter_iff. intros m. by rewrite inside_cons_same.
  - symmetry. apply filter_keep_all. intros m Hm.
    apply walk_kids_first in Hm as (j & m' & -> & Hj).
    apply inside_cons_other. lia.
Qed.

Lemma walk_set_kids (R : St -> Prop) s q n new :
  closed step R -> unseen step R new -> R s ->
  (exists t a ks, get q n = Some (Elem t a ks)) ->
  walk step s (update q (set_kids new) n)
  = filter (fun m => inside q m = false) (walk step s n).
Proof.
  intros HR Hnew. revert s n. induction q as [|i q IH]; intros s n Hs (t & a & ks & Hv).
  - cbn in Hv. injection Hv as ->. cbn [update set_kids].
    rewrite !walk_elem, Hnew, filter_app, app_nil_r by by apply HR.
    rewrite (filter_drop_all _ (walk_kids _ _ _ _)).
    + rewrite app_nil_r. symmetry. apply filter_keep_all.
      intros m Hm. destruct ((step s t a).1); [|by apply elem_of_nil in Hm].
      by apply list_elem_of_singleton in Hm as ->.
    + intros m Hm. apply walk_kids_first in Hm as (j & m' & -> & _). done.
  - destruct n as [x|x|t' a' ks']; [done..|].
    cbn [get] in Hv. destruct (ks' !! i) as [k|] eqn:Hk; [|done].
    cbn [update]. rewrite !walk_elem, filter_app. f_equal.
    + symmetry. apply filter_keep_all.
      intros m Hm. destruct ((step s t' a').1); [|by apply elem_of_nil in Hm].
      by apply list_elem_of_singleton in Hm as ->.
    + apply (walk_kids_set_kids_deeper _ ks' i k q); [done|].
      apply IH; [by apply HR | eauto].
Qed.

(** *** Changing an attribute that the matcher does not look at *)

Lemma walk_relabel (R : St -> Prop) s q n (g : attrs -> attrs) :
  closed step R -> R s ->
  (forall s t a, R s -> step s t (g a) = step s t a) ->
  walk step s
    (update q (fun el => match el with Elem t a ks => Elem t (g a) ks | _ => el end) n)
  = walk step s n.
Proof.
  intros Hcl Hs Hg. revert s n Hs. induction q as [|i q IH]; intros s n Hs.
  - destruct n as [x|x|t a ks]; [done..|]. cbn [update].
    by rewrite !walk_elem, Hg.
  - destruct n as [x|x|t a ks]; [done..|]. cbn [update].
    rewrite !walk_elem. f_equal.
    destruct (ks !! i) as [k|] eqn:Hk.
    + rewrite (walk_kids_alter _ _ _ _ _ _ Hk), (walk_kids_split _ _ _ _ _ _ Hk).
      rewrite IH; [done|]. by apply Hcl.
    + assert (alter (update q (fun el =>
                 match el with Elem t a ks => Elem t (g a) ks | _ => el end)) i ks = ks) as ->; [|done].
      apply list_eq. intros j. rewrite list_lookup_alter.
      case_decide; [subst; by rewrite Hk | done].
Qed.

(** *** Order *)

Lemma walk_sorted s n : StronglySorted (fun p q => before p q = true) (walk step s n).
Proof.
  revert s. induction n as [x|x|t a ks IH] using node_ind'; intros s;
    [constructor..|].
  rewrite walk_elem. apply StronglySorted_app_2.
  - intros p q Hp Hq. destruct ((step s t a).1); [|by apply elem_of_nil in Hp].
    apply list_elem_of_singleton in Hp as ->.
    by apply walk_kids_first in Hq as (j & m' & -> & _).
  - destruct ((step s t a).1); repeat constructor.
  - generalize 0. set (s' := (step s t a).2). clearbody s'.
    induction ks as [|k ks IHks]; intros b; [constructor|].
    apply Forall_cons in IH as [IHk IHrest]. cbn [walk_kids].
    apply StronglySorted_app_2.
    + intros p q Hp Hq. apply list_elem_of_fmap in Hp as (p' & -> & _).
      apply walk_kids_first in Hq as (j & m' & -> & Hj).
      cbn. by rewrite bool_decide_true by lia.
    + specialize (IHk s'). induction IHk as [|p l Hs IHs Hall]; [constructor|].
      cbn [map]. constructor; [done|].
      apply Forall_fmap. eapply Forall_impl; [exact Hall|].
      intros q Hq. cbn. rewrite (bool_decide_true (b = b)) by done.
      by rewrite Hq, orb_true_r.
    + by apply IHks.
Qed.

End walk_edit.

(** ** Reading and editing at a path *)


Lemma get_update_at q f n : get q (update q f n) = f <$> get q n.
Proof.
  revert n. induction q as [|i q IH]; intros n; [done|].
  destruct n as [x|x|t a ks]; [done..|]. cbn [update get].
  rewrite list_lookup_alter_eq. destruct (ks !! i); [apply IH | done].
Qed.

(** Editing at [q] leaves what is neither above nor below [q] as it was. *)
Lemma get_update_apart q p f n :
  at_or_inside q p = false -> at_or_inside p q = false ->
  get p (update q f n) = get p n.
Proof.
  revert p n. induction q as [|i q IH]; intros [|j p] n Hqp Hpq; try done.
  destruct n as [x|x|t a ks]; [done..|]. cbn [update get].
  rewrite !at_or_inside_cons in *.
  destruct (decide (i = j)) as [->|Hne].
  - rewrite bool_decide_true in Hqp, Hpq by done. cbn in Hqp, Hpq.
    rewrite list_lookup_alter_eq. destruct (ks !! j); [by apply IH | done].
  - by rewrite list_lookup_alter_ne.
Qed.

(** Editing below [p] keeps the element at [p] and its label. *)
Lemma label_update_below q p f n :
  inside p q = true ->
  label_of <$> get p (update q f n) = label_of <$> get p n.
Proof.
  rewrite inside_spec. intros (j & r & ->).
  revert n. induction p as [|i p IH]; intros n.
  - cbn. by destruct n.
  - destruct n as [x|x|t a ks]; [done..|]. cbn [app update get].
    rewrite list_lookup_alter_eq. destruct (ks !! i); [apply IH | done].
Qed.

Lemma update_update q f g n : update q f (update q g n) = update q (fun x => f (g x)) n.
Proof.
  revert n. induction q as [|i q IH]; intros n; [done|].
  destruct n as [x|x|t a ks]; [done..|]. cbn [update]. f_equal.
  rewrite list_alter_alter_eq. apply list_alter_ext; [|done]. intros k _. apply IH.
Qed.


(** Taking a node out is an edit of its parent. *)
Lemma remove_as_update par i n : remove (par ++ [i]) n = update par (del_kid i) n.
Proof.
  revert n. induction par as [|j par IH]; intros n.
  - by destruct n.
  - destruct n as [x|x|t a ks]; [by destruct par..|].
    cbn [app update]. destruct (par ++ [i]) as [|i' r] eqn:E.
    + by destruct par.
    + change (remove (j :: i' :: r) (Elem t a ks))
        with (Elem t a (alter (remove (i' :: r)) j ks)).
      f_equal. apply list_alter_ext; [|done]. intros k _. apply IH.
Qed.

Lemma path_snoc (p : path) : p <> [] -> exists par i, p = par ++ [i] /\ parent_path p = par.
Proof.
  intros Hp. destruct (exists_last Hp) as (par & i & ->).
  exists par, i. split; [done|]. unfold parent_path. apply removelast_last.
Qed.

(** ** Labels *)

Lemma labels_elem t a ks : labels (Elem t a ks) = (t, a) :: labels_kids ks.
Proof.
  cbn [labels]. f_equal. unfold labels_kids.
  induction ks as [|k ks IH]; [done|]. cbn [map concat]. by rewrite IH.
Qed.

Lemma labels_kids_cons k ks : labels_kids (k :: ks) = labels k ++ labels_kids ks.
Proof. reflexivity. Qed.

Lemma labels_kids_app l1 l2 : labels_kids (l1 ++ l2) = labels_kids l1 ++ labels_kids l2.
Proof. unfold labels_kids. by rewrite map_app, concat_app. Qed.

Lemma labels_kids_middle ks i k :
  ks !! i = Some k ->
  labels_kids ks = labels_kids (take i ks) ++ labels k ++ labels_kids (drop (S i) ks).
Proof.
  intros Hk. rewrite <- labels_kids_cons, <- labels_kids_app.
  by rewrite take_drop_middle.
Qed.

Lemma alter_middle {A} (f : A -> A) (ks : list A) i k :
  ks !! i = Some k -> alter f i ks = take i ks ++ f k :: drop (S i) ks.
Proof.
  intros Hk. rewrite <- (take_drop_middle (alter f i ks) i (f k)).
  - by rewrite take_alter_ge, drop_alter_lt by lia.
  - by rewrite list_lookup_alter_eq, Hk.
Qed.

Lemma alter_invalid {A} (f : A -> A) (ks : list A) i :
  ks !! i = None -> alter f i ks = ks.
Proof.
  intros Hk. apply list_eq. intros j. rewrite list_lookup_alter.
  case_decide; [subst; by rewrite Hk | done].
Qed.


Lemma labels_kids_delete ks i : labels_kids (delete i ks) ⊆ labels_kids ks.
Proof.
  destruct (ks !! i) as [k|] eqn:Hk.
  - rewrite delete_take_drop, (labels_kids_middle ks i k Hk), labels_kids_app.
    intros x. rewrite !elem_of_app. tauto.
  - rewrite delete_take_drop, take_ge, drop_ge, app_nil_r; [done| |];
      apply lookup_ge_None in Hk; lia.
Qed.

Lemma labels_kids_alter ks i f :
  (forall k, ks !! i = Some k -> labels (f k) ⊆ labels k) ->
  labels_kids (alter f i ks) ⊆ labels_kids ks.
Proof.
  intros Hf. destruct (ks !! i) as [k|] eqn:Hk.
  - rewrite (alter_middle f ks i k Hk), (labels_kids_middle ks i k Hk).
    rewrite !labels_kids_app, !labels_kids_cons.
    intros x. rewrite !elem_of_app. specialize (Hf k eq_refl x). tauto.
  - by rewrite alter_invalid.
Qed.


(** An edit that adds no labels to the node it is applied to adds none to
    the tree. *)
Lemma labels_update q f n (extra : list (string * attrs)) :
  (forall m, get q n = Some m -> labels (f m) ⊆ labels m ++ extra) ->
  labels (update q f n) ⊆ labels n ++ extra.
Proof.
  revert n. induction q as [|i q IH]; intros n Hf; [by apply Hf|].
  destruct n as [x|x|t a ks]; [by intros ?; rewrite elem_of_app; left..|].
  cbn [update]. rewrite !labels_elem.
  destruct (ks !! i) as [k|] eqn:Hk.
  - rewrite (alter_middle _ ks i k Hk), (labels_kids_middle ks i k Hk).
    rewrite !labels_kids_app, !labels_kids_cons.
    assert (labels (update q f k) ⊆ labels k ++ extra) as Hk'.
    { apply IH. intros m Hm. apply Hf. cbn [get]. by rewrite Hk. }
    intros x. specialize (Hk' x). rewrite elem_of_app in Hk'.
    repeat (rewrite elem_of_cons || rewrite elem_of_app). tauto.
  - rewrite alter_invalid by done.
    intros x Hx. rewrite elem_of_app. by left.
Qed.

Lemma labels_remove q n : labels (remove q n) ⊆ labels n.
Proof.
  destruct (decide (q = [])) as [->|Hq]; [done|].
  destruct (path_snoc q Hq) as (par & i & -> & _).
  rewrite remove_as_update.
  intros x Hx. apply (labels_update par (del_kid i) n []) in Hx.
  - by rewrite app_nil_r in Hx.
  - intros m _. rewrite app_nil_r. destruct m as [y|y|t a ks]; [done..|].
    cbn [del_kid]. rewrite !labels_elem. intros y Hy.
    apply elem_of_cons in Hy as [->|Hy]; [left|right]. by apply labels_kids_delete in Hy.
Qed.

(** ** Result lists of the whole document *)

Section walk_root_facts.
Context {St : Type} (step : St -> string -> attrs -> bool * St).

Lemma matched_valid m s n :
  matched step m s n = true -> exists t a ks, get m n = Some (Elem t a ks).
Proof.
  revert s n. induction m as [|i m IH]; intros s n H.
  - destruct n as [x|x|t a ks]; [done..|]. cbn. eauto.
  - destruct n as [x|x|t a ks]; [done..|]. cbn [matched get] in *.
    destruct (ks !! i) as [k|]; [by eapply IH | done].
Qed.

Lemma walk_root_valid s soup m :
  m ∈ walk_root step s soup -> m <> [] /\ exists t a ks, get m soup = Some (Elem t a ks).
Proof.
  unfold walk_root. intros (i & m' & k & -> & Hk & Hm)%elem_of_walk_kids.
  split; [done|]. destruct soup as [x|x|t a ks]; [done..|].
  cbn [kids_of get] in *. rewrite Hk. by eapply matched_valid.
Qed.

Lemma walk_root_remove s q soup :
  q <> [] -> is_Some (get q soup) ->
  walk_root step s (remove q soup)
  = map (shift q) (filter (fun m => at_or_inside q m = false) (walk_root step s soup)).
Proof.
  intros Hq Hv. destruct q as [|i q]; [done|].
  destruct soup as [x|x|t a ks]; [by destruct Hv..|].
  cbn [get] in Hv. destruct (ks !! i) as [k|] eqn:Hk; [|by destruct Hv].
  unfold walk_root. destruct q as [|i' q].
  - cbn [remove kids_of]. apply lookup_lt_Some in Hk.
    by rewrite (walk_kids_delete _ _ 0 ks i Hk).
  - change (remove (i :: i' :: q) (Elem t a ks))
      with (Elem t a (alter (remove (i' :: q)) i ks)).
    cbn [kids_of].
    apply (walk_kids_remove_deeper _ _ ks i k (i' :: q) (remove (i' :: q))); [done|done|].
    by apply walk_remove.
Qed.

Lemma walk_root_set_kids (R : St -> Prop) s q soup new :
  closed step R -> unseen step R new -> R s -> q <> [] ->
  (exists t a ks, get q soup = Some (Elem t a ks)) ->
  walk_root step s (update q (set_kids new) soup)
  = filter (fun m => inside q m = false) (walk_root step s soup).
Proof.
  intros HR Hnew Hs Hq (t' & a' & ks' & Hv). destruct q as [|i q]; [done|].
  destruct soup as [x|x|t a ks]; [done..|].
  cbn [get] in Hv. destruct (ks !! i) as [k|] eqn:Hk; [|done].
  unfold walk_root. cbn [update kids_of].
  apply (walk_kids_set_kids_deeper _ _ ks i k q); [done|].
  apply (walk_set_kids _ R); eauto.
Qed.

Lemma walk_root_relabel (R : St -> Prop) s q soup (g : attrs -> attrs) :
  closed step R -> R s ->
  (forall s t a, R s -> step s t (g a) = step s t a) -> q <> [] ->
  walk_root step s
    (update q (fun el => match el with Elem t a ks => Elem t (g a) ks | _ => el end) soup)
  = walk_root step s soup.
Proof.
  intros Hcl Hs Hg Hq. destruct q as [|i q]; [done|].
  destruct soup as [x|x|t a ks]; [done..|].
  unfold walk_root. cbn [update kids_of].
  destruct (ks !! i) as [k|] eqn:Hk.
  - rewrite (walk_kids_alter _ _ _ _ _ _ _ Hk), (walk_kids_split _ _ _ _ _ _ Hk).
    by rewrite (walk_relabel _ R).
  - by rewrite alter_invalid.
Qed.

Lemma walk_root_sorted s soup :
  StronglySorted (fun p q => before p q = true) (walk_root step s soup).
Proof.
  unfold walk_root. generalize 0.
  induction (kids_of soup) as [|k ks IHks]; intros b; [constructor|].
  cbn [walk_kids]. apply StronglySorted_app_2.
  - intros p q Hp Hq. apply list_elem_of_fmap in Hp as (p' & -> & _).
    apply walk_kids_first in Hq as (j & m' & -> & Hj).
    cbn. by rewrite bool_decide_true by lia.
  - pose proof (walk_sorted step s k) as Hk.
    induction Hk as [|p l Hs IHs Hall]; [constructor|].
    cbn [map]. constructor; [done|].
    apply Forall_fmap. eapply Forall_impl; [exact Hall|].
    intros q Hq. cbn. rewrite (bool_decide_true (b = b)) by done.
    by rewrite Hq, orb_true_r.
  - apply IHks.
Qed.

(** Destroying the tail of a result list leaves, as the new result list,
    the elements that were kept. *)
Lemma walk_root_decompose s soup k :
  walk_root step s (decompose_all (drop k (walk_root step s soup)) soup)
  = take k (walk_root step s soup).
Proof.
  remember (length (walk_root step s soup)) as n eqn:Hn.
  revert soup k Hn. induction n as [|n IH]; intros soup k Hn.
  - symmetry in Hn. apply length_zero_iff_nil in Hn. rewrite Hn.
    rewrite drop_nil, take_nil. exact Hn.
  - destruct (decide (length (walk_root step s soup) <= k)) as [Hk|Hk].
    { by rewrite drop_ge, take_ge by done. }
    destruct (exists_last (l := walk_root step s soup)) as (l0 & q & Hl).
    { intros E. rewrite E in Hn. done. }
    assert (length l0 = n) as Hl0.
    { rewrite Hl, length_app in Hn. cbn in Hn. lia. }
    pose proof (walk_root_sorted s soup) as Hs. rewrite Hl in Hs.
    destruct (walk_root_valid s soup q) as [Hq Hv].
    { rewrite Hl. apply elem_of_app. right. apply list_elem_of_here. }
    assert (walk_root step s (remove q soup) = l0) as H1.
    { assert (is_Some (get q soup)) as Hv' by (destruct Hv as (? & ? & ? & ->); eauto).
      rewrite (walk_root_remove s q soup Hq Hv').
      rewrite Hl, filter_app. rewrite (filter_drop_all _ [q]), app_nil_r.
      - rewrite filter_keep_all, map_keep_all; [done| |].
        + intros m Hm. apply shift_before.
          apply (StronglySorted_app_1_elem_of _ l0 [q] m q Hs Hm), list_elem_of_here.
        + intros m Hm. apply before_not_at_or_inside.
          apply (StronglySorted_app_1_elem_of _ l0 [q] m q Hs Hm), list_elem_of_here.
      - intros m ->%list_elem_of_singleton. by rewrite at_or_inside_refl. }
    rewrite Hl in Hk |- *. rewrite length_app in Hk. cbn in Hk.
    rewrite drop_app_le, take_app_le by lia.
    unfold decompose_all. rewrite foldr_app. cbn [foldr].
    specialize (IH (remove q soup) k). rewrite H1 in IH. by apply IH.
Qed.

End walk_root_facts.

(** ** Tests on the label alone *)




(** ** The synthesizer, step by step *)

Lemma set_text_B_slot sel v soup :
  VariantB.set_text sel v soup = write_slot VariantB.set_rich_text soup sel 0 v.
Proof. unfold VariantB.set_text, write_slot, select_one. by rewrite head_lookup. Qed.

Lemma set_text_A_slot sel v soup :
  VariantA.set_text sel v soup = write_slot VariantA.set_string soup sel 0 v.
Proof. unfold VariantA.set_text, write_slot, select_one. by rewrite head_lookup. Qed.

Lemma set_sec_B_slot side idx v soup :
  VariantB.set_sec side idx v soup
  = write_slot VariantB.set_rich_text soup (sel_section_p side) idx v.
Proof. reflexivity. Qed.

Lemma set_sec_A_slot side idx v soup :
  VariantA.set_sec side idx v soup
  = write_slot VariantA.set_string soup (sel_section_p side) idx v.
Proof. reflexivity. Qed.

Ltac lookup_case f k :=
  destruct (f !! k); cbn [mbind option_bind]; [|reflexivity].

Ltac lookup_cases f :=
  lookup_case f "title"; lookup_case f "left_label"; lookup_case f "right_label";
  lookup_case f "left_people"; lookup_case f "left_process";
  lookup_case f "left_technology"; lookup_case f "left_data";
  lookup_case f "left_output";
  lookup_case f "right_people"; lookup_case f "right_process";
  lookup_case f "right_technology"; lookup_case f "right_data";
  lookup_case f "right_output".

Lemma apply_B_steps base fields label_lang :
  VariantB.apply_fields_to_html base fields label_lang =
  sp ← write_slots VariantB.set_rich_text slots_B fields
         (VariantB.trim_sections (set_lang label_lang base));
  Some (VariantB.relocate_user_panel
          (VariantB.remove_footers
             (translate_headings VariantB.set_rich_text label_lang sp))).
Proof.
  unfold VariantB.apply_fields_to_html, write_slots, slots_B, head_slots, left_slots, right_slots.
  cbn [app foldl fst snd].
  lookup_cases fields. lookup_case fields "user_notes".
  rewrite !set_text_B_slot, !set_sec_B_slot. reflexivity.
Qed.

Lemma apply_A_steps base fields label_lang :
  VariantA.apply_fields_to_html base fields label_lang =
  sp ← write_slots VariantA.set_string
         (head_slots ++ left_slots ++ right_slots) fields
         (set_lang label_lang base);
  write_slots VariantA.set_string footer_slots
    fields (translate_headings VariantA.set_string label_lang sp).
Proof.
  unfold VariantA.apply_fields_to_html, write_slots, head_slots, left_slots, right_slots, footer_slots.
  cbn [app foldl fst snd].
  lookup_cases fields. lookup_case fields "page_number".
  lookup_case fields "footer_summary".
  rewrite !set_text_A_slot, !set_sec_A_slot. reflexivity.
Qed.

(** ** Footer removal and the place of the notes panel *)











Lemma relocate_as_update par i soup el :
  get (par ++ [i]) soup = Some el ->
  VariantB.relocate (par ++ [i]) soup
  = update par (fun x => append_kid el (del_kid i x)) soup.
Proof.
  intros H. unfold VariantB.relocate. rewrite H.
  unfold parent_path. rewrite removelast_last, remove_as_update.
  apply update_update.
Qed.













(** ** Appending a child *)




(** Appending below [q] changes nothing at a node that is not [q] or above. *)
Lemma get_append_other q k p n :
  at_or_inside p q = false -> is_Some (get p n) ->
  get p (update q (append_kid k) n) = get p n.
Proof.
  revert p n. induction q as [|i q IH]; intros p n Hpq Hv.
  - destruct p as [|j p]; [done|]. destruct n as [x|x|t a ks]; [done..|].
    cbn [update append_kid get] in *.
    destruct (ks !! j) as [kj|] eqn:Hj; [|by destruct Hv].
    rewrite lookup_app_l by (by eapply lookup_lt_Some). by rewrite Hj.
  - destruct p as [|j p]; [done|]. destruct n as [x|x|t a ks]; [done..|].
    cbn [update get] in *. rewrite at_or_inside_cons in Hpq.
    destruct (decide (j = i)) as [->|Hne].
    + rewrite bool_decide_true in Hpq by done. cbn in Hpq.
      rewrite list_lookup_alter_eq. destruct (ks !! i) as [ki|]; [|done].
      cbn. by apply IH.
    + by rewrite list_lookup_alter_ne.
Qed.


Section append_walk.
Context {St : Type} (step : St -> string -> attrs -> bool * St).


End append_walk.

(** ** The matcher state along a path *)

Section state_facts.
Context {St : Type} (step : St -> string -> attrs -> bool * St).





End state_facts.

(** ** Descendant chains *)

Lemma chain_last_closed c :
  closed chain_step (fun s => last s = Some c).
Proof.
  intros s t a Hs. destruct s as [|c1 [|c2 rest]]; [done|done|].
  cbn [chain_step snd]. by destruct (matches c1 t a).
Qed.




(** ** The first elements of a result list *)

Lemma take_filter_Forall {A} (P : A -> Prop) `{!forall x, Decision (P x)} n (l : list A) :
  Forall P (take n l) -> take n (filter P l) = take n l.
Proof.
  revert n. induction l as [|x l IH]; intros [|n] Hall; try done.
  cbn [take] in *. apply Forall_cons in Hall as [Hx Hall].
  rewrite filter_cons_True by done. cbn [take]. f_equal. by apply IH.
Qed.




(** ** Appending a section to a panel *)

Section append_section.
Variables (soup : node) (q : path) (sec : node) (t : string) (a : attrs) (ks : list node).
Hypothesis Hq : q <> [].
Hypothesis Hget : get q soup = Some (Elem t a ks).

Let soup' := append_at q sec soup.









End append_section.









(** * The synthesizer as a run of edits *)

(** ** Attributes *)

Lemma get_attr_set_attr_ne k k' v a :
  k <> k' -> get_attr k (set_attr k' v a) = get_attr k a.
Proof.
  intros Hne. induction a as [|[k0 v0] a IH]; cbn.
  - by rewrite decide_False.
  - destruct (decide (k0 = k')) as [->|Hk0]; cbn.
    + by rewrite !(decide_False (P := k' = k)) by done.
    + destruct (decide (k0 = k)); [done | exact IH].
Qed.

Lemma get_attr_set_attr k v a : get_attr k (set_attr k v a) = Some v.
Proof.
  induction a as [|[k0 v0] a IH]; cbn.
  - by rewrite decide_True.
  - destruct (decide (k0 = k)) as [->|Hk0]; cbn.
    + by rewrite decide_True.
    + by rewrite decide_False.
Qed.

Lemma matches_set_lang c t a l :
  lang_free c -> matches c t (set_attr "lang" (AStr l) a) = matches c t a.
Proof.
  intros Hc. unfold matches, get_classes.
  rewrite !(get_attr_set_attr_ne _ "lang") by done.
  unfold lang_free in Hc.
  destruct (c_attr c) as [[k v]|]; [|done].
  by rewrite (get_attr_set_attr_ne k "lang") by done.
Qed.

(** ** Blind queries *)

Lemma blind_selector sel c :
  last sel = Some c -> matches c "br" [] = false -> Forall lang_free sel ->
  blind (by_selector sel).
Proof.
  intros Hlast Hbr Hfree.
  exists (fun s => last s = Some c /\ Forall lang_free s).
  split; [|split; [|split]].
  - intros s t a [Hs Hf]. split; [by apply chain_last_closed|].
    destruct s as [|c1 [|c2 rest]]; [done|done|]. cbn.
    destruct (matches c1 t a); [|done]. by apply Forall_cons in Hf as [_ ?].
  - done.
  - intros s [Hs _]. destruct s as [|c1 [|c2 rest]]; [done| |done].
    cbn in *. by injection Hs as ->.
  - intros s t a l [_ Hf]. cbn.
    destruct s as [|c1 [|c2 rest]]; [done| |];
      apply Forall_cons in Hf as [H1 _]; cbn; by rewrite matches_set_lang.
Qed.

Lemma blind_test P :
  P "br" [] = false ->
  (forall t a l, P t (set_attr "lang" (AStr l) a) = P t a) ->
  blind (by_test P).
Proof.
  intros Hbr Hl. exists (fun _ => True).
  split; [done|]. split; [done|]. split.
  - intros s _. exact Hbr.
  - intros s t a l _. cbn. unfold pred_step. by rewrite Hl.
Qed.

Lemma flat_unseen {St} (step : St -> string -> attrs -> bool * St) (R : St -> Prop) new :
  (forall s, R s -> (step s "br" []).1 = false) ->
  Forall is_text_or_br new -> unseen step R new.
Proof.
  intros Hbr Hnew s Hs. generalize 0.
  induction Hnew as [|k new Hk _ IH]; intros b; [done|].
  cbn [walk_kids]. rewrite IH, app_nil_r.
  destruct Hk as [->|[x ->]]; [|done].
  unfold VariantB.br. rewrite walk_elem. by rewrite Hbr.
Qed.

Lemma ask_valid Q soup m :
  m ∈ ask Q soup -> m <> [] /\ exists t a ks, get m soup = Some (Elem t a ks).
Proof. apply walk_root_valid. Qed.

Lemma ask_sorted Q soup : StronglySorted (fun p q => before p q = true) (ask Q soup).
Proof. apply walk_root_sorted. Qed.

Lemma ask_write Q q new soup :
  blind Q -> Forall is_text_or_br new -> q <> [] ->
  (exists t a ks, get q soup = Some (Elem t a ks)) ->
  ask Q (update q (set_kids new) soup)
  = filter (fun m => inside q m = false) (ask Q soup).
Proof.
  intros (R & Hcl & Hi & Hbr & _) Hnew Hq Hv.
  apply (walk_root_set_kids _ R); [done| |done..].
  by apply flat_unseen.
Qed.

Lemma ask_remove Q q soup :
  q <> [] -> is_Some (get q soup) ->
  ask Q (remove q soup)
  = map (shift q) (filter (fun m => at_or_inside q m = false) (ask Q soup)).
Proof. apply walk_root_remove. Qed.

Lemma ask_set_lang Q l soup : blind Q -> ask Q (set_lang l soup) = ask Q soup.
Proof.
  intros (R & Hcl & Hi & _ & Hl). unfold set_lang.
  destruct l as [l|]; [|done]. destruct (lang_supported _); [|done].
  destruct (select_one sel_html soup) as [p|] eqn:Hp; [|done].
  unfold put_lang. apply (walk_root_relabel _ R); [done..| |].
  - intros s t a Hs. by apply Hl.
  - unfold select_one in Hp. apply head_Some_elem_of in Hp.
    by apply (walk_root_valid chain_step) in Hp as [? _].
Qed.

(** ** Paths under a removal *)

Lemma at_or_inside_nil_r x : at_or_inside x [] = true -> x = [].
Proof. by destruct x. Qed.

Lemma at_or_inside_antisym x y :
  at_or_inside x y = true -> at_or_inside y x = true -> x = y.
Proof.
  revert y. induction x as [|i x IH]; intros [|j y]; cbn; try done.
  intros [Hij Hxy]%andb_prop [_ Hyx]%andb_prop.
  apply bool_decide_eq_true in Hij as ->. f_equal. by apply IH.
Qed.

Lemma get_remove_apart q x n :
  q <> [] -> at_or_inside q x = false -> at_or_inside x q = false ->
  get (shift q x) (remove q n) = get x n.
Proof.
  revert x n. induction q as [|i q IH]; intros x n Hq Hqx Hxq; [done|].
  destruct x as [|j x]; [done|].
  destruct n as [s|s|t a ks];
    [destruct q; [rewrite shift_single | rewrite shift_deeper; case_decide]; done..|].
  destruct q as [|i' q].
  - rewrite shift_single. cbn [remove get].
    assert (i <> j) as Hij.
    { intros ->. cbn in Hqx. by rewrite bool_decide_true in Hqx. }
    case_decide.
    + destruct j as [|j]; [lia|]. cbn [pred].
      rewrite list_lookup_delete_ge by lia. done.
    + rewrite list_lookup_delete_lt by lia. done.
  - rewrite shift_deeper. cbn [remove].
    destruct (decide (i = j)) as [->|Hij].
    + cbn [get]. rewrite list_lookup_alter_eq.
      destruct (ks !! j) as [k|]; [|done]. cbn.
      apply IH; [done| |].
      * rewrite at_or_inside_cons, bool_decide_true in Hqx by done. done.
      * rewrite at_or_inside_cons, bool_decide_true in Hxq by done. done.
    + cbn [get]. by rewrite list_lookup_alter_ne.
Qed.

Lemma shift_at_or_inside q x y :
  at_or_inside q x = false -> at_or_inside q y = false ->
  at_or_inside (shift q x) (shift q y) = at_or_inside x y.
Proof.
  revert x y. induction q as [|i q IH]; intros x y Hx Hy; [done|].
  destruct x as [|j x]; [done|].
  destruct y as [|j' y].
  { destruct q; [rewrite shift_single|rewrite shift_deeper; case_decide]; done. }
  rewrite !at_or_inside_cons in Hx, Hy.
  destruct q as [|i' q].
  - rewrite !shift_single, !at_or_inside_cons.
    assert (i <> j) by (intros ->; by rewrite bool_decide_true in Hx).
    assert (i <> j') by (intros ->; by rewrite bool_decide_true in Hy).
    f_equal. apply bool_decide_ext. repeat case_decide; lia.
  - rewrite !shift_deeper.
    destruct (decide (i = j)) as [->|Hj]; destruct (decide (_ = j')) as [->|Hj'];
      rewrite !at_or_inside_cons.
    + rewrite bool_decide_true in Hx, Hy by done. f_equal. by apply IH.
    + by rewrite !bool_decide_false.
    + by rewrite !(bool_decide_false (j = j')) by done.
    + done.
Qed.

Lemma shift_inj q x y :
  at_or_inside q x = false -> at_or_inside q y = false ->
  shift q x = shift q y -> x = y.
Proof.
  intros Hx Hy E. apply at_or_inside_antisym.
  - rewrite <- (shift_at_or_inside q) by done. rewrite E. apply at_or_inside_refl.
  - rewrite <- (shift_at_or_inside q) by done. rewrite E. apply at_or_inside_refl.
Qed.

Lemma shift_inside q x y :
  at_or_inside q x = false -> at_or_inside q y = false ->
  inside (shift q x) (shift q y) = inside x y.
Proof.
  intros Hx Hy. unfold inside. rewrite shift_at_or_inside by done. f_equal. f_equal.
  apply bool_decide_ext. split; [by apply shift_inj | by intros ->].
Qed.

Lemma shift_apart q x y :
  at_or_inside q x = false -> at_or_inside q y = false ->
  apart x y -> apart (shift q x) (shift q y).
Proof. intros Hx Hy [H1 H2]. split; by rewrite shift_at_or_inside. Qed.

Lemma apart_sym x y : apart x y -> apart y x.
Proof. intros [? ?]. by split. Qed.

Lemma apart_not_inside x y : apart x y -> inside x y = false.
Proof. intros [H _]. unfold inside. by rewrite H. Qed.

(** ** Result lists under a filter *)

Lemma elem_of_drop_le {A} k k' (l : list A) x : k <= k' -> x ∈ drop k' l -> x ∈ drop k l.
Proof.
  intros Hk (i & Hi)%list_elem_of_lookup. apply list_elem_of_lookup.
  exists (k' - k + i). rewrite lookup_drop in Hi |- *. rewrite <- Hi. f_equal. lia.
Qed.

Lemma elem_of_drop {A} k (l : list A) x : x ∈ drop k l -> x ∈ l.
Proof. intros H. apply (elem_of_drop_le 0 k) in H; [done|lia]. Qed.

Lemma elem_of_drop_filter {A} (P : A -> Prop) `{!forall x, Decision (P x)} k (l : list A) x :
  x ∈ drop k (filter P l) -> x ∈ drop k l /\ P x.
Proof.
  revert k. induction l as [|y l IH]; intros k Hx.
  - by rewrite filter_nil, drop_nil in Hx; apply elem_of_nil in Hx.
  - rewrite filter_cons in Hx. destruct (decide (P y)) as [Hy|Hy].
    + destruct k as [|k].
      * cbn in Hx. apply elem_of_cons in Hx as [->|Hx]; [split; [left|done]|].
        destruct (IH 0 Hx) as [? ?]. split; [by right|done].
      * cbn in Hx |- *. by apply IH.
    + destruct (IH k Hx) as [Hd HP]. split; [|done].
      destruct k as [|k]; [by right|]. cbn.
      apply (elem_of_drop_le k (S k)); [lia|done].
Qed.

Lemma elem_of_take_filter {A} (P : A -> Prop) `{!forall x, Decision (P x)} n (l : list A) :
  Forall P (take n l) -> take n (filter P l) = take n l.
Proof. apply take_filter_Forall. Qed.

Lemma take_map_filter {A} (f : A -> A) (P : A -> Prop) `{!forall x, Decision (P x)}
    n (l : list A) :
  Forall P (take n l) -> take n (map f (filter P l)) = map f (take n l).
Proof. intros Hall. by rewrite <- fmap_take, take_filter_Forall. Qed.

Lemma elem_of_drop_map_filter {A} (f : A -> A) (P : A -> Prop)
    `{!forall x, Decision (P x)} k (l : list A) x :
  x ∈ drop k (map f (filter P l)) -> exists y, x = f y /\ y ∈ drop k l /\ P y.
Proof.
  rewrite <- fmap_drop. intros (y & -> & Hy)%list_elem_of_fmap.
  apply elem_of_drop_filter in Hy as [? ?]. eauto.
Qed.

(** ** One edit *)


Lemma ask_edit Q e soup :
  blind Q -> sound e soup ->
  ask Q (apply_edit e soup) = map (rename_edit e) (filter (survives e) (ask Q soup)).
Proof.
  intros HQ (Hq & Hv & Hnew). destruct e as [q new|q]; cbn in *.
  - rewrite ask_write by done. rewrite map_id. done.
  - rewrite ask_remove; [done|done|]. destruct Hv as (? & ? & ? & ->). eauto.
Qed.

Lemma upto_elem_of cap l (x : path) : x ∈ upto cap l -> x ∈ l.
Proof.
  destruct cap as [n|]; [|done]. cbn. intros H.
  apply list_elem_of_lookup in H as (i & Hi). apply lookup_take_Some in Hi as [Hi _].
  by eapply list_elem_of_lookup_2.
Qed.

Lemma within_elem_of r l (x : path) : x ∈ within r l -> x ∈ l.
Proof. intros H. by apply elem_of_drop, upto_elem_of in H. Qed.

Lemma within_lookup (r : range) l i (x : path) :
  r.1 <= i -> match r.2 with Some n => i < n | None => True end ->
  l !! i = Some x -> x ∈ within r l.
Proof.
  intros Hlo Hcap Hx. unfold within. apply list_elem_of_lookup.
  exists (i - r.1). rewrite lookup_drop. replace (r.1 + (i - r.1)) with i by lia.
  destruct (r.2) as [n|]; cbn [upto]; [by apply lookup_take_Some | done].
Qed.

Lemma licensed_sound L e soup : licensed L e soup -> sound e soup.
Proof.
  destruct e as [q new|q]; cbn.
  - intros (Hnew & Q & r & _ & Hq). apply within_elem_of, ask_valid in Hq as [? ?].
    by split_and!.
  - intros (Q & lo & _ & Hq). apply elem_of_drop, ask_valid in Hq as [? ?].
    by split_and!.
Qed.

Lemma rename_apart e x y :
  survives e x -> survives e y -> apart x y -> apart (rename_edit e x) (rename_edit e y).
Proof. destruct e as [q new|q]; cbn; [done|]. apply shift_apart. Qed.

Lemma rename_at_or_inside e x y :
  survives e x -> survives e y ->
  at_or_inside (rename_edit e x) (rename_edit e y) = at_or_inside x y.
Proof. destruct e as [q new|q]; cbn; [done|]. apply shift_at_or_inside. Qed.

Lemma rename_inside e x y :
  survives e x -> survives e y ->
  inside (rename_edit e x) (rename_edit e y) = inside x y.
Proof. destruct e as [q new|q]; cbn; [done|]. apply shift_inside. Qed.

Lemma survives_apart e x : apart x (target e) -> survives e x.
Proof.
  intros [H1 H2]. destruct e as [q new|q]; cbn in *; [|done].
  unfold inside. by rewrite H2.
Qed.

Lemma get_edit_apart e x soup :
  target e <> [] -> apart x (target e) ->
  get (rename_edit e x) (apply_edit e soup) = get x soup.
Proof.
  intros Hq [H1 H2]. destruct e as [q new|q]; cbn in *.
  - by apply get_update_apart.
  - by apply get_remove_apart.
Qed.

(** The bounded result lists after a steady edit. *)
Lemma within_edit Q (r : range) e soup :
  blind Q -> sound e soup ->
  match r.2 with Some n => Forall (survives e) (take n (ask Q soup)) | None => True end ->
  forall m', m' ∈ within r (ask Q (apply_edit e soup)) ->
  exists m, m' = rename_edit e m /\ m ∈ within r (ask Q soup) /\ survives e m.
Proof.
  intros HQ He Hcap m'. rewrite ask_edit by done. unfold within.
  destruct (r.2) as [n|]; cbn [upto].
  - rewrite take_map_filter by done. rewrite <- fmap_drop.
    intros (m & -> & Hm)%list_elem_of_fmap. exists m. split_and!; [done..|].
    apply elem_of_drop in Hm. by eapply Forall_forall in Hcap.
  - intros (m & -> & Hm & Hs)%elem_of_drop_map_filter. eauto.
Qed.

Lemma upto_steady Q n e soup :
  blind Q -> sound e soup -> Forall (survives e) (take n (ask Q soup)) ->
  take n (ask Q (apply_edit e soup)) = map (rename_edit e) (take n (ask Q soup)).
Proof. intros HQ He Hcap. rewrite ask_edit by done. by apply take_map_filter. Qed.

Lemma drop_edit Q lo e soup :
  blind Q -> sound e soup ->
  forall m', m' ∈ drop lo (ask Q (apply_edit e soup)) ->
  exists m, m' = rename_edit e m /\ m ∈ drop lo (ask Q soup) /\ survives e m.
Proof.
  intros HQ He m'. rewrite ask_edit by done. apply elem_of_drop_map_filter.
Qed.

(** ** The frame of a run of edits *)

Lemma licensed_target L C e soup p :
  safe L C soup p -> licensed L e soup -> apart p (target e).
Proof.
  intros (Hb & Ht & _) Hl. destruct e as [q new|q]; cbn in *.
  - destruct Hl as (_ & Q & r & HQ & Hq).
    unfold blocks in Hb. rewrite Forall_fmap in Hb.
    rewrite Forall_forall in Hb. specialize (Hb _ HQ). cbn in Hb.
    by eapply Forall_forall in Hb.
  - destruct Hl as (Q & lo & HQ & Hq).
    unfold tails in Ht. rewrite Forall_fmap in Ht.
    rewrite Forall_forall in Ht. specialize (Ht _ HQ). cbn in Ht.
    by eapply Forall_forall in Ht.
Qed.

Lemma safe_edit L C e soup p :
  blind_layout L -> Forall blind C ->
  safe L C soup p -> licensed L e soup -> steady L e soup ->
  safe L C (apply_edit e soup) (rename_edit e p)
  /\ get (rename_edit e p) (apply_edit e soup) = get p soup.
Proof.
  intros [HbW HbD] HbC Hsafe Hl Hst.
  pose proof (licensed_target _ _ _ _ _ Hsafe Hl) as Hap.
  pose proof (licensed_sound _ _ _ Hl) as Hso.
  pose proof (survives_apart _ _ Hap) as Hp.
  destruct Hsafe as (Hb & Ht & Hc).
  split; [|apply get_edit_apart; [apply Hso | done]].
  split_and!.
  - unfold blocks in *. rewrite Forall_fmap in Hb |- *.
    unfold steady in Hst.
    rewrite Forall_forall in Hb, HbW, Hst |- *. intros [Q r] HQ. cbn.
    apply Forall_forall. intros m' Hm'.
    apply within_edit in Hm' as (m & -> & Hm & Hsv);
      [|by apply (HbW _ HQ)|done|by apply (Hst _ HQ)].
    apply rename_apart; [done..|].
    specialize (Hb _ HQ). cbn in Hb. by eapply Forall_forall in Hb.
  - unfold tails in *. rewrite Forall_fmap in Ht |- *.
    rewrite Forall_forall in Ht, HbD |- *. intros [Q lo] HQ. cbn.
    apply Forall_forall. intros m' Hm'.
    apply drop_edit in Hm' as (m & -> & Hm & Hsv); [|by apply (HbD _ HQ)|done].
    apply rename_apart; [done..|].
    specialize (Ht _ HQ). cbn in Ht. by eapply Forall_forall in Ht.
  - rewrite Forall_forall in Hc, HbC |- *. intros Q HQ.
    apply Forall_forall. intros m' Hm'.
    rewrite ask_edit in Hm' by (by auto).
    apply list_elem_of_fmap in Hm' as (m & -> & Hm).
    apply list_elem_of_filter in Hm as [Hsv Hm].
    rewrite rename_at_or_inside by done.
    specialize (Hc _ HQ). by eapply Forall_forall in Hc.
Qed.

Lemma safe_edits L C es soup p :
  blind_layout L -> Forall blind C ->
  safe L C soup p -> licensed_all L es soup -> steady_all L es soup ->
  safe L C (apply_edits es soup) (rename_edits es p)
  /\ get (rename_edits es p) (apply_edits es soup) = get p soup.
Proof.
  intros HL HC. revert soup p. induction es as [|e es IH]; intros soup p Hs Hl Hst; [done|].
  destruct Hl as [Hl Hls], Hst as [Hst Hsts]. cbn.
  destruct (safe_edit L C e soup p) as [Hs' Hg]; [done..|].
  destruct (IH _ _ Hs' Hls Hsts) as [Hs'' Hg'].
  split; [done|]. by rewrite <- Hg.
Qed.

(** ** Runs *)

Lemma apply_edits_app es1 es2 soup :
  apply_edits (es1 ++ es2) soup = apply_edits es2 (apply_edits es1 soup).
Proof. apply foldl_app. Qed.

Lemma rename_edits_app es1 es2 p :
  rename_edits (es1 ++ es2) p = rename_edits es2 (rename_edits es1 p).
Proof. apply foldl_app. Qed.

Lemma licensed_all_app L es1 es2 soup :
  licensed_all L es1 soup -> licensed_all L es2 (apply_edits es1 soup) ->
  licensed_all L (es1 ++ es2) soup.
Proof.
  revert soup. induction es1 as [|e es1 IH]; intros soup H1 H2; [done|].
  destruct H1 as [He H1]. split; [done|]. by apply IH.
Qed.



Lemma phase_refl L soup : phase L soup soup.
Proof. by exists []. Qed.

Lemma phase_trans L s1 s2 s3 : phase L s1 s2 -> phase L s2 s3 -> phase L s1 s3.
Proof.
  intros (es1 & -> & H1) (es2 & -> & H2). exists (es1 ++ es2).
  split; [by rewrite apply_edits_app | by apply licensed_all_app].
Qed.

Lemma phase_one L e soup : licensed L e soup -> phase L soup (apply_edit e soup).
Proof. intros He. by exists [e]. Qed.

(** *** Destroying the end of a result list *)

Lemma ask_remove_last Q soup l0 q :
  ask Q soup = l0 ++ [q] -> ask Q (remove q soup) = l0.
Proof.
  intros Hl. pose proof (ask_sorted Q soup) as Hs. rewrite Hl in Hs.
  destruct (ask_valid Q soup q) as [Hq Hv].
  { rewrite Hl. apply elem_of_app. right. apply list_elem_of_here. }
  assert (is_Some (get q soup)) as Hv' by (destruct Hv as (? & ? & ? & ->); eauto).
  rewrite (ask_remove Q q soup Hq Hv').
  rewrite Hl, filter_app. rewrite (filter_drop_all _ [q]), app_nil_r.
  - rewrite filter_keep_all, map_keep_all; [done| |].
    + intros m Hm. apply shift_before.
      apply (StronglySorted_app_1_elem_of _ l0 [q] m q Hs Hm), list_elem_of_here.
    + intros m Hm. apply before_not_at_or_inside.
      apply (StronglySorted_app_1_elem_of _ l0 [q] m q Hs Hm), list_elem_of_here.
  - intros m ->%list_elem_of_singleton. by rewrite at_or_inside_refl.
Qed.

Lemma decompose_phase L Q k soup :
  (forall sp m, m ∈ drop k (ask Q sp) -> licensed L (Remove m) sp) ->
  phase L soup (decompose_all (drop k (ask Q soup)) soup).
Proof.
  intros Hlic.
  remember (length (ask Q soup)) as n eqn:Hn.
  revert soup Hn. induction n as [|n IH]; intros soup Hn.
  - symmetry in Hn. apply length_zero_iff_nil in Hn. rewrite Hn, drop_nil.
    apply phase_refl.
  - destruct (decide (length (ask Q soup) <= k)) as [Hk|Hk].
    { rewrite drop_ge by done. apply phase_refl. }
    destruct (exists_last (l := ask Q soup)) as (l0 & q & Hl).
    { intros E. rewrite E in Hn. done. }
    assert (length l0 = n) as Hl0.
    { rewrite Hl, length_app in Hn. cbn in Hn. lia. }
    pose proof (ask_remove_last Q soup l0 q Hl) as H1.
    assert (q ∈ drop k (ask Q soup)) as Hq.
    { rewrite Hl. rewrite Hl, length_app in Hk. cbn in Hk.
      rewrite drop_app_le by lia. apply elem_of_app. right. apply list_elem_of_here. }
    eapply phase_trans; [apply (phase_one L (Remove q)); by apply Hlic|].
    cbn [apply_edit]. rewrite Hl in Hk |- *. rewrite length_app in Hk. cbn in Hk.
    rewrite drop_app_le by lia.
    unfold decompose_all. rewrite foldr_app. cbn [foldr].
    specialize (IH (remove q soup)). rewrite H1 in IH. apply IH. done.
Qed.

Lemma trim_phase L sel keep soup :
  (by_selector sel, keep) ∈ destroyed L ->
  phase L soup (VariantB.trim sel keep soup).
Proof.
  intros HL. unfold VariantB.trim. case_decide; [|apply phase_refl].
  apply (decompose_phase L (by_selector sel) keep soup).
  intros sp m Hm. exists (by_selector sel), keep. done.
Qed.

(** *** Writing a slot *)

Lemma update_ext q f g n : (forall x, f x = g x) -> update q f n = update q g n.
Proof.
  intros Hfg. revert n. induction q as [|i q IH]; intros n; [apply Hfg|].
  destruct n as [s|s|t a ks]; [done..|]. cbn [update]. f_equal.
  apply list_eq. intros j. rewrite !list_lookup_alter.
  case_decide; [|done]. destruct (ks !! i); [|done]. cbn. f_equal. apply IH.
Qed.

Lemma write_slot_phase L write sel idx v soup (r : range) :
  writer write ->
  (by_selector sel, r) ∈ written L ->
  r.1 <= idx -> match r.2 with Some n => idx < n | None => True end ->
  phase L soup (write_slot write soup sel idx v).
Proof.
  intros Hw HL Hlo Hcap. unfold write_slot.
  destruct (select sel soup !! idx) as [p|] eqn:Hp; [|apply phase_refl].
  destruct (Hw v) as (new & Hnew & Hwrite).
  rewrite (update_ext p _ _ soup Hwrite).
  apply (phase_one L (Write p new)). split; [done|].
  exists (by_selector sel), r. split; [done|].
  by apply (within_lookup r _ idx).
Qed.

Lemma write_slots_cons write e slots fields soup :
  write_slots write (e :: slots) fields soup
  = v ← fields !! e.1; write_slots write slots fields (write_slot write soup e.2.1 e.2.2 v).
Proof.
  unfold write_slots. cbn [foldl mbind option_bind].
  destruct (fields !! e.1) as [v|]; cbn; [done|].
  induction slots as [|e' slots IH]; [done|]. cbn. exact IH.
Qed.

Lemma write_slots_phase L write slots fields soup soup' :
  writer write ->
  Forall (fun e : string * (selector * nat) =>
            exists r : range,
              (by_selector e.2.1, r) ∈ written L /\ r.1 <= e.2.2
              /\ match r.2 with Some n => e.2.2 < n | None => True end) slots ->
  write_slots write slots fields soup = Some soup' ->
  phase L soup soup'.
Proof.
  intros Hw Hs. revert soup.
  induction Hs as [|e slots (r & HL & Hlo & Hcap) _ IH]; intros soup.
  - intros [= ->]. apply phase_refl.
  - rewrite write_slots_cons. destruct (fields !! e.1) as [v|]; [|done]. cbn.
    intros H. eapply phase_trans; [by eapply write_slot_phase|]. by apply IH.
Qed.

(** *** The heading loop *)

Lemma write_headings_stale write HL HR texts soup :
  write_headings write HL HR texts soup
  = foldl (stale_write write) soup (heading_writes HL HR texts).
Proof.
  unfold write_headings, heading_writes.
  assert (forall b sp,
    foldl (fun sp it =>
             let '(idx, text) := it in
             let sp := match HL !! idx with
                       | Some p => update p (write text) sp
                       | None => sp
                       end in
             match HR !! idx with
             | Some p => update p (write text) sp
             | None => sp
             end) sp (imap (fun idx text => (b + idx, text)) texts)
    = foldl (stale_write write) sp
        (concat (imap (fun idx text =>
                   option_list ((fun p => (p, text)) <$> HL !! (b + idx))
                   ++ option_list ((fun p => (p, text)) <$> HR !! (b + idx))) texts)))
    as Hgen.
  { induction texts as [|text texts IH]; intros b sp; [done|].
    cbn [imap concat foldl]. rewrite foldl_app.
    rewrite (imap_ext _ (fun idx text => (S b + idx, text))).
    2:{ intros i x _. cbn. f_equal. lia. }
    rewrite (imap_ext (_ ∘ S)
               (fun idx text =>
                  option_list ((fun p => (p, text)) <$> HL !! (S b + idx))
                  ++ option_list ((fun p => (p, text)) <$> HR !! (S b + idx)))).
    2:{ intros i x _. cbn. by replace (b + S i) with (S (b + i)) by lia. }
    rewrite IH. f_equal. rewrite Nat.add_0_r.
    destruct (HL !! b), (HR !! b); done. }
  apply (Hgen 0).
Qed.

Lemma elem_of_concat {A} (x : A) (ls : list (list A)) :
  x ∈ concat ls -> exists l, x ∈ l /\ l ∈ ls.
Proof.
  induction ls as [|l ls IH]; cbn; [by intros ?%elem_of_nil|].
  intros [H|H]%elem_of_app.
  - exists l. split; [done|left].
  - destruct (IH H) as (l' & ? & ?). exists l'. split; [done|by right].
Qed.

Lemma elem_of_heading_writes HL HR texts p v :
  (p, v) ∈ heading_writes HL HR texts ->
  exists idx, texts !! idx = Some v /\ (HL !! idx = Some p \/ HR !! idx = Some p).
Proof.
  unfold heading_writes. intros (l & Hp & Hl)%elem_of_concat.
  apply elem_of_lookup_imap in Hl as (idx & text & -> & Ht).
  exists idx. apply elem_of_app in Hp as [Hp|Hp].
  - destruct (HL !! idx) as [p'|]; cbn in Hp; [|by apply elem_of_nil in Hp].
    apply list_elem_of_singleton in Hp as [= -> ->]. eauto.
  - destruct (HR !! idx) as [p'|]; cbn in Hp; [|by apply elem_of_nil in Hp].
    apply list_elem_of_singleton in Hp as [= -> ->]. eauto.
Qed.

Lemma stale_writes_phase L (I : node -> Prop) write ws soup :
  (forall p v, (p, v) ∈ ws -> plain write v) ->
  I soup ->
  (forall sp p v, I sp -> (p, v) ∈ ws ->
     update p (set_kids [Text v]) sp = sp
     \/ (licensed L (Write p [Text v]) sp /\ I (update p (set_kids [Text v]) sp))) ->
  phase L soup (foldl (stale_write write) soup ws)
  /\ I (foldl (stale_write write) soup ws).
Proof.
  intros Hplain HI Hstep. revert soup HI.
  induction ws as [|[p v] ws IH]; intros soup HI; [split; [apply phase_refl|done]|].
  cbn [foldl]. unfold stale_write at 2 4. cbn [fst snd].
  rewrite (update_ext p _ _ soup (Hplain p v ltac:(left))).
  assert (forall p v, (p, v) ∈ ws -> plain write v) as Hplain'.
  { intros ? ? ?. eapply Hplain. by right. }
  assert (forall sp p v, I sp -> (p, v) ∈ ws ->
     update p (set_kids [Text v]) sp = sp
     \/ (licensed L (Write p [Text v]) sp /\ I (update p (set_kids [Text v]) sp)))
    as Hstep'.
  { intros ? ? ? ? ?. apply Hstep; [done|by right]. }
  destruct (Hstep soup p v HI ltac:(left)) as [->|[Hl HI']].
  - by apply IH.
  - destruct (IH Hplain' Hstep' _ HI') as [Hph HI''].
    split; [|done].
    eapply phase_trans; [apply (phase_one L (Write p [Text v])); done|done].
Qed.




Lemma flat_text v : Forall is_text_or_br [Text v].
Proof. constructor; [right; eauto | constructor]. Qed.


(** *** The headings of a supported language *)

Lemma static_labels_cases l labels :
  STATIC_LABELS !! l = Some labels ->
  lang_supported (Some l) = true
  /\ (desired labels = ["Ljudje:"; "Proces:"; "Tehnologija:"; "Podatki:"; "Output:"]
      \/ desired labels = ["People:"; "Process:"; "Technology:"; "Data:"; "Output:"]).
Proof.
  unfold STATIC_LABELS. rewrite !list_to_map_cons. cbn [fst snd].
  intros [[<- <-]|[_ H]]%lookup_insert_Some.
  { split; [done|]. left. by vm_compute. }
  apply lookup_insert_Some in H as [[<- <-]|[_ H]].
  { split; [done|]. right. by vm_compute. }
  by rewrite list_to_map_nil, lookup_empty in H.
Qed.

Lemma plain_set_string v : plain VariantA.set_string v.
Proof. by intros el. Qed.

Lemma desired_plain l labels :
  STATIC_LABELS !! l = Some labels ->
  Forall (plain VariantB.set_rich_text) (desired labels).
Proof.
  intros [_ [->| ->]]%static_labels_cases; repeat constructor; by intros el.
Qed.

Lemma writer_set_string : writer VariantA.set_string.
Proof. intros v. exists [Text v]. split; [apply flat_text|done]. Qed.

Lemma writer_set_rich_text : writer VariantB.set_rich_text.
Proof.
  intros v. eexists. split; [apply rich_nodes_flat|]. intros el. reflexivity.
Qed.


(** *** Removing the footers *)

Lemma footers_phase L soup :
  Forall (fun Q => (Q, 0) ∈ destroyed L) footer_queries ->
  phase L soup (VariantB.remove_footers soup).
Proof.
  intros HL. unfold VariantB.remove_footers.
  assert (forall Q sp, (Q, 0) ∈ destroyed L ->
                       phase L sp (decompose_all (ask Q sp) sp)) as Hone.
  { intros Q sp HQ. apply (decompose_phase L Q 0 sp).
    intros sp' m Hm. by exists Q, 0. }
  unfold footer_queries in HL. apply Forall_app in HL as [Hbasic Hrest].
  apply Forall_cons in Hrest as [Hid Hrest]. apply Forall_cons in Hrest as [Hcl _].
  eapply phase_trans; [|eapply phase_trans;
    [apply (Hone (by_test VariantB.has_footer_id)); exact Hid
    |apply (Hone (by_test VariantB.has_footer_class)); exact Hcl]].
  rewrite Forall_fmap in Hbasic. clear -Hbasic Hone. revert soup.
  induction Hbasic as [|sel sels Hsel _ IH]; intros soup; [apply phase_refl|].
  cbn [foldl]. eapply phase_trans; [|apply IH].
  apply (Hone (by_selector sel)). exact Hsel.
Qed.

(** ** The first and the last step *)





(** ** The queries of the two variants are blind *)

Ltac blind_selector :=
  eapply blind_selector;
  [ reflexivity | by vm_compute | repeat constructor; by vm_compute ].

Lemma has_footer_id_set_lang t a l :
  VariantB.has_footer_id t (set_attr "lang" (AStr l) a) = VariantB.has_footer_id t a.
Proof. unfold VariantB.has_footer_id. by rewrite get_attr_set_attr_ne. Qed.

Lemma has_footer_class_set_lang t a l :
  VariantB.has_footer_class t (set_attr "lang" (AStr l) a) = VariantB.has_footer_class t a.
Proof. unfold VariantB.has_footer_class. by rewrite get_attr_set_attr_ne. Qed.

Lemma blind_footer_queries : Forall blind footer_queries.
Proof.
  unfold footer_queries, VariantB.basic_selectors. cbn [map app].
  repeat (apply List.Forall_cons; [try blind_selector|]).
  - apply blind_test; [done | apply has_footer_id_set_lang].
  - apply blind_test; [done | apply has_footer_class_set_lang].
  - constructor.
Qed.

Lemma blind_heading_selectors label_lang :
  Forall (fun sel => blind (by_selector sel)) (heading_selectors label_lang).
Proof.
  unfold heading_selectors. destruct (lang_supported _); repeat constructor; blind_selector.
Qed.

Lemma blind_uncapped sels :
  Forall (fun sel => blind (by_selector sel)) sels ->
  Forall (fun e : query * range => blind e.1) (uncapped sels).
Proof. intros H. unfold uncapped. by rewrite Forall_fmap. Qed.


Lemma blind_frame_B label_lang : blind_layout (frame_B label_lang).
Proof.
  split.
  - apply blind_uncapped, Forall_app. split.
    + repeat constructor; blind_selector.
    + apply blind_heading_selectors.
  - cbn [frame_B destroyed]. apply Forall_app. split.
    + repeat constructor; blind_selector.
    + rewrite Forall_fmap. apply blind_footer_queries.
Qed.



Ltac pick := repeat first [apply list_elem_of_here | apply list_elem_of_further].



(** ** Variant B as a run of edits between the first and the last step *)

Lemma trim_sections_phase L soup :
  trimmed_B ⊆ destroyed L -> phase L soup (VariantB.trim_sections soup).
Proof.
  intros Hsub. unfold VariantB.trim_sections.
  eapply phase_trans; [|eapply phase_trans]; apply trim_phase; apply Hsub; pick.
Qed.



(** * What the synthesizer leaves alone *)




(** * Documents of the template *)

(** ** Tidy documents under an edit *)


Lemma nest_free_renamed e l l' : renamed e l l' -> nest_free l -> nest_free l'.
Proof.
  intros Hr Hn. apply Forall_forall. intros x' Hx'. apply Forall_forall. intros y' Hy'.
  destruct (Hr x' Hx') as (x & -> & Hx & Hsx), (Hr y' Hy') as (y & -> & Hy & Hsy).
  rewrite rename_inside by done.
  unfold nest_free in Hn. rewrite Forall_forall in Hn. specialize (Hn x Hx).
  by eapply Forall_forall in Hn.
Qed.

Lemma apart_lists_renamed e l l' ls ls' :
  renamed e l l' -> Forall2 (renamed e) ls ls' ->
  Forall (fun x => Forall (Forall (apart x)) ls) l ->
  Forall (fun x => Forall (Forall (apart x)) ls') l'.
Proof.
  intros Hr Hrs Hl. apply Forall_forall. intros x' Hx'.
  destruct (Hr x' Hx') as (x & -> & Hx & Hsx).
  rewrite Forall_forall in Hl. specialize (Hl x Hx).
  induction Hrs as [|m m' ms ms' Hm _ IH]; [constructor|].
  apply Forall_cons in Hl as [Hl1 Hl2]. constructor; [|by apply IH].
  apply Forall_forall. intros y' Hy'. destruct (Hm y' Hy') as (y & -> & Hy & Hsy).
  apply rename_apart; [done..|]. by eapply Forall_forall in Hl1.
Qed.

Lemma separate_renamed e ls ls' :
  Forall2 (renamed e) ls ls' -> separate ls -> separate ls'.
Proof.
  induction 1 as [|l l' ls ls' Hl Hls IH]; [done|].
  intros [H1 H2]. split; [by eapply apart_lists_renamed | by apply IH].
Qed.

Lemma separate_lookup ls i j l l' x y :
  separate ls -> i <> j -> ls !! i = Some l -> ls !! j = Some l' ->
  x ∈ l -> y ∈ l' -> apart x y.
Proof.
  assert (forall ls i j l l' x y,
            separate ls -> i < j -> ls !! i = Some l -> ls !! j = Some l' ->
            x ∈ l -> y ∈ l' -> apart x y) as Hlt.
  { clear. induction ls as [|l0 ls IH]; intros i j l l' x y Hs Hij Hi Hj Hx Hy; [done|].
    destruct Hs as [H1 H2]. destruct j as [|j]; [lia|]. cbn in Hj.
    destruct i as [|i].
    - cbn in Hi. injection Hi as ->. rewrite Forall_forall in H1.
      specialize (H1 x Hx). rewrite Forall_forall in H1.
      specialize (H1 l' (list_elem_of_lookup_2 _ _ _ Hj)).
      by eapply Forall_forall in H1.
    - cbn in Hi. eapply (IH i j); eauto. lia. }
  intros Hs Hij Hi Hj Hx Hy.
  destruct (decide (i < j)); [by eapply (Hlt ls i j)|].
  apply apart_sym. eapply (Hlt ls j i); eauto. lia.
Qed.

Lemma blocks_renamed L e soup :
  blind_layout L -> sound e soup -> steady L e soup ->
  Forall2 (renamed e) (blocks L soup) (blocks L (apply_edit e soup)).
Proof.
  intros [HW _] He Hst. unfold blocks. apply Forall2_fmap, Forall_Forall2_diag.
  unfold steady in Hst. rewrite Forall_forall in HW, Hst |- *. intros [Q r] Hw. cbn.
  intros x' Hx'. apply within_edit in Hx'; [done|by apply (HW _ Hw)|done|by apply (Hst _ Hw)].
Qed.

Lemma tails_renamed L e soup :
  blind_layout L -> sound e soup ->
  Forall2 (renamed e) (tails L soup) (tails L (apply_edit e soup)).
Proof.
  intros [_ HD] He. unfold tails. apply Forall2_fmap, Forall_Forall2_diag.
  rewrite Forall_forall in HD |- *. intros [Q lo] Hw. cbn.
  intros x' Hx'. apply drop_edit in Hx'; [done|by apply (HD _ Hw)|done].
Qed.

(** In a tidy document the edits of the layout are steady. *)
Lemma tidy_steady L e soup :
  from_start L -> tidy L soup -> licensed L e soup -> steady L e soup.
Proof.
  intros Hfs (Hn & Hs & Ht) Hl. unfold steady.
  apply Forall_forall. intros [Q [lo [n|]]] Hw; [|done]. cbn.
  unfold from_start in Hfs. rewrite Forall_forall in Hfs.
  pose proof (Hfs _ Hw) as Hlo. cbn in Hlo. subst lo.
  apply list_elem_of_lookup in Hw as (j & Hj).
  assert (blocks L soup !! j = Some (take n (ask Q soup))) as Hbj.
  { unfold blocks. rewrite list_lookup_fmap, Hj. done. }
  apply Forall_forall. intros x Hx.
  destruct e as [q new|q]; cbn in Hl |- *.
  - destruct Hl as (_ & Q0 & r0 & Hw0 & Hq).
    apply list_elem_of_lookup in Hw0 as (j0 & Hj0).
    assert (blocks L soup !! j0 = Some (within r0 (ask Q0 soup))) as Hbj0.
    { unfold blocks. rewrite list_lookup_fmap, Hj0. done. }
    destruct (decide (j0 = j)) as [->|Hne].
    + rewrite Hbj in Hbj0. injection Hbj0 as Hb. rewrite <- Hb in Hq.
      rewrite Forall_forall in Hn.
      specialize (Hn _ (list_elem_of_lookup_2 _ _ _ Hbj)).
      unfold nest_free in Hn. rewrite Forall_forall in Hn. specialize (Hn q Hq).
      by eapply Forall_forall in Hn.
    + apply apart_not_inside. by eapply (separate_lookup _ j0 j).
  - destruct Hl as (Q0 & lo & Hw0 & Hq).
    rewrite Forall_forall in Ht.
    specialize (Ht _ (list_elem_of_lookup_2 _ _ _ Hbj)).
    rewrite Forall_forall in Ht. specialize (Ht x Hx).
    rewrite Forall_forall in Ht.
    assert (drop lo (ask Q0 soup) ∈ tails L soup) as Hin.
    { unfold tails. apply list_elem_of_fmap. by exists (Q0, lo). }
    specialize (Ht _ Hin). rewrite Forall_forall in Ht. by apply Ht.
Qed.

Lemma tidy_edit L e soup :
  blind_layout L -> from_start L -> tidy L soup -> licensed L e soup ->
  steady L e soup /\ tidy L (apply_edit e soup).
Proof.
  intros Hbl Hfs Ht Hl. pose proof (tidy_steady _ _ _ Hfs Ht Hl) as Hst.
  split; [done|].
  pose proof (licensed_sound _ _ _ Hl) as Hso.
  pose proof (blocks_renamed L e soup Hbl Hso Hst) as Hb.
  pose proof (tails_renamed L e soup Hbl Hso) as Htl.
  destruct Ht as (Hn & Hs & Ht). split_and!.
  - clear -Hb Hn. induction Hb as [|l l' ls ls' Hl _ IH]; [constructor|].
    apply Forall_cons in Hn as [H1 H2]. constructor; [by eapply nest_free_renamed | by apply IH].
  - by eapply separate_renamed.
  - clear -Hb Htl Ht. induction Hb as [|l l' ls ls' Hl _ IH]; [constructor|].
    apply Forall_cons in Ht as [H1 H2]. constructor; [|by apply IH].
    by eapply apart_lists_renamed.
Qed.

Lemma tidy_edits L es soup :
  blind_layout L -> from_start L -> tidy L soup -> licensed_all L es soup ->
  steady_all L es soup /\ tidy L (apply_edits es soup).
Proof.
  intros Hbl Hfs. revert soup. induction es as [|e es IH]; intros soup Ht Hl; [done|].
  destruct Hl as [Hl Hls]. destruct (tidy_edit L e soup) as [Hst Ht']; [done..|].
  destruct (IH _ Ht' Hls) as [Hsts Ht'']. by split.
Qed.

(** ** Smaller layouts *)

Lemma elem_of_within_single i (l : list path) x :
  x ∈ within (i, Some (S i)) l <-> l !! i = Some x.
Proof.
  unfold within. cbn. rewrite list_elem_of_lookup. split.
  - intros (k & Hk). rewrite lookup_drop in Hk. apply lookup_take_Some in Hk as [Hk Hlt].
    by replace (i + k) with i in Hk by lia.
  - intros Hx. exists 0. rewrite lookup_drop, Nat.add_0_r.
    apply lookup_take_Some. split; [done|lia].
Qed.

Lemma within_sub (r r' : range) (l : list path) x :
  r.1 <= r'.1 ->
  match r'.2, r.2 with
  | Some n', Some n => n' <= n
  | None, None => True
  | _, _ => False
  end ->
  x ∈ within r' l -> x ∈ within r l.
Proof.
  unfold within. intros Hlo Hcap Hx.
  apply list_elem_of_lookup in Hx as (k & Hk). rewrite lookup_drop in Hk.
  apply list_elem_of_lookup. exists (r'.1 + k - r.1). rewrite lookup_drop.
  replace (r.1 + (r'.1 + k - r.1)) with (r'.1 + k) by lia.
  destruct (r.2) as [n|], (r'.2) as [n'|]; cbn [upto] in *; try done.
  apply lookup_take_Some in Hk as [Hk Hlt]. apply lookup_take_Some. split; [done|lia].
Qed.

Lemma licensed_sub L' L e soup : sub_layout L' L -> licensed L' e soup -> licensed L e soup.
Proof.
  intros [HW HD]. destruct e as [q new|q]; cbn.
  - intros (Hnew & Q & r' & Hw & Hq). split; [done|].
    rewrite Forall_forall in HW. destruct (HW _ Hw) as (r & Hr & Hlo & Hcap). cbn in *.
    exists Q, r. split; [done|]. by eapply within_sub.
  - intros (Q & lo & Hw & Hq). exists Q, lo. split; [by apply HD|done].
Qed.

Lemma licensed_all_sub L' L es soup :
  sub_layout L' L -> licensed_all L' es soup -> licensed_all L es soup.
Proof.
  intros Hsub. revert soup. induction es as [|e es IH]; intros soup; [done|].
  intros [H1 H2]. split; [by eapply licensed_sub | by apply IH].
Qed.

Lemma steady_sub L' L e soup : sub_layout L' L -> steady L e soup -> steady L' e soup.
Proof.
  intros [HW _] Hst. unfold steady in *. rewrite Forall_forall in HW, Hst |- *.
  intros [Q r'] Hw. cbn. destruct (HW _ Hw) as (r & Hr & Hlo & Hcap). cbn in *.
  specialize (Hst _ Hr). cbn in Hst.
  destruct (r'.2) as [n'|]; [|done]. destruct (r.2) as [n|]; [|done].
  rewrite Forall_forall in Hst |- *. intros x Hx. apply Hst.
  apply list_elem_of_lookup in Hx as (k & Hk). apply lookup_take_Some in Hk as [Hk Hlt].
  apply list_elem_of_lookup. exists k. apply lookup_take_Some. split; [done|lia].
Qed.

Lemma steady_all_sub L' L es soup :
  sub_layout L' L -> steady_all L es soup -> steady_all L' es soup.
Proof.
  intros Hsub. revert soup. induction es as [|e es IH]; intros soup; [done|].
  intros [H1 H2]. split; [by eapply steady_sub | by apply IH].
Qed.

Lemma positions_sub caps ps D :
  Forall (below_cap caps) ps ->
  sub_layout (Layout (positions ps) D) (Layout (capped caps) D).
Proof.
  intros Hps. split; [|done]. cbn [written]. unfold positions. rewrite Forall_fmap.
  eapply Forall_impl; [exact Hps|]. intros [sel i] Hp. cbn.
  apply Exists_exists in Hp as ([sel' n] & Hc & Hsel & Hlt). cbn in *. subst sel'.
  exists (0, Some n). cbn. split_and!; [|lia|lia].
  unfold capped. apply list_elem_of_fmap. by exists (sel, n).
Qed.

(** ** Prefixes along a run *)

Lemma sound_all_licensed L es soup :
  licensed_all L es soup ->
  forall Q, blind Q -> length (ask Q (apply_edits es soup)) <= length (ask Q soup).
Proof.
  revert soup. induction es as [|e es IH]; intros soup Hl Q HQ; [done|].
  destruct Hl as [He Hl]. cbn. etrans; [by apply IH|].
  rewrite ask_edit by (done || by eapply licensed_sound).
  rewrite length_fmap. apply length_filter.
Qed.

Lemma steady_prefix L Q lo n es soup :
  blind_layout L -> (Q, (lo, Some n)) ∈ written L ->
  licensed_all L es soup -> steady_all L es soup ->
  take n (ask Q (apply_edits es soup)) = map (rename_edits es) (take n (ask Q soup)).
Proof.
  intros [HW _] Hw. revert soup. induction es as [|e es IH]; intros soup Hl Hst.
  - cbn. by rewrite map_id.
  - destruct Hl as [He Hl], Hst as [Hs Hst]. cbn [apply_edits foldl].
    change (foldl _ (apply_edit e soup) es) with (apply_edits es (apply_edit e soup)).
    rewrite IH by done.
    unfold steady in Hs. rewrite Forall_forall in HW, Hs.
    pose proof (Hs _ Hw) as Hsv. cbn in Hsv.
    rewrite upto_steady; [|by apply (HW _ Hw)|by eapply licensed_sound|done].
    rewrite <- list_fmap_compose. done.
Qed.

(** ** A written element under the later edits *)

Lemma sorted_NoDup (l : list path) :
  StronglySorted (fun p q => before p q = true) l -> NoDup l.
Proof.
  induction 1 as [|x l Hs IH Hall]; constructor; [|done].
  intros Hx. rewrite Forall_forall in Hall. specialize (Hall x Hx).
  by rewrite before_irrefl in Hall.
Qed.

Lemma ask_NoDup Q soup : NoDup (ask Q soup).
Proof. apply sorted_NoDup, ask_sorted. Qed.

Lemma tidy_apart caps D soup sel n i x sel' n' i' y :
  tidy (Layout (capped caps) D) soup ->
  (sel, n) ∈ caps -> i < n -> (sel', n') ∈ caps -> i' < n' ->
  (sel', i') <> (sel, i) ->
  select sel soup !! i = Some x -> select sel' soup !! i' = Some y ->
  apart x y.
Proof.
  intros (Hn & Hs & _) Hc Hi Hc' Hi' Hne Hx Hy.
  apply list_elem_of_lookup in Hc as (j & Hj).
  apply list_elem_of_lookup in Hc' as (j' & Hj').
  set (L := Layout (capped caps) D) in *.
  assert (blocks L soup !! j = Some (take n (select sel soup))) as Hbj.
  { unfold blocks, L, capped. cbn. rewrite !list_lookup_fmap, Hj. done. }
  assert (x ∈ take n (select sel soup)) as Hxin.
  { apply list_elem_of_lookup. exists i. by apply lookup_take_Some. }
  assert (blocks L soup !! j' = Some (take n' (select sel' soup))) as Hbj'.
  { unfold blocks, L, capped. cbn. rewrite !list_lookup_fmap, Hj'. done. }
  assert (y ∈ take n' (select sel' soup)) as Hyin.
  { apply list_elem_of_lookup. exists i'. by apply lookup_take_Some. }
  destruct (decide (j = j')) as [<-|Hjj].
  - rewrite Hj in Hj'. injection Hj' as <- <-.
    assert (i <> i') as Hii by congruence.
    assert (x <> y) as Hxy.
    { intros <-. apply Hii.
      eapply NoDup_lookup; [|exact Hx|exact Hy].
      apply (ask_NoDup (by_selector sel)). }
    rewrite Forall_forall in Hn. specialize (Hn _ (list_elem_of_lookup_2 _ _ _ Hbj)).
    unfold nest_free in Hn. rewrite Forall_forall in Hn.
    pose proof (Hn x Hxin) as H1. pose proof (Hn y Hyin) as H2.
    rewrite Forall_forall in H1, H2. specialize (H1 y Hyin). specialize (H2 x Hxin).
    unfold inside in H1, H2.
    rewrite (bool_decide_false (x = y)) in H1 by done.
    rewrite (bool_decide_false (y = x)) in H2 by done.
    rewrite andb_true_r in H1, H2. by split.
  - by eapply (separate_lookup _ j j').
Qed.

Lemma tidy_safe caps D soup ps sel n i x :
  tidy (Layout (capped caps) D) soup ->
  (sel, n) ∈ caps -> i < n -> select sel soup !! i = Some x ->
  Forall (fun p => below_cap caps p /\ p <> (sel, i)) ps ->
  safe (Layout (positions ps) D) [] soup x.
Proof.
  intros Htidy Hc Hi Hx Hps. split_and!; [| |constructor].
  - unfold blocks, positions. cbn [written]. rewrite !Forall_fmap.
    eapply Forall_impl; [exact Hps|]. intros [sel' i'] [Hcap Hne]. cbn.
    apply Forall_forall. intros y Hy. apply elem_of_within_single in Hy.
    apply Exists_exists in Hcap as ([sel'' n'] & Hc' & Hsel & Hlt). cbn in *. subst sel''.
    by eapply (tidy_apart caps D soup sel n i x sel' n' i' y).
  - destruct Htidy as (_ & _ & Ht).
    apply list_elem_of_lookup in Hc as (j & Hj).
    set (L := Layout (capped caps) D) in *.
    assert (blocks L soup !! j = Some (take n (select sel soup))) as Hbj.
    { unfold blocks, L, capped. cbn. rewrite !list_lookup_fmap, Hj. done. }
    assert (x ∈ take n (select sel soup)) as Hxin.
    { apply list_elem_of_lookup. exists i. by apply lookup_take_Some. }
    cbn [tails destroyed]. rewrite Forall_forall in Ht.
    specialize (Ht _ (list_elem_of_lookup_2 _ _ _ Hbj)).
    rewrite Forall_forall in Ht. by apply Ht.
Qed.

Lemma from_start_capped caps D : from_start (Layout (capped caps) D).
Proof. unfold from_start, capped. cbn. rewrite Forall_fmap. by apply Forall_true. Qed.

Lemma blind_sub L' L : sub_layout L' L -> blind_layout L -> blind_layout L'.
Proof.
  intros [HW HD] [HbW HbD]. split.
  - rewrite Forall_forall in HW, HbW |- *. intros w' Hw'.
    destruct (HW _ Hw') as (r & Hr & _). apply (HbW _ Hr).
  - rewrite Forall_forall in HbD |- *. intros d Hd. apply HbD, HD, Hd.
Qed.

Lemma position_kept caps D ps es soup sel n i :
  blind_layout (Layout (capped caps) D) ->
  tidy (Layout (capped caps) D) soup ->
  (sel, n) ∈ caps -> i < n ->
  Forall (fun p => below_cap caps p /\ p <> (sel, i)) ps ->
  licensed_all (Layout (positions ps) D) es soup ->
  take n (select sel (apply_edits es soup))
  = map (rename_edits es) (take n (select sel soup))
  /\ (forall x, select sel soup !! i = Some x ->
                get (rename_edits es x) (apply_edits es soup) = get x soup)
  /\ tidy (Layout (capped caps) D) (apply_edits es soup).
Proof.
  intros Hbl Ht Hc Hi Hps Hl.
  assert (sub_layout (Layout (positions ps) D) (Layout (capped caps) D)) as Hsub.
  { apply positions_sub. eapply Forall_impl; [exact Hps|]. by intros p [? _]. }
  pose proof (licensed_all_sub _ _ _ _ Hsub Hl) as Hl'.
  destruct (tidy_edits _ es soup Hbl (from_start_capped _ _) Ht Hl') as [Hst Ht'].
  pose proof (steady_all_sub _ _ _ _ Hsub Hst) as Hst'.
  split_and!; [| |done].
  - assert ((by_selector sel, (0, Some n)) ∈ written (Layout (capped caps) D)) as Hw.
    { cbn. unfold capped. apply list_elem_of_fmap. by exists (sel, n). }
    apply (steady_prefix _ _ _ _ es soup Hbl Hw Hl' Hst).
  - intros x Hx.
    pose proof (tidy_safe caps D soup ps sel n i x Ht Hc Hi Hx Hps) as Hsafe.
    by destruct (safe_edits _ [] es soup x (blind_sub _ _ Hsub Hbl) (Forall_nil_2 _)
                   Hsafe Hl Hst') as [_ Hget].
Qed.

(** The same for a phase: where position [i] of the result list is
    afterwards, and that this element is as it was. *)
Lemma position_phase caps D ps soup soup' sel n i :
  blind_layout (Layout (capped caps) D) ->
  tidy (Layout (capped caps) D) soup ->
  (sel, n) ∈ caps -> i < n ->
  Forall (fun p => below_cap caps p /\ p <> (sel, i)) ps ->
  phase (Layout (positions ps) D) soup soup' ->
  tidy (Layout (capped caps) D) soup'
  /\ forall y, select sel soup' !! i = Some y ->
       exists x, select sel soup !! i = Some x /\ get y soup' = get x soup.
Proof.
  intros Hbl Ht Hc Hi Hps (es & -> & Hl).
  destruct (position_kept caps D ps es soup sel n i) as (Hpre & Hget & Ht'); [done..|].
  split; [done|]. intros y Hy.
  apply (f_equal (fun l => l !! i)) in Hpre.
  rewrite lookup_take_lt, list_lookup_fmap, lookup_take_lt, Hy in Hpre by done.
  destruct (select sel soup !! i) as [x|] eqn:Hx; [|done].
  injection Hpre as ->. exists x. split; [done|]. by apply Hget.
Qed.

Lemma tidy_phase L L' soup soup' :
  blind_layout L -> from_start L -> sub_layout L' L ->
  tidy L soup -> phase L' soup soup' -> tidy L soup'.
Proof.
  intros Hbl Hfs Hsub Ht (es & -> & Hl).
  by destruct (tidy_edits L es soup Hbl Hfs Ht (licensed_all_sub _ _ _ _ Hsub Hl)).
Qed.

Lemma phase_sub L' L soup soup' : sub_layout L' L -> phase L' soup soup' -> phase L soup soup'.
Proof. intros Hsub (es & -> & Hl). exists es. split; [done|by eapply licensed_all_sub]. Qed.

Lemma ask_length_phase L Q soup soup' :
  blind Q -> phase L soup soup' -> length (ask Q soup') <= length (ask Q soup).
Proof. intros HQ (es & -> & Hl). by apply (sound_all_licensed L). Qed.

(** ** Elements that last *)

Lemma label_set_kids new n : label_of (set_kids new n) = label_of n.
Proof. by destruct n. Qed.

Lemma label_del_kid i n : label_of (del_kid i n) = label_of n.
Proof. by destruct n. Qed.

Lemma not_inside_cases q x :
  inside q x = false -> x = q \/ inside x q = true \/ apart x q.
Proof.
  intros Hin. destruct (decide (x = q)) as [|Hne]; [by left|]. right.
  unfold inside in *. rewrite (bool_decide_false (x = q)) by done.
  rewrite (bool_decide_false (q = x)) in Hin by done.
  rewrite andb_true_r in *. destruct (at_or_inside x q) eqn:E; [by left|right]. by split.
Qed.

Lemma label_edit e x soup :
  sound e soup -> survives e x ->
  label_of <$> get (rename_edit e x) (apply_edit e soup) = label_of <$> get x soup.
Proof.
  intros (Hq & Hv & _) Hs. destruct e as [q new|q]; cbn in *.
  - destruct (not_inside_cases q x Hs) as [->|[Hin|[H1 H2]]].
    + rewrite get_update_at. destruct (get q soup); [|done]. cbn.
      by rewrite label_set_kids.
    + by apply label_update_below.
    + by rewrite get_update_apart.
  - destruct (at_or_inside x q) eqn:Hxq.
    + destruct (path_snoc q Hq) as (par & i & -> & _).
      assert (x <> par ++ [i]) as Hne.
      { intros ->. by rewrite at_or_inside_refl in Hs. }
      assert (inside x (par ++ [i]) = true) as Hin.
      { unfold inside. by rewrite Hxq, bool_decide_false. }
      rewrite shift_before by (by apply before_inside).
      rewrite remove_as_update.
      apply inside_spec in Hin as (j & r & Hr).
      destruct (decide (r = [])) as [->|Hr'].
      * apply app_inj_tail in Hr as [-> _].
        rewrite get_update_at. destruct (get x soup); [|done]. cbn.
        by rewrite label_del_kid.
      * apply label_update_below, inside_spec.
        destruct (exists_last Hr') as (r0 & k & ->).
        change (x ++ j :: r0 ++ [k]) with (x ++ (j :: r0) ++ [k]) in Hr.
        rewrite app_assoc in Hr. apply app_inj_tail in Hr as [-> _]. eauto.
    + by rewrite get_remove_apart.
Qed.

Lemma lasting_edit L K e soup :
  blind K.1 -> blind_layout L ->
  lasting L soup K -> licensed L e soup -> steady L e soup ->
  Forall (survives e) (take K.2 (ask K.1 soup)) /\ lasting L (apply_edit e soup) K.
Proof.
  intros HK Hbl Hla Hl Hst.
  pose proof (licensed_sound _ _ _ Hl) as Hso.
  assert (Forall (survives e) (take K.2 (ask K.1 soup))) as Hsv.
  { unfold lasting in Hla. eapply Forall_impl; [exact Hla|]. intros x [Hb Ht].
    destruct e as [q new|q]; cbn in Hl |- *.
    - destruct Hl as (_ & Q & r & Hw & Hq).
      rewrite Forall_forall in Hb.
      assert (within r (ask Q soup) ∈ blocks L soup) as Hin.
      { unfold blocks. apply list_elem_of_fmap. by exists (Q, r). }
      specialize (Hb _ Hin). by eapply Forall_forall in Hb.
    - destruct Hl as (Q & lo & Hw & Hq).
      rewrite Forall_forall in Ht.
      assert (drop lo (ask Q soup) ∈ tails L soup) as Hin.
      { unfold tails. apply list_elem_of_fmap. by exists (Q, lo). }
      specialize (Ht _ Hin). by eapply Forall_forall in Ht. }
  split; [done|]. unfold lasting.
  rewrite upto_steady by done. rewrite Forall_fmap.
  pose proof (blocks_renamed L e soup Hbl Hso Hst) as Hb.
  pose proof (tails_renamed L e soup Hbl Hso) as Htl.
  unfold lasting in Hla. rewrite Forall_forall in Hla, Hsv |- *.
  intros x Hx. destruct (Hla x Hx) as [H1 H2]. specialize (Hsv x Hx). cbn. split.
  - clear -Hb H1 Hsv. induction Hb as [|l l' ls ls' Hl _ IH]; [constructor|].
    apply Forall_cons in H1 as [H1 H1']. constructor; [|by apply IH].
    apply Forall_forall. intros y' Hy'. destruct (Hl y' Hy') as (y & -> & Hy & Hsy).
    rewrite rename_inside by done. by eapply Forall_forall in H1.
  - clear -Htl H2 Hsv. induction Htl as [|l l' ls ls' Hl _ IH]; [constructor|].
    apply Forall_cons in H2 as [H2 H2']. constructor; [|by apply IH].
    apply Forall_forall. intros y' Hy'. destruct (Hl y' Hy') as (y & -> & Hy & Hsy).
    rewrite rename_at_or_inside by done. by eapply Forall_forall in H2.
Qed.

Lemma lasting_edits L K es soup :
  blind K.1 -> blind_layout L ->
  lasting L soup K -> licensed_all L es soup -> steady_all L es soup ->
  take K.2 (ask K.1 (apply_edits es soup)) = map (rename_edits es) (take K.2 (ask K.1 soup))
  /\ lasting L (apply_edits es soup) K
  /\ Forall (fun x => label_of <$> get (rename_edits es x) (apply_edits es soup)
                      = label_of <$> get x soup) (take K.2 (ask K.1 soup)).
Proof.
  intros HK Hbl. revert soup. induction es as [|e es IH]; intros soup Hla Hl Hst.
  - cbn. rewrite map_id. split_and!; [done..|]. by apply Forall_true.
  - destruct Hl as [He Hl], Hst as [Hs Hst].
    destruct (lasting_edit L K e soup) as [Hsv Hla']; [done..|].
    destruct (IH _ Hla' Hl Hst) as (Hpre & Hla'' & Hlab).
    pose proof (licensed_sound _ _ _ He) as Hso.
    cbn [apply_edits foldl].
    change (foldl _ (apply_edit e soup) es) with (apply_edits es (apply_edit e soup)).
    rewrite upto_steady in Hpre, Hlab by done.
    split_and!; [|done|].
    + rewrite Hpre, <- list_fmap_compose. done.
    + rewrite Forall_fmap in Hlab. rewrite Forall_forall in Hlab, Hsv |- *.
      intros x Hx. cbn. specialize (Hlab x Hx). cbn in Hlab.
      change (foldl _ (rename_edit e x) es) with (rename_edits es (rename_edit e x)).
      rewrite Hlab. apply label_edit; [done|]. by apply Hsv.
Qed.

Lemma lasting_phase L K soup soup' :
  blind K.1 -> blind_layout L -> from_start L -> tidy L soup ->
  lasting L soup K -> phase L soup soup' ->
  lasting L soup' K
  /\ exists f, take K.2 (ask K.1 soup') = map f (take K.2 (ask K.1 soup))
              /\ Forall (fun x => label_of <$> get (f x) soup' = label_of <$> get x soup)
                        (take K.2 (ask K.1 soup)).
Proof.
  intros HK Hbl Hfs Ht Hla (es & -> & Hl).
  destruct (tidy_edits L es soup Hbl Hfs Ht Hl) as [Hst _].
  destruct (lasting_edits L K es soup HK Hbl Hla Hl Hst) as (Hpre & Hla' & Hlab).
  split; [done|]. by exists (rename_edits es).
Qed.

(** ** What is never inside what *)

Lemma never_inside_edit Q Q' e soup :
  blind Q -> blind Q' -> sound e soup ->
  never_inside Q Q' soup -> never_inside Q Q' (apply_edit e soup).
Proof.
  intros HQ HQ' Hso Hn. unfold never_inside in *.
  rewrite !ask_edit by done. rewrite Forall_fmap.
  apply Forall_forall. intros m [Hsm Hm]%list_elem_of_filter. cbn.
  rewrite Forall_fmap. apply Forall_forall. intros u [Hsu Hu]%list_elem_of_filter. cbn.
  rewrite rename_at_or_inside by done.
  rewrite Forall_forall in Hn. specialize (Hn m Hm). by eapply Forall_forall in Hn.
Qed.

Lemma never_inside_edits L Q Q' es soup :
  blind Q -> blind Q' -> licensed_all L es soup ->
  never_inside Q Q' soup -> never_inside Q Q' (apply_edits es soup).
Proof.
  intros HQ HQ'. revert soup. induction es as [|e es IH]; intros soup Hl Hn; [done|].
  destruct Hl as [He Hl]. cbn. apply IH; [done|].
  apply never_inside_edit; [done..|by eapply licensed_sound|done].
Qed.

Lemma never_inside_phase L Q Q' soup soup' :
  blind Q -> blind Q' -> phase L soup soup' ->
  never_inside Q Q' soup -> never_inside Q Q' soup'.
Proof. intros HQ HQ' (es & -> & Hl). by apply (never_inside_edits L). Qed.

(** ** Setting the language changes no result list *)

Lemma blocks_set_lang L label_lang soup :
  blind_layout L -> blocks L (set_lang label_lang soup) = blocks L soup.
Proof.
  intros [HW _]. unfold blocks. apply map_ext_Forall.
  eapply Forall_impl; [exact HW|]. intros w Hw. cbn. by rewrite ask_set_lang.
Qed.

Lemma tails_set_lang L label_lang soup :
  blind_layout L -> tails L (set_lang label_lang soup) = tails L soup.
Proof.
  intros [_ HD]. unfold tails. apply map_ext_Forall.
  eapply Forall_impl; [exact HD|]. intros w Hw. cbn. by rewrite ask_set_lang.
Qed.

Lemma tidy_set_lang L label_lang soup :
  blind_layout L -> tidy L soup -> tidy L (set_lang label_lang soup).
Proof. intros Hbl. unfold tidy. by rewrite blocks_set_lang, tails_set_lang. Qed.

Lemma lasting_set_lang L K label_lang soup :
  blind_layout L -> blind K.1 -> lasting L soup K -> lasting L (set_lang label_lang soup) K.
Proof.
  intros Hbl HK. unfold lasting.
  by rewrite blocks_set_lang, tails_set_lang, ask_set_lang.
Qed.

Lemma never_inside_set_lang Q Q' label_lang soup :
  blind Q -> blind Q' -> never_inside Q Q' soup ->
  never_inside Q Q' (set_lang label_lang soup).
Proof. intros HQ HQ'. unfold never_inside. by rewrite !ask_set_lang. Qed.

(** ** Moving the notes panel *)

Section relocate_walk.
Context {St : Type} (step : St -> string -> attrs -> bool * St).

Lemma walk_kids_moved s ks i el :
  ks !! i = Some el ->
  (forall m, m ∈ walk_kids step s 0 ks -> at_or_inside [i] m = false) ->
  walk_kids step s 0 (delete i ks ++ [el])
  = map (shift [i]) (filter (fun m => at_or_inside [i] m = false) (walk_kids step s 0 ks)).
Proof.
  intros Hk Hno.
  assert (walk step s el = []) as Hel.
  { destruct (walk step s el) as [|r rest] eqn:E; [done|].
    assert ((i :: r) ∈ walk_kids step s 0 ks) as Hin.
    { rewrite (walk_kids_split _ _ _ _ _ _ Hk). apply elem_of_app. right.
      apply elem_of_app. left. rewrite E. cbn. left. }
    apply Hno in Hin. cbn in Hin. by rewrite bool_decide_true in Hin. }
  rewrite walk_kids_app. cbn [walk_kids]. rewrite Hel. cbn [map app].
  rewrite app_nil_r. apply lookup_lt_Some in Hk.
  by rewrite (walk_kids_delete _ _ 0 ks i Hk).
Qed.

Lemma walk_moved s par i n el :
  get (par ++ [i]) n = Some el ->
  (forall m, m ∈ walk step s n -> at_or_inside (par ++ [i]) m = false) ->
  walk step s (update par (fun x => append_kid el (del_kid i x)) n)
  = map (shift (par ++ [i]))
      (filter (fun m => at_or_inside (par ++ [i]) m = false) (walk step s n)).
Proof.
  revert s n. induction par as [|j par IH]; intros s n Hget Hno.
  - destruct n as [x|x|t a ks]; [done..|]. cbn in Hget.
    destruct (ks !! i) as [k|] eqn:Hk; [|done]. injection Hget as ->.
    cbn [update del_kid append_kid app].
    rewrite !walk_elem, filter_app, map_app, filter_self_remove. f_equal.
    apply walk_kids_moved; [done|]. intros m Hm. apply Hno.
    rewrite walk_elem. apply elem_of_app. by right.
  - destruct n as [x|x|t a ks]; [done..|]. cbn [app get] in Hget.
    destruct (ks !! j) as [k|] eqn:Hk; [|done].
    cbn [update app]. rewrite !walk_elem, filter_app, map_app, filter_self_remove.
    f_equal. apply (walk_kids_remove_deeper _ _ ks j k (par ++ [i])); [|done|].
    + by destruct par.
    + apply IH; [done|]. intros m Hm.
      assert ((j :: m) ∈ walk step s (Elem t a ks)) as Hin.
      { rewrite walk_elem. apply elem_of_app. right.
        rewrite (walk_kids_split _ _ _ _ _ _ Hk). apply elem_of_app. right.
        apply elem_of_app. left. apply list_elem_of_fmap. by exists m. }
      apply Hno in Hin. cbn in Hin. by rewrite bool_decide_true in Hin.
Qed.

Lemma walk_root_relocate s u soup :
  u <> [] -> (exists t a ks, get u soup = Some (Elem t a ks)) ->
  (forall m, m ∈ walk_root step s soup -> at_or_inside u m = false) ->
  walk_root step s (VariantB.relocate u soup) = map (shift u) (walk_root step s soup).
Proof.
  intros Hu (t0 & a0 & ks0 & Hget) Hno.
  destruct (path_snoc u Hu) as (par & i & -> & _).
  rewrite (relocate_as_update par i soup _ Hget).
  rewrite <- (filter_keep_all (fun m => at_or_inside (par ++ [i]) m = false)
               (walk_root step s soup)) by done.
  unfold walk_root in *.
  destruct par as [|j par].
  - destruct soup as [x|x|t a ks]; [done..|]. cbn in Hget.
    destruct (ks !! i) as [k|] eqn:Hk; [|done]. injection Hget as ->.
    cbn [update del_kid append_kid app kids_of]. by apply walk_kids_moved.
  - destruct soup as [x|x|t a ks]; [done..|]. cbn [app get] in Hget.
    destruct (ks !! j) as [k|] eqn:Hk; [|done].
    cbn [update app kids_of].
    apply (walk_kids_remove_deeper _ _ ks j k (par ++ [i])); [by destruct par|done|].
    apply walk_moved; [done|]. intros m Hm.
    assert ((j :: m) ∈ walk_kids step s 0 ks) as Hin.
    { rewrite (walk_kids_split _ _ _ _ _ _ Hk). apply elem_of_app. right.
      apply elem_of_app. left. apply list_elem_of_fmap. by exists m. }
    apply Hno in Hin. cbn in Hin. by rewrite bool_decide_true in Hin.
Qed.

End relocate_walk.

Lemma ask_relocate Q u soup :
  u <> [] -> (exists t a ks, get u soup = Some (Elem t a ks)) ->
  Forall (fun m => at_or_inside u m = false) (ask Q soup) ->
  ask Q (VariantB.relocate u soup) = map (shift u) (ask Q soup).
Proof.
  intros Hu Hv Hno. apply walk_root_relocate; [done..|].
  by apply Forall_forall.
Qed.

Lemma get_relocate_apart u x soup :
  u <> [] -> (exists t a ks, get u soup = Some (Elem t a ks)) ->
  apart x u -> is_Some (get x soup) ->
  get (shift u x) (VariantB.relocate u soup) = get x soup.
Proof.
  intros Hq (t & a & ks & Hget) [Hxq Hqx] Hn.
  destruct (path_snoc u Hq) as (par & i & -> & Hpar).
  unfold VariantB.relocate. rewrite Hget, Hpar.
  assert (at_or_inside (shift (par ++ [i]) x) par = false) as Hnp.
  { assert (shift (par ++ [i]) par = par) as E.
    { apply shift_before, before_inside, inside_spec. by exists i, []. }
    rewrite <- E at 2. rewrite shift_at_or_inside; [|done|].
    - destruct (at_or_inside x par) eqn:Hx; [|done].
      rewrite <- Hxq. symmetry. eapply at_or_inside_trans; [exact Hx|].
      apply at_or_inside_app.
    - destruct (at_or_inside (par ++ [i]) par) eqn:Hx; [|done].
      apply at_or_inside_spec in Hx as (r & Hr).
      apply (f_equal length) in Hr. rewrite !length_app in Hr. cbn in Hr. lia. }
  rewrite get_append_other; [|done|].
  - by rewrite get_remove_apart.
  - by rewrite get_remove_apart.
Qed.

Lemma label_append_del el i n : label_of (append_kid el (del_kid i n)) = label_of n.
Proof. by destruct n. Qed.

Lemma label_relocate u x soup :
  u <> [] -> (exists t a ks, get u soup = Some (Elem t a ks)) ->
  at_or_inside u x = false -> is_Some (get x soup) ->
  label_of <$> get (shift u x) (VariantB.relocate u soup) = label_of <$> get x soup.
Proof.
  intros Hu Hv Hux Hn. destruct (at_or_inside x u) eqn:Hxu.
  - destruct Hv as (t & a & ks & Hget).
    destruct (path_snoc u Hu) as (par & i & -> & _).
    assert (x <> par ++ [i]) as Hne.
    { intros ->. by rewrite at_or_inside_refl in Hux. }
    assert (inside x (par ++ [i]) = true) as Hin.
    { unfold inside. by rewrite Hxu, bool_decide_false. }
    rewrite shift_before by (by apply before_inside).
    rewrite (relocate_as_update par i soup _ Hget).
    apply inside_spec in Hin as (j & r & Hr).
    destruct (decide (r = [])) as [->|Hr'].
    + apply app_inj_tail in Hr as [-> _].
      rewrite get_update_at. destruct (get x soup); [|done]. cbn.
      by rewrite label_append_del.
    + apply label_update_below, inside_spec.
      destruct (exists_last Hr') as (r0 & k & ->).
      change (x ++ j :: r0 ++ [k]) with (x ++ (j :: r0) ++ [k]) in Hr.
      rewrite app_assoc in Hr. apply app_inj_tail in Hr as [-> _]. eauto.
  - by rewrite get_relocate_apart.
Qed.

(** ** The heading loop in a tidy document *)

Lemma heading_loop_tidy L L' write texts soup :
  blind_layout L -> from_start L -> sub_layout L' L -> tidy L soup ->
  (by_selector (sel_section_h3 "left"), (0, Some 5)) ∈ written L ->
  (by_selector (sel_section_h3 "right"), (0, Some 5)) ∈ written L ->
  (forall side idx, side ∈ ["left"; "right"] -> idx < 5 ->
     exists r : range,
       (by_selector (sel_section_h3 side), r) ∈ written L' /\ r.1 <= idx
       /\ match r.2 with Some n => idx < n | None => True end) ->
  length texts <= 5 -> Forall (plain write) texts ->
  let out := write_headings write (select (sel_section_h3 "left") soup)
               (select (sel_section_h3 "right") soup) texts soup in
  phase L' soup out
  /\ tidy L out
  /\ take 5 (select (sel_section_h3 "left") out) = take 5 (select (sel_section_h3 "left") soup)
  /\ take 5 (select (sel_section_h3 "right") out) = take 5 (select (sel_section_h3 "right") soup).
Proof.
  intros Hbl Hfs Hsub Ht HwL HwR Hcov Hlen Hplain out. subst out.
  rewrite write_headings_stale.
  set (HL := select (sel_section_h3 "left") soup).
  set (HR := select (sel_section_h3 "right") soup).
  set (I := fun sp : node =>
    tidy L sp
    /\ take 5 (select (sel_section_h3 "left") sp) = take 5 HL
    /\ take 5 (select (sel_section_h3 "right") sp) = take 5 HR).
  assert (forall sp side p idx,
            I sp -> side ∈ ["left"; "right"] -> idx < 5 ->
            select (sel_section_h3 side) sp !! idx = Some p ->
            forall v, licensed L' (Write p [Text v]) sp
                      /\ I (update p (set_kids [Text v]) sp)) as Hstep.
  { intros sp side p idx (Htidy & HIL & HIR) Hside Hidx Hp v.
    assert (licensed L' (Write p [Text v]) sp) as Hlic.
    { split; [apply flat_text|].
      destruct (Hcov side idx Hside Hidx) as (r & Hr & Hlo & Hcap).
      exists (by_selector (sel_section_h3 side)), r. split; [done|].
      by apply (within_lookup r _ idx). }
    split; [done|].
    pose proof (licensed_sub _ _ _ _ Hsub Hlic) as Hlic'.
    destruct (tidy_edit L _ sp Hbl Hfs Htidy Hlic') as [Hst Htidy'].
    pose proof (licensed_sound _ _ _ Hlic) as Hso.
    destruct Hbl as [HbW _]. unfold steady in Hst. rewrite Forall_forall in Hst, HbW.
    split; [done|]. cbn [apply_edit] in *. split.
    - rewrite <- HIL.
      pose proof (upto_steady (by_selector (sel_section_h3 "left")) 5 _ sp
                    (HbW _ HwL) Hso (Hst _ HwL)) as E.
      cbn [apply_edit rename_edit] in E. by rewrite map_id in E.
    - rewrite <- HIR.
      pose proof (upto_steady (by_selector (sel_section_h3 "right")) 5 _ sp
                    (HbW _ HwR) Hso (Hst _ HwR)) as E.
      cbn [apply_edit rename_edit] in E. by rewrite map_id in E. }
  destruct (stale_writes_phase L' I write (heading_writes HL HR texts) soup) as [Hph HI].
  - intros p v (idx & Hv & _)%elem_of_heading_writes.
    rewrite Forall_forall in Hplain. apply Hplain. by eapply list_elem_of_lookup_2.
  - by split.
  - intros sp p v HI (idx & Hv & Hp)%elem_of_heading_writes. right.
    assert (idx < 5) as Hidx by (apply lookup_lt_Some in Hv; lia).
    destruct HI as (Htidy & HIL & HIR).
    destruct Hp as [Hp|Hp].
    + apply (Hstep sp "left" p idx); [done|pick|done|].
      apply (f_equal (fun l => l !! idx)) in HIL.
      rewrite !lookup_take_lt in HIL by done. by rewrite HIL.
    + apply (Hstep sp "right" p idx); [done|pick|done|].
      apply (f_equal (fun l => l !! idx)) in HIR.
      rewrite !lookup_take_lt in HIR by done. by rewrite HIR.
  - done.
Qed.

Lemma stale_frame write ws soup x n :
  (forall p v, (p, v) ∈ ws -> plain write v) ->
  (forall p v, (p, v) ∈ ws ->
     apart x p \/ exists t a, n = Elem t a [Text v] /\ p = x) ->
  get x soup = Some n ->
  get x (foldl (stale_write write) soup ws) = Some n.
Proof.
  revert soup. induction ws as [|[p v] ws IH]; intros soup Hplain Hws Hget; [done|].
  cbn [foldl]. apply IH.
  - intros ? ? ?. eapply Hplain. by right.
  - intros ? ? ?. eapply Hws. by right.
  - unfold stale_write. cbn [fst snd].
    rewrite (update_ext p _ _ soup (Hplain p v ltac:(left))).
    destruct (Hws p v ltac:(left)) as [[H1 H2]|(t & a & -> & ->)].
    + by rewrite get_update_apart.
    + by rewrite get_update_at, Hget.
Qed.

Lemma stale_content write ws soup x v t a ks :
  (forall p v', (p, v') ∈ ws -> plain write v') ->
  (x, v) ∈ ws ->
  (forall p v', (p, v') ∈ ws -> apart x p \/ (p = x /\ v' = v)) ->
  get x soup = Some (Elem t a ks) ->
  get x (foldl (stale_write write) soup ws) = Some (Elem t a [Text v]).
Proof.
  revert soup ks. induction ws as [|[p v'] ws IH]; intros soup ks Hplain Hin Hws Hget.
  { by apply elem_of_nil in Hin. }
  cbn [foldl]. unfold stale_write at 2. cbn [fst snd].
  rewrite (update_ext p _ _ soup (Hplain p v' ltac:(left))).
  assert (forall p v', (p, v') ∈ ws -> plain write v') as Hplain'.
  { intros ? ? ?. eapply Hplain. by right. }
  destruct (Hws p v' ltac:(left)) as [[H1 H2]|[-> ->]].
  - apply elem_of_cons in Hin as [[= <- <-]|Hin].
    { by rewrite at_or_inside_refl in H1. }
    apply (IH _ ks); [done|done| |by rewrite get_update_apart].
    intros ? ? ?. apply Hws. by right.
  - apply stale_frame; [done| |by rewrite get_update_at, Hget].
    intros p v' Hp. destruct (Hws p v' ltac:(by right)) as [?|[-> ->]]; [by left|].
    right. eauto.
Qed.

Lemma write_slots_app write s1 s2 fields soup :
  write_slots write (s1 ++ s2) fields soup
  = write_slots write s1 fields soup ≫= write_slots write s2 fields.
Proof.
  revert soup. induction s1 as [|e s1 IH]; intros soup; [done|].
  cbn [app]. rewrite !write_slots_cons.
  destruct (fields !! e.1) as [v|]; [|done]. cbn. apply IH.
Qed.

(** * The synthesizer on documents of the template *)

(** ** The plans of the two variants *)

Lemma blind_capped caps :
  Forall (fun c : selector * nat => blind (by_selector c.1)) caps ->
  Forall (fun e : query * range => blind e.1) (capped caps).
Proof. intros H. unfold capped. by rewrite Forall_fmap. Qed.

Lemma blind_heading_caps label_lang :
  Forall (fun c : selector * nat => blind (by_selector c.1)) (heading_caps label_lang).
Proof.
  unfold heading_caps. destruct (lang_supported _); repeat constructor; blind_selector.
Qed.

Lemma blind_plan_A label_lang : blind_layout (plan_A label_lang).
Proof.
  split; [|constructor]. apply blind_capped, Forall_app. split.
  - repeat constructor; blind_selector.
  - apply blind_heading_caps.
Qed.

Lemma blind_plan_B label_lang : blind_layout (plan_B label_lang).
Proof.
  split; [|apply (proj2 (blind_frame_B label_lang))].
  apply blind_capped, Forall_app. split.
  - repeat constructor; blind_selector.
  - apply blind_heading_caps.
Qed.

Lemma sub_layout_refl caps D : sub_layout (Layout (capped caps) D) (Layout (capped caps) D).
Proof.
  split; [|done]. apply Forall_forall. intros [Q [lo [n|]]] Hw; cbn.
  - exists (lo, Some n). cbn. split_and!; [done|lia|lia].
  - exists (lo, None). cbn. by split_and!.
Qed.

Lemma covers_capped caps D sel idx :
  below_cap caps (sel, idx) ->
  exists r : range,
    (by_selector sel, r) ∈ written (Layout (capped caps) D) /\ r.1 <= idx
    /\ match r.2 with Some n => idx < n | None => True end.
Proof.
  intros ([sel' n] & Hc & Hsel & Hlt)%Exists_exists. cbn in *. subst sel'.
  exists (0, Some n). cbn. split_and!; [|lia|done].
  unfold capped. apply list_elem_of_fmap. by exists (sel, n).
Qed.

Lemma covers_positions ps D sel idx :
  (sel, idx) ∈ ps ->
  exists r : range,
    (by_selector sel, r) ∈ written (Layout (positions ps) D) /\ r.1 <= idx
    /\ match r.2 with Some n => idx < n | None => True end.
Proof.
  intros Hp. exists (idx, Some (S idx)). cbn. split_and!; [|lia|lia].
  unfold positions. apply list_elem_of_fmap. by exists (sel, idx).
Qed.

Lemma write_slots_positions ps D write slots fields soup soup' :
  writer write ->
  Forall (fun e : string * (selector * nat) => e.2 ∈ ps) slots ->
  write_slots write slots fields soup = Some soup' ->
  phase (Layout (positions ps) D) soup soup'.
Proof.
  intros Hw Hs. apply (write_slots_phase (Layout (positions ps) D) _ _ _ _ _ Hw).
  eapply Forall_impl; [exact Hs|]. intros [key [sel idx]] He. cbn in *.
  by apply (covers_positions ps D).
Qed.

Lemma write_slots_capped caps D write slots fields soup soup' :
  writer write ->
  Forall (fun e : string * (selector * nat) => below_cap caps e.2) slots ->
  write_slots write slots fields soup = Some soup' ->
  phase (Layout (capped caps) D) soup soup'.
Proof.
  intros Hw Hs. apply (write_slots_phase (Layout (capped caps) D) _ _ _ _ _ Hw).
  eapply Forall_impl; [exact Hs|]. intros [key [sel idx]] He. cbn in *.
  by apply (covers_capped caps D).
Qed.

(** ** What the heading loop leaves in the headings *)

Lemma elem_of_concat_2 {A} (x : A) (l : list A) (ls : list (list A)) :
  x ∈ l -> l ∈ ls -> x ∈ concat ls.
Proof.
  intros Hx Hl. induction Hl as [l ls|l l' ls _ IH]; cbn; apply elem_of_app; auto.
Qed.

Lemma heading_writes_elem HL HR texts idx v p :
  texts !! idx = Some v -> (HL !! idx = Some p \/ HR !! idx = Some p) ->
  (p, v) ∈ heading_writes HL HR texts.
Proof.
  intros Hv Hp. unfold heading_writes.
  eapply elem_of_concat_2; [|apply (elem_of_lookup_imap_2 _ _ _ _ Hv)].
  apply elem_of_app. destruct Hp as [-> | ->]; [left|right]; cbn; left.
Qed.

Lemma below_cap_elem caps sel n i : (sel, n) ∈ caps -> i < n -> below_cap caps (sel, i).
Proof. intros Hc Hi. apply Exists_exists. by exists (sel, n). Qed.

Lemma sel_section_h3_inj s s' : sel_section_h3 s = sel_section_h3 s' -> s = s'.
Proof. by intros [= ->]. Qed.

Lemma desired_length l labels :
  STATIC_LABELS !! l = Some labels -> length (desired labels) = 5.
Proof. by intros [_ [-> | ->]]%static_labels_cases. Qed.

Lemma headings_written caps D write l labels soup L' :
  blind_layout (Layout (capped caps) D) -> tidy (Layout (capped caps) D) soup ->
  (sel_section_h3 "left", 5) ∈ caps -> (sel_section_h3 "right", 5) ∈ caps ->
  STATIC_LABELS !! l = Some labels ->
  Forall (plain write) (desired labels) ->
  sub_layout L' (Layout (capped caps) D) ->
  (forall side idx, side ∈ ["left"; "right"] -> idx < 5 ->
     exists r : range,
       (by_selector (sel_section_h3 side), r) ∈ written L' /\ r.1 <= idx
       /\ match r.2 with Some n => idx < n | None => True end) ->
  phase L' soup (translate_headings write (Some l) soup)
  /\ tidy (Layout (capped caps) D) (translate_headings write (Some l) soup)
  /\ forall side i x text,
       side ∈ ["left"; "right"] ->
       select (sel_section_h3 side) (translate_headings write (Some l) soup) !! i = Some x ->
       desired labels !! i = Some text ->
       exists t a, get x (translate_headings write (Some l) soup)
                   = Some (Elem t a [Text text]).
Proof.
  intros Hbl Ht HcL HcR Hl Hplain Hsub Hcov.
  unfold translate_headings. rewrite Hl.
  pose proof (desired_length _ _ Hl) as Hlen.
  assert ((by_selector (sel_section_h3 "left"), (0, Some 5))
            ∈ written (Layout (capped caps) D)) as HwL.
  { cbn. unfold capped. apply list_elem_of_fmap. by exists (sel_section_h3 "left", 5). }
  assert ((by_selector (sel_section_h3 "right"), (0, Some 5))
            ∈ written (Layout (capped caps) D)) as HwR.
  { cbn. unfold capped. apply list_elem_of_fmap. by exists (sel_section_h3 "right", 5). }
  destruct (heading_loop_tidy _ L' write (desired labels) soup Hbl
              (from_start_capped _ _) Hsub Ht HwL HwR Hcov ltac:(lia) Hplain)
    as (Hph & Ht' & HL & HR).
  split_and!; [done..|].
  intros side i x text Hside Hx Htext.
  assert (i < 5) as Hi by (apply lookup_lt_Some in Htext; lia).
  assert (forall s, s ∈ ["left"; "right"] -> (sel_section_h3 s, 5) ∈ caps) as Hcs.
  { intros s Hs. apply elem_of_cons in Hs as [->|Hs]; [done|].
    by apply list_elem_of_singleton in Hs as ->. }
  assert (select (sel_section_h3 side) soup !! i = Some x) as Hx0.
  { apply elem_of_cons in Hside as [->|Hside];
      [|apply list_elem_of_singleton in Hside as ->].
    - apply (f_equal (fun l => l !! i)) in HL.
      rewrite !lookup_take_lt in HL by done. by rewrite <- HL.
    - apply (f_equal (fun l => l !! i)) in HR.
      rewrite !lookup_take_lt in HR by done. by rewrite <- HR. }
  destruct (ask_valid (by_selector (sel_section_h3 side)) soup x) as [_ (t & a & ks & Hg)].
  { by eapply list_elem_of_lookup_2. }
  exists t, a. rewrite write_headings_stale.
  apply (stale_content write _ soup x text t a ks); [| | |done].
  - intros p v (idx & Hv & _)%elem_of_heading_writes.
    rewrite Forall_forall in Hplain. apply Hplain. by eapply list_elem_of_lookup_2.
  - apply (heading_writes_elem _ _ _ i); [done|].
    apply elem_of_cons in Hside as [->|Hside];
      [by left|apply list_elem_of_singleton in Hside as ->; by right].
  - intros p v (idx & Hv & Hp)%elem_of_heading_writes.
    assert (idx < 5) as Hidx by (apply lookup_lt_Some in Hv; lia).
    assert (exists s, s ∈ ["left"; "right"]
                      /\ select (sel_section_h3 s) soup !! idx = Some p) as (s & Hs & Hps).
    { destruct Hp as [Hp|Hp]; [exists "left"|exists "right"]; (split; [pick|done]). }
    destruct (decide ((sel_section_h3 s, idx) = (sel_section_h3 side, i))) as [E|Hne].
    + right. injection E as E1 E2. subst s idx.
      rewrite Hx0 in Hps. injection Hps as ->. split; [done|]. congruence.
    + left. eapply (tidy_apart caps D soup (sel_section_h3 side) 5 i x
                      (sel_section_h3 s) 5 idx p); eauto.
Qed.

(** ** The root language *)

Lemma set_lang_root l base h rest :
  lang_supported (Some l) = true -> select sel_html base = h :: rest ->
  select sel_html (set_lang (Some l) base) !! 0 = Some h
  /\ exists t a ks, get h (set_lang (Some l) base) = Some (Elem t a ks)
                    /\ get_attr "lang" a = Some (AStr l).
Proof.
  intros Hs Hh. split.
  - change (select sel_html) with (ask (by_selector sel_html)).
    rewrite ask_set_lang by blind_selector.
    change (ask (by_selector sel_html)) with (select sel_html). by rewrite Hh.
  - unfold set_lang, select_one. rewrite Hs, Hh. cbn [head].
    destruct (ask_valid (by_selector sel_html) base h) as [_ (t & a & ks & Hg)].
    { change (ask (by_selector sel_html)) with (select sel_html). rewrite Hh. left. }
    rewrite get_update_at, Hg. cbn. eexists _, _, _. split; [done|].
    apply get_attr_set_attr.
Qed.

Lemma label_elem x soup soup' y t a ks :
  label_of <$> get y soup' = label_of <$> get x soup ->
  get x soup = Some (Elem t a ks) -> exists ks', get y soup' = Some (Elem t a ks').
Proof.
  intros E Hx. rewrite Hx in E. cbn in E.
  destruct (get y soup') as [[s|s|t' a' ks']|]; try done.
  cbn in E. injection E as -> ->. eauto.
Qed.

Lemma root_lang L l base soup' :
  blind_layout L -> from_start L ->
  lang_supported (Some l) = true -> select sel_html base <> [] ->
  tidy L (set_lang (Some l) base) ->
  lasting L (set_lang (Some l) base) (by_selector sel_html, 1) ->
  phase L (set_lang (Some l) base) soup' ->
  exists h t a ks,
    select sel_html soup' !! 0 = Some h /\ get h soup' = Some (Elem t a ks)
    /\ get_attr "lang" a = Some (AStr l).
Proof.
  intros Hbl Hfs Hs Hne Ht Hla Hph.
  destruct (select sel_html base) as [|h rest] eqn:Hh; [done|].
  destruct (set_lang_root l base h rest Hs Hh) as (H0 & t & a & ks & Hg & Ha).
  destruct (lasting_phase L (by_selector sel_html, 1) (set_lang (Some l) base) soup')
    as (_ & f & Hpre & Hlab);
    [blind_selector|done..|].
  cbn [fst snd] in Hpre, Hlab.
  change (ask (by_selector sel_html)) with (select sel_html) in Hpre, Hlab.
  assert (take 1 (select sel_html (set_lang (Some l) base)) = [h]) as E.
  { destruct (select sel_html (set_lang (Some l) base)) as [|h' r']; [done|].
    cbn in H0. injection H0 as ->. done. }
  rewrite E in Hpre, Hlab. cbn in Hpre. apply Forall_cons in Hlab as [Hlab _].
  destruct (label_elem _ _ _ _ _ _ _ Hlab Hg) as (ks' & Hg').
  exists (f h), t, a, ks'. split_and!; [|done..].
  destruct (select sel_html soup') as [|h' r']; [done|]. cbn in Hpre |- *.
  by injection Hpre as ->.
Qed.

(** ** The last step: the notes panel goes to the end *)

Lemma relocate_list sel soup :
  never_inside (by_selector sel) notes soup ->
  exists f,
    select sel (VariantB.relocate_user_panel soup) = map f (select sel soup)
    /\ Forall (fun y => label_of <$> get (f y) (VariantB.relocate_user_panel soup)
                        = label_of <$> get y soup) (select sel soup).
Proof.
  intros Hn. unfold VariantB.relocate_user_panel, select_one.
  destruct (select sel_user_panel soup) as [|u rest] eqn:Hu.
  { exists id. cbn. rewrite map_id. split; [done|]. by apply Forall_true. }
  cbn [head].
  assert (u ∈ ask notes soup) as Hin.
  { change (ask notes soup) with (select sel_user_panel soup). rewrite Hu. left. }
  destruct (ask_valid _ _ _ Hin) as [Hne Hv].
  assert (Forall (fun m => at_or_inside u m = false) (select sel soup)) as Hall.
  { unfold never_inside in Hn. eapply Forall_impl; [exact Hn|]. intros m Hm.
    by eapply Forall_forall in Hm. }
  exists (shift u). split.
  - by apply (ask_relocate (by_selector sel)).
  - rewrite Forall_forall in Hall |- *. intros y Hy.
    apply label_relocate; [done|done|by apply Hall|].
    apply (ask_valid (by_selector sel)) in Hy as [_ (? & ? & ? & ->)]. eauto.
Qed.

Lemma relocate_position sel soup i x' :
  never_inside (by_selector sel) notes soup ->
  never_inside notes (by_selector sel) soup ->
  select sel (VariantB.relocate_user_panel soup) !! i = Some x' ->
  exists y, select sel soup !! i = Some y
            /\ get x' (VariantB.relocate_user_panel soup) = get y soup.
Proof.
  intros Hn Hn'. unfold VariantB.relocate_user_panel, select_one.
  destruct (select sel_user_panel soup) as [|u rest] eqn:Hu; [eauto|].
  cbn [head]. intros Hx'.
  assert (u ∈ ask notes soup) as Hin.
  { change (ask notes soup) with (select sel_user_panel soup). rewrite Hu. left. }
  destruct (ask_valid _ _ _ Hin) as [Hne Hv].
  assert (Forall (fun m => at_or_inside u m = false) (select sel soup)) as Hall.
  { unfold never_inside in Hn. eapply Forall_impl; [exact Hn|]. intros m Hm.
    by eapply Forall_forall in Hm. }
  change (select sel) with (ask (by_selector sel)) in Hx'.
  rewrite ask_relocate in Hx' by done.
  rewrite list_lookup_fmap in Hx'.
  destruct (ask (by_selector sel) soup !! i) as [y|] eqn:Hy; [|done].
  injection Hx' as <-. exists y. split; [done|].
  apply list_elem_of_lookup_2 in Hy.
  apply get_relocate_apart; [done|done| |].
  - split.
    + unfold never_inside in Hn'. rewrite Forall_forall in Hn'.
      specialize (Hn' u Hin). by eapply Forall_forall in Hn'.
    + rewrite Forall_forall in Hall. by apply Hall.
  - apply ask_valid in Hy as [_ (? & ? & ? & ->)]. eauto.
Qed.

(** ** Variant B on a tidy document *)

Lemma below_cap_app_l caps more p : below_cap caps p -> below_cap (caps ++ more) p.
Proof. intros H. apply Exists_app. by left. Qed.

Lemma below_cap_app_r caps more p : below_cap more p -> below_cap (caps ++ more) p.
Proof. intros H. apply Exists_app. by right. Qed.


Lemma slots_B_below_cap : Forall (fun e : string * (selector * nat) => below_cap slot_caps_B e.2) slots_B.
Proof. apply (bool_decide_unpack _). by vm_compute. Qed.

Lemma heading_caps_in l side :
  lang_supported (Some l) = true -> side ∈ ["left"; "right"] ->
  (sel_section_h3 side, 5) ∈ heading_caps (Some l).
Proof.
  intros Hs Hside. unfold heading_caps. rewrite Hs.
  apply elem_of_cons in Hside as [->|Hside]; [pick|].
  apply list_elem_of_singleton in Hside as ->. pick.
Qed.

Lemma translate_headings_plan caps D write label_lang soup :
  blind_layout (Layout (capped (caps ++ heading_caps label_lang)) D) ->
  tidy (Layout (capped (caps ++ heading_caps label_lang)) D) soup ->
  (forall l labels, STATIC_LABELS !! l = Some labels ->
                    Forall (plain write) (desired labels)) ->
  phase (Layout (capped (caps ++ heading_caps label_lang)) D) soup
    (translate_headings write label_lang soup).
Proof.
  intros Hbl Ht Hplain. destruct label_lang as [l|]; [|apply phase_refl].
  destruct (STATIC_LABELS !! l) as [labels|] eqn:Hl.
  2:{ unfold translate_headings. rewrite Hl. apply phase_refl. }
  destruct (static_labels_cases _ _ Hl) as [Hs _].
  eapply (headings_written _ D write l labels soup); eauto.
  - apply elem_of_app. right. apply heading_caps_in; [done|pick].
  - apply elem_of_app. right. apply heading_caps_in; [done|pick].
  - apply sub_layout_refl.
  - intros side idx Hside Hidx. apply covers_capped.
    apply (below_cap_elem _ _ 5); [|done].
    apply elem_of_app. right. by apply heading_caps_in.
Qed.

Lemma plan_B_slots base fields label_lang mid :
  write_slots VariantB.set_rich_text slots_B fields
    (VariantB.trim_sections (set_lang label_lang base)) = Some mid ->
  phase (plan_B label_lang) (set_lang label_lang base) mid.
Proof.
  intros Hmid. eapply phase_trans.
  - apply trim_sections_phase. intros x Hx. apply elem_of_app. by left.
  - eapply (write_slots_capped _ _ _ _ _ _ _ writer_set_rich_text); [|exact Hmid].
    eapply Forall_impl; [apply slots_B_below_cap|].
    intros e He. by apply below_cap_app_l.
Qed.

Lemma plan_B_tidy label_lang soup soup' :
  tidy (plan_B label_lang) soup -> phase (plan_B label_lang) soup soup' ->
  tidy (plan_B label_lang) soup'.
Proof.
  apply tidy_phase; [apply blind_plan_B|apply from_start_capped|apply sub_layout_refl].
Qed.

Lemma plan_B_footers L soup :
  destroyed L = destroyed (plan_B None) -> phase L soup (VariantB.remove_footers soup).
Proof.
  intros HD. apply footers_phase. apply Forall_forall. intros Q HQ.
  rewrite HD. cbn [plan_B destroyed]. apply elem_of_app. right.
  apply list_elem_of_fmap. by exists Q.
Qed.

Lemma plan_B_phase base fields label_lang mid :
  tidy (plan_B label_lang) (set_lang label_lang base) ->
  write_slots VariantB.set_rich_text slots_B fields
    (VariantB.trim_sections (set_lang label_lang base)) = Some mid ->
  phase (plan_B label_lang) (set_lang label_lang base)
    (VariantB.remove_footers (translate_headings VariantB.set_rich_text label_lang mid)).
Proof.
  intros Ht Hmid.
  pose proof (plan_B_slots _ _ _ _ Hmid) as H1.
  eapply phase_trans; [exact H1|].
  eapply phase_trans.
  - apply translate_headings_plan; [apply blind_plan_B| |apply desired_plain].
    by eapply plan_B_tidy.
  - by apply plan_B_footers.
Qed.

Lemma never_inside_run L Q Q' label_lang base soup' :
  blind Q -> blind Q' -> never_inside Q Q' base ->
  phase L (set_lang label_lang base) soup' -> never_inside Q Q' soup'.
Proof.
  intros HQ HQ' Hn Hph. eapply never_inside_phase; [done|done|exact Hph|].
  by apply never_inside_set_lang.
Qed.

Lemma blind_notes : blind notes.
Proof. unfold notes. blind_selector. Qed.

Lemma headings_overwritten_B base fields l labels out :
  STATIC_LABELS !! l = Some labels -> select sel_html base <> [] ->
  well_formed_B (Some l) base ->
  VariantB.apply_fields_to_html base fields (Some l) = Some out ->
  localized l labels out.
Proof.
  intros Hl Hhtml (Ht & Hlast & Hout & Hin) Happ.
  rewrite apply_B_steps in Happ.
  destruct (write_slots _ _ _ _) as [mid|] eqn:Hmid; [|done].
  cbn [mbind option_bind] in Happ. injection Happ as <-.
  change (localized l labels
            (VariantB.relocate_user_panel
               (VariantB.remove_footers
                  (translate_headings VariantB.set_rich_text (Some l) mid)))).
  destruct (static_labels_cases _ _ Hl) as [Hs _].
  pose proof (blind_plan_B (Some l)) as Hbl.
  apply (tidy_set_lang _ (Some l)) in Ht; [|done].
  pose proof (plan_B_slots _ _ _ _ Hmid) as Hp1.
  pose proof (plan_B_tidy _ _ _ Ht Hp1) as Ht2.
  pose proof (plan_B_phase _ _ _ _ Ht Hmid) as Hp4.
  set (T3 := translate_headings VariantB.set_rich_text (Some l) mid) in *.
  set (T4 := VariantB.remove_footers T3) in *.
  assert (forall sel, sel ∈ [ sel_html; sel_section "left"; sel_section "right";
                              sel_section_p "left"; sel_section_p "right";
                              sel_section_h3 "left"; sel_section_h3 "right" ] ->
                      blind (by_selector sel)) as Hblind.
  { intros sel Hsel. repeat (apply elem_of_cons in Hsel as [->|Hsel]; [blind_selector|]).
    by apply elem_of_nil in Hsel. }
  split.
  - apply Forall_cons in Hlast as [Hlast _].
    apply (lasting_set_lang _ _ (Some l)) in Hlast; [|done|blind_selector].
    destruct (root_lang _ l base T4 Hbl (from_start_capped _ _) Hs Hhtml Ht Hlast Hp4)
      as (h & t & a & ks & Hh & Hg & Ha).
    rewrite Forall_forall in Hout.
    assert (never_inside (by_selector sel_html) notes T4) as Hn.
    { eapply never_inside_run; [apply Hblind; pick|apply blind_notes| |exact Hp4].
      apply Hout. pick. }
    destruct (relocate_list sel_html T4 Hn) as (f & Hf & Hlab).
    apply list_elem_of_lookup_2 in Hh as Hhin.
    rewrite Forall_forall in Hlab. specialize (Hlab h Hhin).
    destruct (label_elem _ _ _ _ _ _ _ Hlab Hg) as (ks' & Hg').
    exists (f h), t, a, ks'. split_and!; [|done..].
    unfold select_one. rewrite Hf.
    destruct (select sel_html T4) as [|h' r']; [done|]. cbn in Hh |- *. congruence.
  - intros side i x' text Hside Hx' Htext.
    assert (i < 5) as Hi.
    { apply lookup_lt_Some in Htext. by rewrite (desired_length _ _ Hl) in Htext. }
    rewrite Forall_forall in Hout, Hin.
    assert (sel_section_h3 side ∈ [sel_section_h3 "left"; sel_section_h3 "right"]) as Hsel.
    { apply elem_of_cons in Hside as [->|Hside]; [pick|].
      apply list_elem_of_singleton in Hside as ->. pick. }
    assert (blind (by_selector (sel_section_h3 side))) as Hbs.
    { apply Hblind. do 5 right. exact Hsel. }
    destruct (relocate_position (sel_section_h3 side) T4 i x') as (y & Hy & Hgy); [| |done|].
    { eapply never_inside_run; [done|apply blind_notes| |exact Hp4].
      apply Hout. do 5 right. exact Hsel. }
    { eapply never_inside_run; [apply blind_notes|done| |exact Hp4].
      apply Hin. do 2 right. exact Hsel. }
    assert ((sel_section_h3 side, 5) ∈ slot_caps_B ++ heading_caps (Some l)) as Hc.
    { apply elem_of_app. right. by apply heading_caps_in. }
    destruct (headings_written (slot_caps_B ++ heading_caps (Some l))
                (destroyed (plan_B (Some l))) VariantB.set_rich_text l labels mid
                (plan_B (Some l)))
      as (_ & Ht3 & Hcontent); [done|done| | |done|by eapply desired_plain| | |].
    { apply elem_of_app. right. apply heading_caps_in; [done|pick]. }
    { apply elem_of_app. right. apply heading_caps_in; [done|pick]. }
    { apply sub_layout_refl. }
    { intros s idx Hs' Hidx. apply covers_capped.
      apply (below_cap_elem _ _ 5); [|done].
      apply elem_of_app. right. by apply heading_caps_in. }
    fold T3 in Ht3, Hcontent.
    destruct (position_phase (slot_caps_B ++ heading_caps (Some l))
                (destroyed (plan_B (Some l))) [] T3 T4 (sel_section_h3 side) 5 i)
      as (_ & Hback); [done|done|done|done|constructor| |].
    { by apply plan_B_footers. }
    destruct (Hback y Hy) as (x & Hx & Hgx).
    destruct (Hcontent side i x text Hside Hx Htext) as (t & a & Hg).
    exists t, a. by rewrite Hgy, Hgx.
Qed.

(** ** Variant A on a tidy document *)

Lemma slots_A_below_cap :
  Forall (fun e : string * (selector * nat) => below_cap slot_caps_A e.2) slots_A.
Proof. apply (bool_decide_unpack _). by vm_compute. Qed.

Lemma plan_A_tidy label_lang soup soup' :
  tidy (plan_A label_lang) soup -> phase (plan_A label_lang) soup soup' ->
  tidy (plan_A label_lang) soup'.
Proof.
  apply tidy_phase; [apply blind_plan_A|apply from_start_capped|apply sub_layout_refl].
Qed.

Lemma headings_overwritten_A base fields l labels out :
  STATIC_LABELS !! l = Some labels -> select sel_html base <> [] ->
  well_formed_A (Some l) base ->
  VariantA.apply_fields_to_html base fields (Some l) = Some out ->
  localized l labels out.
Proof.
  intros Hl Hhtml (Ht & Hlast) Happ.
  rewrite apply_A_steps in Happ.
  destruct (write_slots _ _ _ _) as [sp|] eqn:Hsp; [|done].
  assert (write_slots VariantA.set_string footer_slots fields
            (translate_headings VariantA.set_string (Some l) sp) = Some out) as Hfin
    by exact Happ.
  clear Happ.
  destruct (static_labels_cases _ _ Hl) as [Hs _].
  pose proof (blind_plan_A (Some l)) as Hbl.
  apply (tidy_set_lang _ (Some l)) in Ht; [|done].
  pose proof slots_A_below_cap as Hcaps. unfold slots_A in Hcaps.
  rewrite !app_assoc in Hcaps. apply Forall_app in Hcaps as [Hcaps1 Hcaps2].
  rewrite <- !app_assoc in Hcaps1.
  assert (phase (plan_A (Some l)) (set_lang (Some l) base) sp) as Hp1.
  { eapply (write_slots_capped _ _ _ _ _ _ _ writer_set_string); [|exact Hsp].
    eapply Forall_impl; [exact Hcaps1|]. intros e He. by apply below_cap_app_l. }
  pose proof (plan_A_tidy _ _ _ Ht Hp1) as Ht2.
  destruct (headings_written (slot_caps_A ++ heading_caps (Some l)) []
              VariantA.set_string l labels sp (plan_A (Some l)))
    as (Hp3 & Ht3 & Hcontent); [done|done| | |done| | | |].
  { apply elem_of_app. right. apply heading_caps_in; [done|pick]. }
  { apply elem_of_app. right. apply heading_caps_in; [done|pick]. }
  { apply Forall_true. apply plain_set_string. }
  { apply sub_layout_refl. }
  { intros s idx Hs' Hidx. apply covers_capped.
    apply (below_cap_elem _ _ 5); [|done].
    apply elem_of_app. right. by apply heading_caps_in. }
  set (T3 := translate_headings VariantA.set_string (Some l) sp) in *.
  assert (phase (Layout (positions (map snd footer_slots)) []) T3 out) as Hp4.
  { eapply (write_slots_positions _ _ _ _ _ _ _ writer_set_string); [|exact Hfin].
    repeat constructor; cbn; pick. }
  assert (Forall (below_cap (slot_caps_A ++ heading_caps (Some l))) (map snd footer_slots))
    as Hbelow.
  { rewrite Forall_fmap. eapply Forall_impl; [exact Hcaps2|].
    intros e He. by apply below_cap_app_l. }
  split.
  - destruct (root_lang _ l base out Hbl (from_start_capped _ _) Hs Hhtml Ht)
      as (h & t & a & ks & Hh & Hg & Ha).
    + apply (lasting_set_lang _ _ (Some l)) in Hlast; [done|done|blind_selector].
    + eapply phase_trans; [exact Hp1|]. eapply phase_trans; [exact Hp3|].
      eapply phase_sub; [|exact Hp4]. by apply positions_sub.
    + exists h, t, a, ks. split_and!; [|done..].
      unfold select_one. destruct (select sel_html out); [done|]. cbn in Hh |- *. congruence.
  - intros side i x' text Hside Hx' Htext.
    assert (i < 5) as Hi.
    { apply lookup_lt_Some in Htext. by rewrite (desired_length _ _ Hl) in Htext. }
    assert ((sel_section_h3 side, 5) ∈ slot_caps_A ++ heading_caps (Some l)) as Hc.
    { apply elem_of_app. right. by apply heading_caps_in. }
    destruct (position_phase (slot_caps_A ++ heading_caps (Some l)) []
                (map snd footer_slots) T3 out (sel_section_h3 side) 5 i)
      as (_ & Hback); [done|done|done|done| |done|].
    { apply Forall_forall. intros p Hp. split; [by eapply Forall_forall in Hbelow|].
      intros ->. cbn in Hp.
      repeat (apply elem_of_cons in Hp as [Hp|Hp]; [discriminate Hp|]).
      by apply elem_of_nil in Hp. }
    destruct (Hback x' Hx') as (x & Hx & Hgx).
    destruct (Hcontent side i x text Hside Hx Htext) as (t & a & Hg).
    exists t, a. by rewrite Hgx.
Qed.

(** C7, as the code has it.  With a label language of [STATIC_LABELS], on a
    document of the template that has an [html] element, the first [html]
    element of the result carries the language and every heading of the
    two panels holds the vocabulary of its position. *)
Theorem headings_overwritten (base : node) (fields : gmap string string)
    (l : string) (labels : gmap string string) :
  STATIC_LABELS !! l = Some labels ->
  select sel_html base <> [] ->
  (well_formed_A (Some l) base ->
   forall out, VariantA.apply_fields_to_html base fields (Some l) = Some out ->
               localized l labels out)
  /\ (well_formed_B (Some l) base ->
      forall out, VariantB.apply_fields_to_html base fields (Some l) = Some out ->
                  localized l labels out).
Proof.
  intros Hl Hhtml. split; intros Hwf out Hout.
  - by eapply headings_overwritten_A.
  - by eapply headings_overwritten_B.
Qed.


Lemma headings_overwritten_witness :
  exists labels out,
    STATIC_LABELS !! "en" = Some labels
    /\ VariantB.apply_fields_to_html sample_doc
         (VariantB.parse_html_fields sample_doc) (Some "en") = Some out
    /\ localized "en" labels out.
Proof.
  eexists _, _. split; [by vm_compute|]. split; [by vm_compute|].
  refine (proj2 (headings_overwritten sample_doc
                   (VariantB.parse_html_fields sample_doc) "en" _ _ _) _ _ _).
  - by vm_compute.
  - by vm_compute.
  - apply (bool_decide_unpack _). by vm_compute.
  - by vm_compute.
Defined.

(** Without an [html] element nothing carries the language: no element of
    the result has a [lang] attribute. *)
Lemma no_root_no_language :
  select sel_html bare_doc = []
  /\ (exists out,
        VariantA.apply_fields_to_html bare_doc
          (VariantA.parse_html_fields bare_doc) (Some "en") = Some out
        /\ Forall (fun la => get_attr "lang" la.2 = None) (labels out))
  /\ (exists out,
        VariantB.apply_fields_to_html bare_doc
          (VariantB.parse_html_fields bare_doc) (Some "en") = Some out
        /\ Forall (fun la => get_attr "lang" la.2 = None) (labels out)).
Proof.
  split; [reflexivity|]. split.
  - eexists. split; [by vm_compute|]. apply (bool_decide_unpack _). by vm_compute.
  - eexists. split; [by vm_compute|]. apply (bool_decide_unpack _). by vm_compute.
Qed.

(** ** The trim of Variant B *)

Lemma trim_length sel keep soup :
  length (select sel (VariantB.trim sel keep soup)) <= keep.
Proof.
  unfold VariantB.trim. case_decide as Hk; [|lia].
  change (select sel) with (walk_root chain_step sel).
  rewrite walk_root_decompose. rewrite length_take. lia.
Qed.

Lemma trim_sections_bound side soup :
  side ∈ ["left"; "right"] ->
  length (select (sel_section side) (VariantB.trim_sections soup)) <= 5.
Proof.
  intros Hside. unfold VariantB.trim_sections.
  assert (forall sel keep sp,
            (by_selector sel, keep) ∈ trimmed_B ->
            phase (plan_B None) sp (VariantB.trim sel keep sp)) as Hph.
  { intros sel keep sp Hin. apply trim_phase. cbn [plan_B destroyed].
    apply elem_of_app. by left. }
  apply elem_of_cons in Hside as [->|Hside];
    [|apply list_elem_of_singleton in Hside as ->].
  - etrans; [apply (ask_length_phase (plan_B None) (by_selector (sel_section "left")));
             [blind_selector|]|].
    { eapply phase_trans; apply Hph; pick. }
    apply trim_length.
  - etrans; [apply (ask_length_phase (plan_B None) (by_selector (sel_section "right")));
             [blind_selector|]|].
    { apply Hph; pick. }
    apply trim_length.
Qed.

(** ** What a slot holds after the synthesis *)

Lemma write_slot_content caps D write sel n i v soup x new :
  blind_layout (Layout (capped caps) D) -> tidy (Layout (capped caps) D) soup ->
  (sel, n) ∈ caps -> i < n ->
  Forall is_text_or_br new -> (forall el, write v el = set_kids new el) ->
  select sel (write_slot write soup sel i v) !! i = Some x ->
  exists t a, get x (write_slot write soup sel i v) = Some (Elem t a new).
Proof.
  intros Hbl Ht Hc Hi Hnew Hw. unfold write_slot.
  destruct (select sel soup !! i) as [x0|] eqn:Hx0; [|intros H; by rewrite Hx0 in H].
  rewrite (update_ext x0 _ _ soup Hw).
  assert (licensed (Layout (capped caps) D) (Write x0 new) soup) as Hl.
  { split; [done|]. exists (by_selector sel), (0, Some n). split.
    - cbn. unfold capped. apply list_elem_of_fmap. by exists (sel, n).
    - apply (within_lookup _ _ i); [cbn; lia|done|done]. }
  destruct (tidy_edit _ _ soup Hbl (from_start_capped _ _) Ht Hl) as [Hst _].
  pose proof (licensed_sound _ _ _ Hl) as Hso.
  assert ((by_selector sel, (0, Some n)) ∈ written (Layout (capped caps) D)) as Hw'.
  { cbn. unfold capped. apply list_elem_of_fmap. by exists (sel, n). }
  destruct Hbl as [HbW _]. unfold steady in Hst. rewrite Forall_forall in Hst, HbW.
  pose proof (upto_steady (by_selector sel) n _ soup (HbW _ Hw') Hso (Hst _ Hw')) as E.
  cbn [apply_edit rename_edit] in E. rewrite map_id in E.
  apply (f_equal (fun l => l !! i)) in E. rewrite !lookup_take_lt in E by done.
  change (ask (by_selector sel)) with (select sel) in E. rewrite E, Hx0.
  intros [= <-]. destruct Hso as (_ & (t & a & ks & Hg) & _). cbn in Hg.
  exists t, a. by rewrite get_update_at, Hg.
Qed.

Lemma heading_positions_in label_lang side idx :
  lang_supported label_lang = true -> side ∈ ["left"; "right"] -> idx < 5 ->
  (sel_section_h3 side, idx) ∈ heading_positions label_lang.
Proof.
  intros Hs Hside Hidx. unfold heading_positions. rewrite Hs.
  apply elem_of_cons in Hside as [->|Hside];
    [|apply list_elem_of_singleton in Hside as ->];
    do 5 (destruct idx as [|idx]; [pick|]); lia.
Qed.

Lemma heading_positions_below caps label_lang :
  Forall (below_cap (caps ++ heading_caps label_lang)) (heading_positions label_lang).
Proof.
  unfold heading_positions, heading_caps. destruct (lang_supported label_lang); [|constructor].
  apply Forall_forall. intros p Hp. apply below_cap_app_r. revert p Hp.
  apply Forall_forall. apply (bool_decide_unpack _). by vm_compute.
Qed.

Lemma translate_headings_positions caps D ps0 write label_lang soup :
  blind_layout (Layout (capped (caps ++ heading_caps label_lang)) D) ->
  tidy (Layout (capped (caps ++ heading_caps label_lang)) D) soup ->
  Forall (below_cap (caps ++ heading_caps label_lang)) ps0 ->
  (forall l labels, STATIC_LABELS !! l = Some labels ->
                    Forall (plain write) (desired labels)) ->
  phase (Layout (positions (ps0 ++ heading_positions label_lang)) D) soup
    (translate_headings write label_lang soup).
Proof.
  intros Hbl Ht Hps Hplain. destruct label_lang as [l|]; [|apply phase_refl].
  destruct (STATIC_LABELS !! l) as [labels|] eqn:Hl.
  2:{ unfold translate_headings. rewrite Hl. apply phase_refl. }
  destruct (static_labels_cases _ _ Hl) as [Hs _].
  eapply (headings_written _ D write l labels soup); eauto.
  - apply elem_of_app. right. apply heading_caps_in; [done|pick].
  - apply elem_of_app. right. apply heading_caps_in; [done|pick].
  - apply positions_sub, Forall_app. split; [done|apply heading_positions_below].
  - intros side idx Hside Hidx. apply covers_positions.
    apply elem_of_app. right. by apply heading_positions_in.
Qed.

Lemma capped_elem_of caps D sel n :
  (sel, n) ∈ caps -> (by_selector sel, (0, Some n)) ∈ written (Layout (capped caps) D).
Proof. intros H. cbn. unfold capped. apply list_elem_of_fmap. by exists (sel, n). Qed.

Lemma slots_B_NoDup : NoDup (map snd slots_B).
Proof. apply (bool_decide_unpack _). by vm_compute. Qed.

Lemma heading_positions_last label_lang :
  Forall (fun p : selector * nat => last p.1 = Some (by_tag "h3"))
         (heading_positions label_lang).
Proof.
  unfold heading_positions. destruct (lang_supported label_lang); [|constructor].
  repeat constructor.
Qed.

(** C5, as the code has it.  Variant B, on a document of its template in
    which a panel has more than five sections, leaves exactly five
    sections in that panel, and the paragraph at each of the five
    positions of the panel holds the line-broken value of the field of
    that position. *)
Theorem sections_trimmed (base : node) (fields : gmap string string)
    (label_lang : option string) (side : string) (out : node) :
  side ∈ ["left"; "right"] ->
  well_formed_B label_lang base ->
  5 < length (select (sel_section side) base) ->
  VariantB.apply_fields_to_html base fields label_lang = Some out ->
  length (select (sel_section side) out) = 5
  /\ forall key i x,
       (key, (sel_section_p side, i)) ∈ slots_B ->
       select (sel_section_p side) out !! i = Some x ->
       exists v t a,
         fields !! key = Some v
         /\ get x out
            = Some (Elem t a (VariantB.rich_nodes
                                (Str.split Str.nl (Str.normalize_newlines v)))).
Proof.
  intros Hside (Ht & Hlast & Hout & Hin) Hlen Happ.
  rewrite apply_B_steps in Happ.
  destruct (write_slots _ _ _ _) as [mid|] eqn:Hmid; [|done].
  assert (out = VariantB.relocate_user_panel
                  (VariantB.remove_footers
                     (translate_headings VariantB.set_rich_text label_lang mid))) as ->.
  { cbn [mbind option_bind] in Happ. by injection Happ as <-. }
  clear Happ.
  pose proof (blind_plan_B label_lang) as Hbl.
  apply (tidy_set_lang _ label_lang) in Ht; [|done].
  set (T0 := set_lang label_lang base) in *.
  set (T1 := VariantB.trim_sections T0) in *.
  set (T3 := translate_headings VariantB.set_rich_text label_lang mid).
  set (T4 := VariantB.remove_footers T3).
  assert (phase (plan_B label_lang) T0 T1) as Hp01.
  { apply trim_sections_phase. intros x Hx. apply elem_of_app. by left. }
  pose proof (plan_B_tidy _ _ _ Ht Hp01) as Ht1.
  assert (phase (plan_B label_lang) T1 mid) as Hp1m.
  { eapply (write_slots_capped _ _ _ _ _ _ _ writer_set_rich_text); [|exact Hmid].
    eapply Forall_impl; [apply slots_B_below_cap|].
    intros e He. by apply below_cap_app_l. }
  pose proof (plan_B_tidy _ _ _ Ht1 Hp1m) as Htm.
  assert (phase (plan_B label_lang) mid T4) as Hpm4.
  { eapply phase_trans.
    - apply translate_headings_plan; [done|done|apply desired_plain].
    - by apply plan_B_footers. }
  assert (phase (plan_B label_lang) T0 T4) as Hp04.
  { eapply phase_trans; [exact Hp01|]. eapply phase_trans; [exact Hp1m|exact Hpm4]. }
  rewrite Forall_forall in Hout, Hin.
  assert (blind (by_selector (sel_section side))) as Hbsec.
  { apply elem_of_cons in Hside as [->|Hside]; [blind_selector|].
    apply list_elem_of_singleton in Hside as ->. blind_selector. }
  assert (blind (by_selector (sel_section_p side))) as Hbp.
  { apply elem_of_cons in Hside as [->|Hside]; [blind_selector|].
    apply list_elem_of_singleton in Hside as ->. blind_selector. }
  split.
  - assert (lasting (plan_B label_lang) base (by_selector (sel_section side), 5)) as Hla.
    { rewrite Forall_forall in Hlast. apply Hlast.
      apply elem_of_cons in Hside as [->|Hside]; [pick|].
      apply list_elem_of_singleton in Hside as ->. pick. }
    apply (lasting_set_lang _ _ label_lang) in Hla; [|done|done]. fold T0 in Hla.
    destruct (lasting_phase (plan_B label_lang) (by_selector (sel_section side), 5)
                T0 T4 Hbsec Hbl (from_start_capped _ _) Ht Hla Hp04)
      as (_ & f & Hpre & _).
    cbn [fst snd] in Hpre.
    change (ask (by_selector (sel_section side))) with (select (sel_section side)) in Hpre.
    assert (select (sel_section side) T0 = select (sel_section side) base) as E0.
    { apply (ask_set_lang (by_selector (sel_section side))). done. }
    apply (f_equal length) in Hpre.
    rewrite length_fmap, !length_take, E0 in Hpre.
    assert (length (select (sel_section side) T4) <= 5) as Hup.
    { etrans; [apply (ask_length_phase (plan_B label_lang) (by_selector (sel_section side)) T1);
               [done|]|].
      - eapply phase_trans; [exact Hp1m|exact Hpm4].
      - by apply trim_sections_bound. }
    destruct (relocate_list (sel_section side) T4) as (g & Hg & _).
    { eapply never_inside_run; [done|apply blind_notes| |exact Hp04].
      apply Hout. apply elem_of_cons in Hside as [->|Hside]; [pick|].
      apply list_elem_of_singleton in Hside as ->. pick. }
    rewrite Hg, length_fmap. lia.
  - intros key i x' Hkey Hx'.
    pose proof slots_B_below_cap as Hcaps.
    pose proof slots_B_NoDup as Hnd.
    apply list_elem_of_split in Hkey as (s1 & s2 & Hsplit).
    rewrite Hsplit in Hmid, Hcaps, Hnd.
    apply Forall_app in Hcaps as [Hc1 Hc2]. apply Forall_cons in Hc2 as [Hce Hc2].
    cbn [snd] in Hce.
    apply Exists_exists in Hce as ([sel' n] & Hcin & Hsel & Hlt).
    cbn [fst snd] in Hsel, Hlt. subst sel'.
    rewrite fmap_app, fmap_cons in Hnd. cbn [snd] in Hnd.
    apply NoDup_app in Hnd as (_ & _ & Hnd). apply NoDup_cons in Hnd as [Hnotin _].
    rewrite write_slots_app in Hmid.
    destruct (write_slots _ s1 _ _) as [Ta|] eqn:HTa; [|done].
    cbn [mbind option_bind] in Hmid.
    rewrite write_slots_cons in Hmid. cbn [fst snd] in Hmid.
    destruct (fields !! key) as [v|] eqn:Hv; [|done]. cbn [mbind option_bind] in Hmid.
    set (Tb := write_slot VariantB.set_rich_text Ta (sel_section_p side) i v) in *.
    set (caps := slot_caps_B ++ heading_caps label_lang) in *.
    assert ((sel_section_p side, n) ∈ caps) as Hcin'.
    { apply elem_of_app. by left. }
    assert (phase (plan_B label_lang) T1 Ta) as Hp1a.
    { eapply (write_slots_capped _ _ _ _ _ _ _ writer_set_rich_text); [|exact HTa].
      eapply Forall_impl; [exact Hc1|]. intros e He. by apply below_cap_app_l. }
    pose proof (plan_B_tidy _ _ _ Ht1 Hp1a) as Hta.
    assert (phase (plan_B label_lang) Ta Tb) as Hpab.
    { apply (write_slot_phase _ _ _ _ _ _ (0, Some n));
        [apply writer_set_rich_text| |cbn; lia|done].
      by apply (capped_elem_of caps). }
    pose proof (plan_B_tidy _ _ _ Hta Hpab) as Htb.
    set (ps := map snd s2 ++ heading_positions label_lang).
    assert (Forall (below_cap caps) (map snd s2)) as Hbelow2.
    { rewrite Forall_fmap. eapply Forall_impl; [exact Hc2|].
      intros e He. by apply below_cap_app_l. }
    assert (phase (Layout (positions ps) (destroyed (plan_B label_lang))) Tb T4) as Hpb4.
    { eapply phase_trans.
      - eapply (write_slots_positions _ _ _ _ _ _ _ writer_set_rich_text); [|exact Hmid].
        apply Forall_forall. intros e He. apply elem_of_app. left.
        apply list_elem_of_fmap. by exists e.
      - eapply phase_trans.
        + apply (translate_headings_positions slot_caps_B); [done|done|done|apply desired_plain].
        + by apply plan_B_footers. }
    destruct (position_phase caps (destroyed (plan_B label_lang)) ps Tb T4
                (sel_section_p side) n i) as (_ & Hback); [done|done|done|done| |done|].
    { apply Forall_app. split.
      - apply Forall_forall. intros p Hp. split; [by eapply Forall_forall in Hbelow2|].
        by intros ->.
      - pose proof (heading_positions_below slot_caps_B label_lang) as Hhb.
        pose proof (heading_positions_last label_lang) as Hhl.
        apply Forall_forall. intros p Hp. rewrite Forall_forall in Hhb, Hhl.
        split; [by apply Hhb|]. intros ->. specialize (Hhl _ Hp). by cbn in Hhl. }
    destruct (relocate_position (sel_section_p side) T4 i x') as (y & Hy & Hgy); [| |done|].
    { eapply never_inside_run; [done|apply blind_notes| |exact Hp04].
      apply Hout. apply elem_of_cons in Hside as [->|Hside]; [pick|].
      apply list_elem_of_singleton in Hside as ->. pick. }
    { eapply never_inside_run; [apply blind_notes|done| |exact Hp04].
      apply Hin. apply elem_of_cons in Hside as [->|Hside]; [pick|].
      apply list_elem_of_singleton in Hside as ->. pick. }
    destruct (Hback y Hy) as (x & Hx & Hgx).
    destruct (write_slot_content caps (destroyed (plan_B label_lang))
                VariantB.set_rich_text (sel_section_p side) n i v Ta x
                (VariantB.rich_nodes (Str.split Str.nl (Str.normalize_newlines v))))
      as (t & a & Hg); [done|done|done|done|apply rich_nodes_flat|done|done|].
    exists v, t, a. split; [done|]. by rewrite Hgy, Hgx.
Qed.

Lemma sections_trimmed_witness :
  exists out,
    VariantB.apply_fields_to_html seven_doc
      (VariantB.parse_html_fields seven_doc) None = Some out
    /\ length (select (sel_section "left") out) = 5.
Proof.
  eexists. split; [by vm_compute|].
  refine (proj1 (sections_trimmed seven_doc (VariantB.parse_html_fields seven_doc)
                   None "left" _ _ _ _ _)).
  - apply (bool_decide_unpack _). by vm_compute.
  - apply (bool_decide_unpack _). by vm_compute.
  - vm_compute. lia.
  - by vm_compute.
Defined.

(** Variant A has no trim: the seven sections of the panel are all still
    there. *)
Lemma variant_A_keeps_extra_sections :
  length (select (sel_section "left") seven_doc) = 7
  /\ exists out,
       VariantA.apply_fields_to_html seven_doc
         (VariantA.parse_html_fields seven_doc) None = Some out
       /\ length (select (sel_section "left") out) = 7.
Proof.
  split; [reflexivity|]. eexists. split; by vm_compute.
Qed.
(** * The code around the extractor and the synthesizer *)

(** ** Missing keys *)

Lemma write_slots_is_Some write slots fields soup :
  is_Some (write_slots write slots fields soup)
  <-> Forall (fun e : string * (selector * nat) => is_Some (fields !! e.1)) slots.
Proof.
  revert soup. induction slots as [|e slots IH]; intros soup.
  - split; [constructor | by eexists].
  - rewrite write_slots_cons, Forall_cons.
    destruct (fields !! e.1) as [v|]; cbn [mbind option_bind].
    + rewrite IH. split; [by split | by intros [_ ?]].
    + split; [by intros [? ?] | by intros [[? ?] _]].
Qed.

Lemma slots_keys_present (slots : list (string * (selector * nat)))
    (fields : gmap string string) :
  Forall (fun e : string * (selector * nat) => is_Some (fields !! e.1)) slots
  <-> Forall (fun k => is_Some (fields !! k)) slots.*1.
Proof. by rewrite Forall_fmap. Qed.

Lemma apply_B_is_Some base fields label_lang :
  is_Some (VariantB.apply_fields_to_html base fields label_lang)
  <-> Forall (fun k => is_Some (fields !! k)) VariantB.FIELD_KEYS.
Proof.
  rewrite apply_B_steps, <- slots_B_keys, <- slots_keys_present.
  rewrite <- (write_slots_is_Some VariantB.set_rich_text slots_B fields
                (VariantB.trim_sections (set_lang label_lang base))).
  destruct (write_slots _ _ _ _) as [sp|]; cbn [mbind option_bind]; [|done].
  split; by eexists.
Qed.

Lemma apply_A_is_Some base fields label_lang :
  is_Some (VariantA.apply_fields_to_html base fields label_lang)
  <-> Forall (fun k => is_Some (fields !! k)) VariantA.FIELD_KEYS.
Proof.
  rewrite apply_A_steps, <- slots_A_keys, <- slots_keys_present.
  unfold slots_A. rewrite !app_assoc, Forall_app, <- !app_assoc.
  rewrite <- (write_slots_is_Some VariantA.set_string
                (head_slots ++ left_slots ++ right_slots) fields
                (set_lang label_lang base)).
  destruct (write_slots _ (head_slots ++ _) _ _) as [sp|]; cbn [mbind option_bind].
  - rewrite <- (write_slots_is_Some VariantA.set_string footer_slots fields
                  (translate_headings VariantA.set_string label_lang sp)).
    split; [intros H; split; [by eexists | done] | by intros [_ ?]].
  - split; [by intros [? ?] | by intros [[? ?] _]].
Qed.

(** X1. [apply_fields_to_html] reads every key of the schema with
    [fields[k]]: whatever the base document and the label language are, it
    returns a document when the field map has every key of [FIELD_KEYS],
    and raises for a missing key otherwise; keys outside the schema do not
    matter. *)
Theorem synthesize_needs_every_key (base : node) (fields : gmap string string)
    (label_lang : option string) :
  (is_Some (VariantA.apply_fields_to_html base fields label_lang)
   <-> Forall (fun k => is_Some (fields !! k)) VariantA.FIELD_KEYS)
  /\ (is_Some (VariantB.apply_fields_to_html base fields label_lang)
      <-> Forall (fun k => is_Some (fields !! k)) VariantB.FIELD_KEYS).
Proof. split; [apply apply_A_is_Some | apply apply_B_is_Some]. Qed.

Lemma parse_A_keys soup :
  Forall (fun k => is_Some (VariantA.parse_html_fields soup !! k)) VariantA.FIELD_KEYS.
Proof.
  rewrite <- slots_A_keys. apply Forall_fmap, Forall_forall.
  intros [k [sel i]] Hin. change (is_Some (VariantA.parse_html_fields soup !! k)).
  by rewrite (parse_A_lookup soup k sel i Hin).
Qed.

Lemma parse_B_keys soup :
  Forall (fun k => is_Some (VariantB.parse_html_fields soup !! k)) VariantB.FIELD_KEYS.
Proof.
  rewrite <- slots_B_keys. apply Forall_fmap, Forall_forall.
  intros [k [sel i]] Hin. change (is_Some (VariantB.parse_html_fields soup !! k)).
  by rewrite (parse_B_lookup soup k sel i Hin).
Qed.

(** X2. What the extractor returns for any document is accepted by the
    synthesizer of the same variant over any base document and with any
    label language: the call does not raise. *)
Theorem extracted_fields_accepted (soup base : node) (label_lang : option string) :
  is_Some (VariantA.apply_fields_to_html base (VariantA.parse_html_fields soup) label_lang)
  /\ is_Some (VariantB.apply_fields_to_html base (VariantB.parse_html_fields soup) label_lang).
Proof.
  split; [apply apply_A_is_Some, parse_A_keys | apply apply_B_is_Some, parse_B_keys].
Qed.

(** ** Stripped texts *)













Lemma parse_A_outside soup k :
  k ∉ VariantA.FIELD_KEYS -> VariantA.parse_html_fields soup !! k = None.
Proof.
  intros Hout. unfold VariantA.parse_html_fields.
  rewrite fill_defaults_lookup, bool_decide_false by done.
  rewrite slot_texts_A_table. unfold slot_table.
  apply not_elem_of_list_to_map_1. rewrite <- list_fmap_compose.
  change (k ∉ slots_A.*1). by rewrite slots_A_keys.
Qed.

Lemma parse_B_outside soup k :
  k ∉ VariantB.FIELD_KEYS -> VariantB.parse_html_fields soup !! k = None.
Proof.
  intros Hout. unfold VariantB.parse_html_fields.
  rewrite fill_defaults_lookup, bool_decide_false by done.
  rewrite slot_texts_B_table. unfold slot_table.
  apply not_elem_of_list_to_map_1. rewrite <- list_fmap_compose.
  change (k ∉ slots_B.*1). by rewrite slots_B_keys.
Qed.



(** ** The names of the form's text areas *)

Lemma static_names_length lang defaults :
  static_names lang = Some defaults -> length defaults = 5.
Proof.
  unfold static_names. destruct (STATIC_LABELS !! lang) as [labels|] eqn:E; [|done].
  intros [= <-]. by eapply desired_length.
Qed.

Lemma pad5_long lst lang : 5 <= length lst -> _pad5 lst lang = Some (take 5 lst).
Proof. intros H. unfold _pad5. by rewrite decide_True. Qed.

Lemma pad5_short lst lang defaults :
  length lst < 5 -> static_names lang = Some defaults ->
  _pad5 lst lang = Some (lst ++ drop (length lst) defaults).
Proof.
  intros H Hd. unfold _pad5. rewrite decide_False by lia. rewrite Hd.
  cbn [mbind option_bind]. rewrite decide_True by lia.
  rewrite (static_names_length _ _ Hd). do 3 f_equal. lia.
Qed.

Lemma pad5_spec lst lang defaults :
  static_names lang = Some defaults ->
  exists out,
    _pad5 lst lang = Some out
    /\ length out = 5
    /\ (forall i, i < 5 ->
          out !! i = if decide (i < length lst) then lst !! i else defaults !! i).
Proof.
  intros Hd. pose proof (static_names_length _ _ Hd) as Hlen.
  destruct (decide (5 <= length lst)) as [Hl|Hl].
  - exists (take 5 lst). split; [by apply pad5_long|]. split.
    + rewrite length_take. lia.
    + intros i Hi. rewrite decide_True by lia. by rewrite lookup_take_lt.
  - exists (lst ++ drop (length lst) defaults).
    split; [apply pad5_short; [lia | done]|]. split.
    + rewrite length_app, length_drop. lia.
    + intros i Hi. case_decide as Hil.
      * by rewrite lookup_app_l.
      * rewrite lookup_app_r by lia. rewrite lookup_drop. f_equal. lia.
Qed.

(** X4. [_pad5] with a fallback language that has labels returns exactly
    five names: the first names of the list it is given (at most five), then
    for every position the list does not reach the label that the fallback
    language has for that same position. *)
Theorem pad5_five_names (lst : list string) (lang : string) (defaults : list string) :
  static_names lang = Some defaults ->
  exists out,
    _pad5 lst lang = Some out
    /\ length out = 5
    /\ (forall i, i < 5 ->
          out !! i = if decide (i < length lst) then lst !! i else defaults !! i).
Proof. apply pad5_spec. Qed.

Lemma pad5_five_names_witness :
  exists out,
    _pad5 ["Team"; "Flow"] "sl" = Some out
    /\ length out = 5
    /\ (forall i, i < 5 ->
          out !! i = if decide (i < length ["Team"; "Flow"]) then ["Team"; "Flow"] !! i
                     else ["Ljudje:"; "Proces:"; "Tehnologija:"; "Podatki:"; "Output:"] !! i).
Proof.
  apply (pad5_five_names ["Team"; "Flow"] "sl"
           ["Ljudje:"; "Proces:"; "Tehnologija:"; "Podatki:"; "Output:"]).
  by vm_compute.
Defined.


(** ** The session state *)

Lemma foldl_insert_lookup (f : string -> sval) (l : list string) (st : session) k :
  foldl (fun st k => <[k := f k]> st) st l !! k
  = if bool_decide (k ∈ l) then Some (f k) else st !! k.
Proof.
  revert st. induction l as [|a l IH]; intros st; [done|].
  cbn [foldl]. rewrite IH.
  destruct (decide (k ∈ l)) as [Hl|Hl].
  - rewrite !bool_decide_true; [done | by right | done].
  - rewrite (bool_decide_false (k ∈ l)) by done.
    destruct (decide (k = a)) as [->|Hne].
    + rewrite lookup_insert_eq, bool_decide_true; [done | by left].
    + rewrite lookup_insert_ne by done.
      rewrite bool_decide_false; [done|]. by intros [?|?]%elem_of_cons.
Qed.

Lemma foldl_delete_lookup (keys l : list string) (st : session) k :
  foldl (fun st k => if bool_decide (k ∈ keys) then delete k st else st) st l !! k
  = if bool_decide (k ∈ keys /\ k ∈ l) then None else st !! k.
Proof.
  revert st. induction l as [|a l IH]; intros st.
  - cbn. rewrite bool_decide_false; [done|]. by intros [_ ?%elem_of_nil].
  - cbn [foldl]. rewrite IH.
    destruct (decide (k ∈ keys /\ k ∈ l)) as [Hl|Hl].
    + rewrite !bool_decide_true; [done | | done]. split; [apply Hl | right; apply Hl].
    + rewrite (bool_decide_false (k ∈ keys /\ k ∈ l)) by done.
      destruct (decide (k = a)) as [->|Hne].
      * destruct (decide (a ∈ keys)) as [Ha|Ha].
        -- rewrite (bool_decide_true (a ∈ keys)) by done.
           rewrite lookup_delete_eq, bool_decide_true; [done|]. split; [done | by left].
        -- rewrite (bool_decide_false (a ∈ keys)) by done.
           rewrite bool_decide_false; [done|]. by intros [? _].
      * assert ((if bool_decide (a ∈ keys) then delete a st else st) !! k = st !! k) as ->.
        { destruct (bool_decide (a ∈ keys)); [by apply lookup_delete_ne | done]. }
        rewrite bool_decide_false; [done|].
        intros [? [?|?]%elem_of_cons]; [done | by apply Hl].
Qed.

Lemma mapM_total {A B : Type} (f : A -> option B) (g : A -> B) (l : list A) :
  (forall x, x ∈ l -> f x = Some (g x)) -> mapM f l = Some (map g l).
Proof.
  intros H. apply mapM_Some. induction l as [|a l IH]; [constructor|].
  cbn [map]. constructor; [apply H; by left|]. apply IH. intros x Hx. apply H. by right.
Qed.

Lemma omap_total {A B : Type} (f : A -> option B) (g : A -> B) (l : list A) :
  (forall x, x ∈ l -> f x = Some (g x)) -> omap f l = map g l.
Proof.
  intros H. induction l as [|a l IH]; [done|].
  cbn. rewrite (H a) by by left. f_equal. apply IH.
  intros x Hx. apply H. by right.
Qed.

Lemma table_lookup {B : Type} (g : string -> B) (l : list string) k :
  (list_to_map (map (fun k => (k, g k)) l) : gmap string B) !! k
  = if bool_decide (k ∈ l) then Some (g k) else None.
Proof.
  induction l as [|a l IH]; [done|]. cbn [map list_to_map foldr].
  change (foldr _ _ _) with (list_to_map (map (fun k => (k, g k)) l) : gmap string B).
  destruct (decide (k = a)) as [->|Hne].
  - rewrite lookup_insert_eq, bool_decide_true; [done | by left].
  - rewrite lookup_insert_ne, IH by done.
    apply (f_equal (fun b : bool => if b then Some (g k) else None)).
    apply bool_decide_ext. rewrite elem_of_cons.
    split; [by right | by intros [?|?]].
Qed.

Section session_facts.
Variable FIELD_KEYS : list string.
Variable DEFAULTS : gmap string string.
Hypothesis Hobj : "fields_obj" ∉ FIELD_KEYS.

Lemma init_fields_lookup fields st k :
  k <> "fields_obj" ->
  init_fields FIELD_KEYS DEFAULTS fields st !! k
  = if bool_decide (k ∈ FIELD_KEYS)
    then Some (VStr (field_or_default DEFAULTS fields k))
    else st !! k.
Proof.
  intros Hk. unfold init_fields. cbn zeta.
  rewrite lookup_insert_ne by done.
  apply (foldl_insert_lookup (fun k => VStr (field_or_default DEFAULTS fields k))).
Qed.

Lemma clear_widget_state_lookup st k :
  clear_widget_state FIELD_KEYS st !! k
  = if bool_decide (k ∈ FIELD_KEYS) then None else st !! k.
Proof using Type.
  unfold clear_widget_state. rewrite foldl_delete_lookup.
  destruct (decide (k ∈ FIELD_KEYS)) as [Hk|Hk].
  - rewrite (bool_decide_true (k ∈ FIELD_KEYS)) by done.
    case_bool_decide as H; [done|].
    destruct (st !! k) as [v|] eqn:E; [|done].
    exfalso. apply H. split; [done|].
    apply list_elem_of_fmap. exists (k, v). split; [done|].
    by apply elem_of_map_to_list.
  - rewrite (bool_decide_false (k ∈ FIELD_KEYS)) by done.
    rewrite bool_decide_false; [done|]. by intros [? _].
Qed.

Lemma init_fields_stored fields st :
  foldl (fun st k => <[k := VStr (field_or_default DEFAULTS fields k)]> st) st FIELD_KEYS
  = (list_to_map (map (fun k => (k, VStr (field_or_default DEFAULTS fields k))) FIELD_KEYS)
     : session) ∪ st.
Proof using Type.
  apply map_eq. intros k.
  rewrite (foldl_insert_lookup (fun k => VStr (field_or_default DEFAULTS fields k))).
  rewrite lookup_union, (table_lookup (fun k => VStr (field_or_default DEFAULTS fields k))).
  case_bool_decide; [by destruct (st !! k) | by destruct (st !! k)].
Qed.

Lemma init_fields_obj fields st :
  init_fields FIELD_KEYS DEFAULTS fields st !! "fields_obj"
  = Some (VDict (map (fun k => (k, VStr (field_or_default DEFAULTS fields k))) FIELD_KEYS)).
Proof using Type.
  unfold init_fields. cbn zeta. rewrite lookup_insert_eq. do 2 f_equal.
  apply omap_total. intros k Hk.
  rewrite (foldl_insert_lookup (fun k => VStr (field_or_default DEFAULTS fields k))).
  by rewrite bool_decide_true.
Qed.

Lemma current_init fields st :
  current FIELD_KEYS DEFAULTS (init_fields FIELD_KEYS DEFAULTS fields st)
  = Some (completed FIELD_KEYS DEFAULTS fields).
Proof.
  unfold current, completed.
  rewrite (mapM_total _ (fun k => (k, field_or_default DEFAULTS fields k))); [done|].
  intros k Hk. rewrite init_fields_lookup by (by intros ->).
  by rewrite bool_decide_true.
Qed.

Lemma completed_lookup fields k :
  completed FIELD_KEYS DEFAULTS fields !! k
  = if bool_decide (k ∈ FIELD_KEYS) then Some (field_or_default DEFAULTS fields k) else None.
Proof using Type. apply (table_lookup (field_or_default DEFAULTS fields)). Qed.

Lemma init_after_clear fields st :
  init_fields FIELD_KEYS DEFAULTS fields (clear_widget_state FIELD_KEYS st)
  = init_fields FIELD_KEYS DEFAULTS fields st.
Proof.
  apply map_eq. intros k. destruct (decide (k = "fields_obj")) as [->|Hk].
  - by rewrite !init_fields_obj.
  - rewrite !init_fields_lookup by done. rewrite clear_widget_state_lookup.
    by case_bool_decide.
Qed.

Lemma field_text_spec st k :
  is_Some (text_or EmptyString (st !! k)) ->
  text_or EmptyString (st !! k) = Some (field_text st k)
  /\ (field_text st k <> EmptyString -> st !! k = Some (VStr (field_text st k))).
Proof using Type.
  unfold field_text. destruct (st !! k) as [[s| | | | |]|]; cbn; intros [x Hx]; try done.
Qed.

Lemma translate_fields_eq GT lang st :
  holds_texts FIELD_KEYS st ->
  translate_fields FIELD_KEYS DEFAULTS GT lang st
  = Some (<["_label_lang" := VStr lang]>
            (init_fields FIELD_KEYS DEFAULTS
               (list_to_map
                  (map (fun k => (k, (translate_text GT (field_text st k)
                                        (source_lang lang) lang).1)) FIELD_KEYS))
               st),
          concat (map (fun k => (translate_text GT (field_text st k)
                                   (source_lang lang) lang).2) FIELD_KEYS)).
Proof using Type.
  intros Ht. unfold translate_fields. cbn zeta.
  rewrite (mapM_total _ (fun k => (k, field_text st k))).
  - cbn [mbind option_bind]. rewrite !map_map. reflexivity.
  - intros k Hk. unfold holds_texts in Ht. rewrite Forall_forall in Ht.
    destruct (field_text_spec st k (Ht k Hk)) as [-> _]. done.
Qed.

End session_facts.

Lemma keys_A_plain :
  ("fields_obj" ∉ VariantA.FIELD_KEYS) /\ ("_label_lang" ∉ VariantA.FIELD_KEYS)
  /\ ("_ui_labels" ∉ VariantA.FIELD_KEYS) /\ ("_upload_hash" ∉ VariantA.FIELD_KEYS)
  /\ ("base_html" ∉ VariantA.FIELD_KEYS).
Proof. split_and!; apply (bool_decide_unpack _); by vm_compute. Qed.

Lemma keys_B_plain :
  ("fields_obj" ∉ VariantB.FIELD_KEYS) /\ ("_label_lang" ∉ VariantB.FIELD_KEYS)
  /\ ("_ui_labels" ∉ VariantB.FIELD_KEYS) /\ ("_upload_hash" ∉ VariantB.FIELD_KEYS)
  /\ ("base_html" ∉ VariantB.FIELD_KEYS).
Proof. split_and!; apply (bool_decide_unpack _); by vm_compute. Qed.

(** X6. What [init_fields] stores is what the script reads back for the
    synthesizer: after [init_fields(fields)] on any session state, the
    dictionary [current] has for every key of the schema the value
    [fields.get(k, DEFAULTS.get(k, ""))] (a key that is present with the empty
    text stays empty), and [apply_fields_to_html] accepts it over any base
    document and label language. *)
Theorem stored_fields_reach_synthesizer (fields : gmap string string) (st : session)
    (base : node) (label_lang : option string) :
  (exists cur,
     current VariantA.FIELD_KEYS VariantA.DEFAULTS
       (init_fields VariantA.FIELD_KEYS VariantA.DEFAULTS fields st) = Some cur
     /\ (forall k, k ∈ VariantA.FIELD_KEYS ->
           cur !! k
           = Some (default (default EmptyString (VariantA.DEFAULTS !! k)) (fields !! k)))
     /\ is_Some (VariantA.apply_fields_to_html base cur label_lang))
  /\ (exists cur,
        current VariantB.FIELD_KEYS VariantB.DEFAULTS
          (init_fields VariantB.FIELD_KEYS VariantB.DEFAULTS fields st) = Some cur
        /\ (forall k, k ∈ VariantB.FIELD_KEYS ->
              cur !! k
              = Some (default (default EmptyString (VariantB.DEFAULTS !! k)) (fields !! k)))
        /\ is_Some (VariantB.apply_fields_to_html base cur label_lang)).
Proof.
  split.
  - exists (completed VariantA.FIELD_KEYS VariantA.DEFAULTS fields).
    assert (forall k, k ∈ VariantA.FIELD_KEYS ->
              completed VariantA.FIELD_KEYS VariantA.DEFAULTS fields !! k
              = Some (field_or_default VariantA.DEFAULTS fields k)) as Hc.
    { intros k Hk. by rewrite completed_lookup, bool_decide_true. }
    split_and!.
    + apply current_init, keys_A_plain.
    + exact Hc.
    + apply apply_A_is_Some, Forall_forall. intros k Hk. by rewrite Hc.
  - exists (completed VariantB.FIELD_KEYS VariantB.DEFAULTS fields).
    assert (forall k, k ∈ VariantB.FIELD_KEYS ->
              completed VariantB.FIELD_KEYS VariantB.DEFAULTS fields !! k
              = Some (field_or_default VariantB.DEFAULTS fields k)) as Hc.
    { intros k Hk. by rewrite completed_lookup, bool_decide_true. }
    split_and!.
    + apply current_init, keys_B_plain.
    + exact Hc.
    + apply apply_B_is_Some, Forall_forall. intros k Hk. by rewrite Hc.
Qed.

(** X7. [clear_widget_state] removes from the session state the entries
    under the keys of the schema and nothing else: the base document, the
    label language, the hash of the upload and [fields_obj] stay as they
    are. *)
Theorem clear_widget_state_removes_fields (keys : list string) (st : session)
    (k : string) :
  clear_widget_state keys st !! k = if bool_decide (k ∈ keys) then None else st !! k.
Proof. apply clear_widget_state_lookup. Qed.

(** X8. [init_fields] overwrites every entry that [clear_widget_state]
    removes: calling [clear_widget_state()] before [init_fields(fields)], as
    the upload handler and the clear button do, gives the same session state
    as [init_fields(fields)] alone. *)
Theorem clear_before_init_redundant (keys : list string)
    (defaults fields : gmap string string) (st : session) :
  init_fields keys defaults fields (clear_widget_state keys st)
  = init_fields keys defaults fields st.
Proof. apply init_after_clear. Qed.

(** ** The translate button *)

Lemma translate_text_log GT txt src dest c :
  c ∈ (translate_text GT txt src dest).2 ->
  c = GetTranslator
  \/ (c = Translate src dest txt /\ txt <> EmptyString /\ src <> dest).
Proof.
  unfold translate_text. destruct txt as [|a txt]; cbn [Str.nonempty].
  { by intros ?%elem_of_nil. }
  destruct GT as [tr|]; [|intros ?%list_elem_of_singleton; by left].
  destruct (decide (src = dest)) as [|Hne]; [intros ?%list_elem_of_singleton; by left|].
  destruct (tr src dest _); cbn [snd];
    (intros [->|H]%elem_of_cons; [by left|]);
    apply list_elem_of_singleton in H as ->; right; by split_and!.
Qed.

Lemma source_lang_other lang : source_lang lang <> lang.
Proof. unfold source_lang. case_decide as H; [by rewrite H | congruence]. Qed.

Section translate_facts.
Variable FIELD_KEYS : list string.
Variable DEFAULTS : gmap string string.
Hypothesis Hobj : "fields_obj" ∉ FIELD_KEYS.
Hypothesis Hlang : "_label_lang" ∉ FIELD_KEYS.

Lemma translate_fields_calls GT lang st :
  holds_texts FIELD_KEYS st ->
  exists st' log,
    translate_fields FIELD_KEYS DEFAULTS GT lang st = Some (st', log)
    /\ asks_only FIELD_KEYS lang st log.
Proof using Type.
  intros Ht. eexists _, _. split; [by apply translate_fields_eq|].
  intros c Hc. apply elem_of_concat in Hc as (l & Hc & Hl).
  apply list_elem_of_fmap in Hl as (k & -> & Hk).
  apply translate_text_log in Hc as [->|(-> & Hne & Hsrc)]; [by left|]. right.
  exists k, (field_text st k), (source_lang lang). split_and!; try done.
  unfold holds_texts in Ht. rewrite Forall_forall in Ht.
  by apply (field_text_spec st k (Ht k Hk)).
Qed.

Lemma translate_fields_state GT lang st :
  holds_texts FIELD_KEYS st ->
  exists st' log,
    translate_fields FIELD_KEYS DEFAULTS GT lang st = Some (st', log)
    /\ translated_state FIELD_KEYS GT lang st st'.
Proof.
  intros Ht. eexists _, _. split; [by apply translate_fields_eq|].
  assert (forall k, k ∈ FIELD_KEYS ->
    <["_label_lang" := VStr lang]>
      (init_fields FIELD_KEYS DEFAULTS
         (list_to_map
            (map (fun k => (k, (translate_text GT (field_text st k)
                                  (source_lang lang) lang).1)) FIELD_KEYS)) st) !! k
    = Some (VStr (translate_text GT (field_text st k) (source_lang lang) lang).1)) as Hk.
  { intros k Hk. rewrite lookup_insert_ne by (by intros <-).
    rewrite init_fields_lookup by (by intros ->).
    rewrite bool_decide_true by done. unfold field_or_default.
    rewrite (table_lookup
               (fun k => (translate_text GT (field_text st k) (source_lang lang) lang).1)).
    by rewrite bool_decide_true. }
  split_and!.
  - apply lookup_insert_eq.
  - exact Hk.
  - intros -> k Hin. rewrite (Hk k Hin). unfold translate_text.
    by destruct (Str.nonempty _).
Qed.

End translate_facts.

(** X9. The button "Translate current fields" asks the translation
    capability only for the translation of a non-empty text that a field
    holds, into the chosen language and from the other one: never for an
    empty or missing field, and never from a language into itself. *)
Theorem translate_button_calls (GT : option translator) (lang : string) (st : session) :
  (holds_texts VariantA.FIELD_KEYS st ->
   exists st' log,
     translate_fields VariantA.FIELD_KEYS VariantA.DEFAULTS GT lang st = Some (st', log)
     /\ asks_only VariantA.FIELD_KEYS lang st log)
  /\ (holds_texts VariantB.FIELD_KEYS st ->
      exists st' log,
        translate_fields VariantB.FIELD_KEYS VariantB.DEFAULTS GT lang st = Some (st', log)
        /\ asks_only VariantB.FIELD_KEYS lang st log).
Proof. split; apply translate_fields_calls. Qed.

Lemma translate_button_calls_witness :
  holds_texts VariantB.FIELD_KEYS one_title
  /\ exists st' log,
       translate_fields VariantB.FIELD_KEYS VariantB.DEFAULTS
         (Some marking_translator) "en" one_title = Some (st', log)
       /\ asks_only VariantB.FIELD_KEYS "en" one_title log.
Proof.
  assert (holds_texts VariantB.FIELD_KEYS one_title) as H.
  { apply (bool_decide_unpack _). by vm_compute. }
  split; [exact H|].
  exact (proj2 (translate_button_calls (Some marking_translator) "en" one_title) H).
Defined.

(** X10. After the button "Translate current fields" the session state has
    the chosen language as label language and, under every key of the
    schema, what [translate_text] returns for the text the key held; a key
    that was missing gets the empty text, not its default.  Without a
    translator every text stays as it was, and the label language is
    switched all the same. *)
Theorem translate_button_state (GT : option translator) (lang : string) (st : session) :
  (holds_texts VariantA.FIELD_KEYS st ->
   exists st' log,
     translate_fields VariantA.FIELD_KEYS VariantA.DEFAULTS GT lang st = Some (st', log)
     /\ translated_state VariantA.FIELD_KEYS GT lang st st')
  /\ (holds_texts VariantB.FIELD_KEYS st ->
      exists st' log,
        translate_fields VariantB.FIELD_KEYS VariantB.DEFAULTS GT lang st = Some (st', log)
        /\ translated_state VariantB.FIELD_KEYS GT lang st st').
Proof.
  split; apply translate_fields_state; first [apply keys_A_plain | apply keys_B_plain].
Qed.

Lemma translate_button_state_witness :
  holds_texts VariantA.FIELD_KEYS one_title
  /\ exists st' log,
       translate_fields VariantA.FIELD_KEYS VariantA.DEFAULTS None "sl" one_title
       = Some (st', log)
       /\ translated_state VariantA.FIELD_KEYS None "sl" one_title st'.
Proof.
  assert (holds_texts VariantA.FIELD_KEYS one_title) as H.
  { apply (bool_decide_unpack _). by vm_compute. }
  split; [exact H|].
  exact (proj1 (translate_button_state None "sl" one_title) H).
Defined.

(** ** The upload handler and the form *)

Lemma completed_total keys defaults (m : gmap string string) :
  (forall k, k ∈ keys -> is_Some (m !! k)) -> (forall k, k ∉ keys -> m !! k = None) ->
  completed keys defaults m = m.
Proof.
  intros Hin Hout. apply map_eq. intros k. rewrite completed_lookup.
  case_bool_decide as Hk.
  - destruct (Hin k Hk) as [v Hv]. unfold field_or_default. by rewrite Hv.
  - by rewrite Hout.
Qed.

Lemma completed_parse_A soup :
  completed VariantA.FIELD_KEYS VariantA.DEFAULTS (VariantA.parse_html_fields soup)
  = VariantA.parse_html_fields soup.
Proof.
  apply completed_total.
  - pose proof (parse_A_keys soup) as H. rewrite Forall_forall in H. exact H.
  - apply parse_A_outside.
Qed.

Lemma completed_parse_B soup :
  completed VariantB.FIELD_KEYS VariantB.DEFAULTS (VariantB.parse_html_fields soup)
  = VariantB.parse_html_fields soup.
Proof.
  apply completed_total.
  - pose proof (parse_B_keys soup) as H. rewrite Forall_forall in H. exact H.
  - apply parse_B_outside.
Qed.

Lemma mapM_ext_in {A B : Type} (f g : A -> option B) (l : list A) :
  (forall x, x ∈ l -> f x = g x) -> mapM f l = mapM g l.
Proof.
  intros H. induction l as [|a l IH]; [done|].
  cbn. rewrite (H a) by by left. rewrite IH; [done|].
  intros x Hx. apply H. by right.
Qed.

Lemma current_insert keys defaults k v st :
  k ∉ keys -> current keys defaults (<[k := v]> st) = current keys defaults st.
Proof.
  intros Hk. unfold current. f_equal. apply mapM_ext_in.
  intros k' Hk'. rewrite lookup_insert_ne; [done|]. by intros ->.
Qed.

Lemma upload_A_fresh h D st :
  same_hash (st !! "_upload_hash") h = false ->
  upload_A h D st
  = <["_upload_hash" := VHash h]>
      (init_fields VariantA.FIELD_KEYS VariantA.DEFAULTS (VariantA.parse_html_fields D)
         (<["base_html" := VDoc D]> st)).
Proof. intros H. unfold upload_A. rewrite H. cbn zeta. by rewrite init_after_clear. Qed.

Lemma upload_B_fresh h D st :
  same_hash (st !! "_upload_hash") h = false ->
  upload_B h D st
  = <["_upload_hash" := VHash h]>
      (match ui_doc_lang (detect_ui_labels_from_html D) with
       | Some l => <["_label_lang" := VStr l]>
       | None => id
       end
         (<["_ui_labels" :=
              VLabels (ui_left (detect_ui_labels_from_html D))
                (ui_right (detect_ui_labels_from_html D))
                (if Str.nonempty (ui_user (detect_ui_labels_from_html D))
                 then ui_user (detect_ui_labels_from_html D) else "User notes")]>
            (init_fields VariantB.FIELD_KEYS VariantB.DEFAULTS
               (VariantB.parse_html_fields D) (<["base_html" := VDoc D]> st)))).
Proof.
  intros H. unfold upload_B. rewrite H. cbn zeta. rewrite init_after_clear.
  assert (forall l, ui_doc_lang (detect_ui_labels_from_html D) = Some l ->
                    bool_decide (l ∈ ["sl"; "en"]) = true) as Hl.
  { intros l. unfold detect_ui_labels_from_html. cbn [ui_doc_lang].
    destruct (html_attr "lang" D) as [[x|x]|]; [|done..].
    case_bool_decide as Hx; [|done]. intros [= <-]. by apply bool_decide_true. }
  destruct (ui_doc_lang (detect_ui_labels_from_html D)) as [l|]; [|done].
  by rewrite (Hl l eq_refl).
Qed.

Lemma upload_A_hash h D st : upload_A h D st !! "_upload_hash" = Some (VHash h).
Proof.
  destruct (same_hash (st !! "_upload_hash") h) eqn:E.
  - unfold upload_A. rewrite E. unfold same_hash in E.
    destruct (st !! "_upload_hash") as [[| |h'| | |]|]; try done.
    by apply bool_decide_eq_true in E as ->.
  - rewrite upload_A_fresh by done. apply lookup_insert_eq.
Qed.

Lemma upload_B_hash h D st : upload_B h D st !! "_upload_hash" = Some (VHash h).
Proof.
  destruct (same_hash (st !! "_upload_hash") h) eqn:E.
  - unfold upload_B. rewrite E. unfold same_hash in E.
    destruct (st !! "_upload_hash") as [[| |h'| | |]|]; try done.
    by apply bool_decide_eq_true in E as ->.
  - rewrite upload_B_fresh by done. apply lookup_insert_eq.
Qed.

(** X11. An upload with a new hash puts the uploaded document in the
    session state as the base document, and the field map that the script
    then hands to the synthesizer is the extractor's output for that
    document, in both variants. *)
Theorem upload_shows_extracted_fields (h : Z) (D : node) (st : session) :
  same_hash (st !! "_upload_hash") h = false ->
  (upload_A h D st !! "base_html" = Some (VDoc D)
   /\ current VariantA.FIELD_KEYS VariantA.DEFAULTS (upload_A h D st)
      = Some (VariantA.parse_html_fields D))
  /\ (upload_B h D st !! "base_html" = Some (VDoc D)
      /\ current VariantB.FIELD_KEYS VariantB.DEFAULTS (upload_B h D st)
         = Some (VariantB.parse_html_fields D)).
Proof.
  intros H. destruct keys_A_plain as (HoA & HlA & HuA & HhA & HbA).
  destruct keys_B_plain as (HoB & HlB & HuB & HhB & HbB). split; split.
  - rewrite upload_A_fresh by done. rewrite lookup_insert_ne by done.
    rewrite init_fields_lookup by done. rewrite bool_decide_false by done.
    apply lookup_insert_eq.
  - rewrite upload_A_fresh by done. rewrite current_insert by done.
    rewrite current_init by done. by rewrite completed_parse_A.
  - rewrite upload_B_fresh by done. rewrite lookup_insert_ne by done.
    destruct (ui_doc_lang _); [rewrite lookup_insert_ne by done|unfold id];
      rewrite lookup_insert_ne by done; rewrite init_fields_lookup by done;
      rewrite bool_decide_false by done; apply lookup_insert_eq.
  - rewrite upload_B_fresh by done. rewrite current_insert by done.
    destruct (ui_doc_lang _); [rewrite current_insert by done|unfold id];
      rewrite current_insert by done; rewrite current_init by done;
      by rewrite completed_parse_B.
Qed.

Lemma upload_shows_extracted_fields_witness :
  same_hash ((∅ : session) !! "_upload_hash") 7 = false
  /\ current VariantB.FIELD_KEYS VariantB.DEFAULTS (upload_B 7 sample_doc ∅)
     = Some (VariantB.parse_html_fields sample_doc).
Proof.
  split; [reflexivity|].
  apply (upload_shows_extracted_fields 7 sample_doc ∅). reflexivity.
Defined.

(** X12. The script runs again on every interaction while the uploaded file
    is still in the uploader: a run with the same file changes nothing,
    whatever the user has typed into a widget (or a handler has stored under
    another key than the hash) since the upload was taken in. *)
Theorem upload_rerun_keeps_edits (h : Z) (D : node) (st : session) (k : string)
    (v : sval) :
  k <> "_upload_hash" ->
  upload_A h D (<[k := v]> (upload_A h D st)) = <[k := v]> (upload_A h D st)
  /\ upload_B h D (<[k := v]> (upload_B h D st)) = <[k := v]> (upload_B h D st).
Proof.
  intros Hk. split.
  - unfold upload_A at 1. rewrite lookup_insert_ne by done. rewrite upload_A_hash.
    cbn [same_hash]. by rewrite bool_decide_true.
  - unfold upload_B at 1. rewrite lookup_insert_ne by done. rewrite upload_B_hash.
    cbn [same_hash]. by rewrite bool_decide_true.
Qed.

Lemma upload_rerun_keeps_edits_witness :
  "title" <> "_upload_hash"
  /\ upload_B 7 sample_doc (<["title" := VStr "edited"]> (upload_B 7 sample_doc ∅))
     = <["title" := VStr "edited"]> (upload_B 7 sample_doc ∅).
Proof.
  split; [discriminate|].
  apply (upload_rerun_keeps_edits 7 sample_doc ∅ "title" (VStr "edited")). discriminate.
Defined.

Lemma static_names_sl :
  static_names "sl" = Some ["Ljudje:"; "Proces:"; "Tehnologija:"; "Podatki:"; "Output:"].
Proof. by vm_compute. Qed.

Lemma static_names_en :
  static_names "en" = Some ["People:"; "Process:"; "Technology:"; "Data:"; "Output:"].
Proof. by vm_compute. Qed.

Lemma fallback_lang_supported st :
  exists defaults, static_names (fallback_lang st) = Some defaults.
Proof.
  assert (exists defaults, static_names "en" = Some defaults) as Hen.
  { eexists. apply static_names_en. }
  assert (exists defaults, static_names "sl" = Some defaults) as Hsl.
  { eexists. apply static_names_sl. }
  unfold fallback_lang.
  destruct (st !! "_label_lang") as [[l| | | | |]|]; [|done..].
  case_bool_decide as Hl; [|done].
  apply elem_of_cons in Hl as [->|Hl]; [done|].
  by apply list_elem_of_singleton in Hl as ->.
Qed.

Lemma form_names_spec pick st :
  labels_typed st ->
  exists names,
    form_names pick st = Some names /\ length names = 5
    /\ (forall i x, i < 5 -> kept_labels pick st !! i = Some x -> names !! i = Some x).
Proof.
  intros Ht. destruct (fallback_lang_supported st) as [defaults Hd].
  assert (forall lst, lst <> [] ->
            exists names, _pad5 lst (fallback_lang st) = Some names /\ length names = 5
              /\ (forall i x, i < 5 -> lst !! i = Some x -> names !! i = Some x)) as Hpad.
  { intros lst _. destruct (pad5_spec lst _ _ Hd) as (out & Ho & Hlen & Hi).
    exists out. split_and!; [done..|]. intros i x Hi5 Hx. rewrite (Hi i Hi5).
    rewrite decide_True; [done|]. by eapply lookup_lt_Some. }
  assert (exists names,
            (static_names "en" ≫= fun l => _pad5 l (fallback_lang st)) = Some names
            /\ length names = 5) as (en & Hen & Hlen).
  { rewrite static_names_en. cbn [mbind option_bind]. rewrite pad5_long by (cbn; lia).
    eexists. split; [reflexivity | done]. }
  unfold form_names, kept_labels, labels_typed in *.
  destruct (st !! "_ui_labels") as [[| | | | |l r u]|]; try done.
  - destruct (pick (l, r)) as [|a rest] eqn:Hp.
    + exists en. split_and!; [done..|]. intros i x _ Hx. by rewrite lookup_nil in Hx.
    + cbn [mbind option_bind]. by apply Hpad.
  - exists en. split_and!; [done..|]. intros i x _ Hx. by rewrite lookup_nil in Hx.
Qed.

(** X13. The form of Variant B always has five names for the text areas of
    each side: whatever the session state holds as detected headings and as
    label language, [_pad5] is given a fallback language that has labels, and
    the names start with the detected headings of the side. *)
Theorem form_has_five_names (st : session) :
  labels_typed st ->
  exists left right,
    left_names st = Some left /\ right_names st = Some right
    /\ length left = 5 /\ length right = 5
    /\ (forall i x, i < 5 -> kept_labels fst st !! i = Some x -> left !! i = Some x)
    /\ (forall i x, i < 5 -> kept_labels snd st !! i = Some x -> right !! i = Some x).
Proof.
  intros Ht. destruct (form_names_spec fst st Ht) as (left & Hl & Hll & Hli).
  destruct (form_names_spec snd st Ht) as (right & Hr & Hrl & Hri).
  exists left, right. by split_and!.
Qed.

Lemma form_has_five_names_witness :
  labels_typed (upload_B 7 two_headings_doc ∅)
  /\ exists left right,
       left_names (upload_B 7 two_headings_doc ∅) = Some left
       /\ right_names (upload_B 7 two_headings_doc ∅) = Some right
       /\ length left = 5 /\ length right = 5
       /\ (forall i x, i < 5 ->
             kept_labels fst (upload_B 7 two_headings_doc ∅) !! i = Some x ->
             left !! i = Some x)
       /\ (forall i x, i < 5 ->
             kept_labels snd (upload_B 7 two_headings_doc ∅) !! i = Some x ->
             right !! i = Some x).
Proof.
  assert (labels_typed (upload_B 7 two_headings_doc ∅)) as H by (by vm_compute).
  split; [exact H|].
  exact (form_has_five_names (upload_B 7 two_headings_doc ∅) H).
Defined.

Lemma upload_B_labels h D st :
  same_hash (st !! "_upload_hash") h = false ->
  upload_B h D st !! "_ui_labels"
  = Some (VLabels (ui_left (detect_ui_labels_from_html D))
            (ui_right (detect_ui_labels_from_html D))
            (if Str.nonempty (ui_user (detect_ui_labels_from_html D))
             then ui_user (detect_ui_labels_from_html D) else "User notes")).
Proof.
  intros H. rewrite upload_B_fresh by done. rewrite lookup_insert_ne by done.
  destruct (ui_doc_lang _); [rewrite lookup_insert_ne by done|unfold id];
    apply lookup_insert_eq.
Qed.

(** X14. After an upload with a new hash in Variant B the form shows the
    headings of the uploaded document: the names of each side start with
    the first five [h3] headings of that panel, and the label language
    becomes the language of the document when that is [sl] or [en] and
    stays what it was otherwise. *)
Theorem upload_sets_form (h : Z) (D : node) (st : session) :
  same_hash (st !! "_upload_hash") h = false ->
  (exists left right,
     left_names (upload_B h D st) = Some left
     /\ right_names (upload_B h D st) = Some right
     /\ (forall i x, _headings_from_panel D (sel_panel "left") !! i = Some x ->
           left !! i = Some x)
     /\ (forall i x, _headings_from_panel D (sel_panel "right") !! i = Some x ->
           right !! i = Some x))
  /\ match ui_doc_lang (detect_ui_labels_from_html D) with
     | Some l => l ∈ ["sl"; "en"] /\ upload_B h D st !! "_label_lang" = Some (VStr l)
     | None => upload_B h D st !! "_label_lang" = st !! "_label_lang"
     end.
Proof.
  intros H. pose proof (upload_B_labels h D st H) as Hlab. split.
  - assert (labels_typed (upload_B h D st)) as Ht.
    { unfold labels_typed. by rewrite Hlab. }
    destruct (form_names_spec fst _ Ht) as (left & Hl & _ & Hli).
    destruct (form_names_spec snd _ Ht) as (right & Hr & _ & Hri).
    unfold kept_labels in Hli, Hri. rewrite Hlab in Hli, Hri. cbn [fst snd] in Hli, Hri.
    assert (forall side i x, _headings_from_panel D (sel_panel side) !! i = Some x -> i < 5)
      as Hfive.
    { intros side i x Hx. apply lookup_lt_Some in Hx.
      unfold _headings_from_panel in Hx. rewrite length_map, length_take in Hx. lia. }
    exists left, right. split_and!; [done..| |].
    + intros i x Hx. apply Hli; [by eapply Hfive | exact Hx].
    + intros i x Hx. apply Hri; [by eapply Hfive | exact Hx].
  - destruct keys_B_plain as (HoB & HlB & _).
    rewrite upload_B_fresh by done. rewrite lookup_insert_ne by done.
    destruct (ui_doc_lang (detect_ui_labels_from_html D)) as [l|] eqn:El.
    + split; [|apply lookup_insert_eq].
      revert El. unfold detect_ui_labels_from_html. cbn [ui_doc_lang].
      destruct (html_attr "lang" D) as [[x|x]|]; [|done..].
      case_bool_decide as Hx; [|done]. by intros [= <-].
    + unfold id. rewrite lookup_insert_ne by done.
      rewrite init_fields_lookup by done. rewrite bool_decide_false by done.
      by rewrite lookup_insert_ne.
Qed.

Lemma upload_sets_form_witness :
  same_hash ((∅ : session) !! "_upload_hash") 7 = false
  /\ exists left right,
       left_names (upload_B 7 two_headings_doc ∅) = Some left
       /\ right_names (upload_B 7 two_headings_doc ∅) = Some right
       /\ (forall i x,
             _headings_from_panel two_headings_doc (sel_panel "left") !! i = Some x ->
             left !! i = Some x)
       /\ (forall i x,
             _headings_from_panel two_headings_doc (sel_panel "right") !! i = Some x ->
             right !! i = Some x).
Proof.
  split; [reflexivity|].
  exact (proj1 (upload_sets_form 7 two_headings_doc ∅ eq_refl)).
Defined.

(** ** Result lists after printing and parsing *)

Section hits_facts.
Context {St : Type} (step : St -> string -> attrs -> bool * St).

Lemma hits_elem s t a ks :
  hits step s (Elem t a ks)
  = (if (step s t a).1 then [Elem t a ks] else []) ++ hits_kids step (step s t a).2 ks.
Proof.
  cbn [hits]. f_equal. unfold hits_kids.
  induction ks as [|k ks IH]; [done|]. cbn [map concat]. by rewrite IH.
Qed.

Lemma hits_kids_cons s k l :
  hits_kids step s (k :: l) = hits step s k ++ hits_kids step s l.
Proof. reflexivity. Qed.

Lemma hits_kids_app s l1 l2 :
  hits_kids step s (l1 ++ l2) = hits_kids step s l1 ++ hits_kids step s l2.
Proof. unfold hits_kids. by rewrite map_app, concat_app. Qed.

Lemma walk_kids_hits s t a front l :
  Forall (fun k => forall s, map (fun p => get p k) (walk step s k)
                             = map Some (hits step s k)) l ->
  map (fun p => get p (Elem t a (front ++ l))) (walk_kids step s (length front) l)
  = map Some (hits_kids step s l).
Proof.
  intros H. revert front. induction H as [|k l Hk _ IH]; intros front; [done|].
  cbn [walk_kids]. rewrite hits_kids_cons, !map_app, map_map. f_equal.
  - rewrite <- Hk. apply map_ext. intros p. cbn [get].
    by rewrite list_lookup_middle.
  - specialize (IH (front ++ [k])). rewrite <- app_assoc in IH. cbn [app] in IH.
    rewrite length_app in IH. cbn [length] in IH.
    by replace (length front + 1) with (S (length front)) in IH by lia.
Qed.

Lemma walk_hits n s :
  map (fun p => get p n) (walk step s n) = map Some (hits step s n).
Proof.
  revert s. induction n as [x|x|t a ks IH] using node_ind'; intros s; [done..|].
  rewrite walk_elem, hits_elem, !map_app. f_equal.
  - by destruct (step s t a).1.
  - apply (walk_kids_hits _ t a [] ks IH).
Qed.

Lemma walk_root_hits s soup :
  map (fun p => get p soup) (walk_root step s soup)
  = map Some (hits_kids step s (kids_of soup)).
Proof.
  unfold walk_root. destruct soup as [x|x|t a ks]; [done..|]. cbn [kids_of].
  apply (walk_kids_hits _ t a [] ks). apply Forall_forall. intros k _ s'. apply walk_hits.
Qed.

Lemma hits_kids_flush s pre cur : hits_kids step s (flush_text pre cur) = [].
Proof. by destruct cur. Qed.

Lemma hits_kids_coalesce s pre cur l :
  hits_kids step s (coalesce pre cur l) = hits_kids step s l.
Proof.
  revert cur. induction l as [|n l IH]; intros cur.
  - apply hits_kids_flush.
  - destruct n as [x|x|t a ks]; cbn [coalesce].
    + by rewrite IH.
    + by rewrite hits_kids_app, hits_kids_flush, !hits_kids_cons, IH.
    + by rewrite hits_kids_app, hits_kids_flush, !hits_kids_cons, IH.
Qed.

Lemma hits_reparse n pre s :
  Forall2 reparsed (hits step s (reparse_in pre n)) (hits step s n).
Proof.
  revert pre s. induction n as [x|x|t a ks IH] using node_ind'; intros pre s;
    [constructor..|].
  cbn [reparse_in]. rewrite !hits_elem. apply Forall2_app.
  - destruct (step s t a).1; [|constructor].
    constructor; [|constructor]. by exists pre.
  - rewrite hits_kids_coalesce. generalize (pre || keeps_blanks t). intros pre'.
    induction IH as [|k ks Hk _ IHks]; [constructor|].
    cbn [map]. rewrite !hits_kids_cons. apply Forall2_app; [apply Hk | apply IHks].
Qed.

Lemma hits_kids_reparse soup s :
  Forall2 reparsed (hits_kids step s (kids_of (reparse soup)))
    (hits_kids step s (kids_of soup)).
Proof.
  destruct soup as [x|x|t a ks]; [constructor..|].
  unfold reparse. cbn [reparse_in kids_of]. rewrite hits_kids_coalesce.
  generalize (false || keeps_blanks t). intros pre.
  induction ks as [|k ks IH]; [constructor|].
  cbn [map]. rewrite !hits_kids_cons. apply Forall2_app; [apply hits_reparse | apply IH].
Qed.

Lemma walk_root_reparse s soup :
  length (walk_root step s (reparse soup)) = length (walk_root step s soup)
  /\ forall i x, walk_root step s soup !! i = Some x ->
       exists x' el pre,
         walk_root step s (reparse soup) !! i = Some x'
         /\ get x soup = Some el
         /\ get x' (reparse soup) = Some (reparse_in pre el).
Proof.
  pose proof (walk_root_hits s soup) as H1.
  pose proof (walk_root_hits s (reparse soup)) as H2.
  pose proof (hits_kids_reparse soup s) as H3.
  assert (length (walk_root step s (reparse soup)) = length (walk_root step s soup)) as Hlen.
  { apply (f_equal length) in H1, H2. rewrite !length_map in H1, H2.
    rewrite H1, H2. by eapply Forall2_length. }
  split; [done|]. intros i x Hx.
  destruct (lookup_lt_is_Some_2 (walk_root step s (reparse soup)) i) as [x' Hx'].
  { rewrite Hlen. by eapply lookup_lt_Some. }
  assert (map (fun p => get p soup) (walk_root step s soup) !! i = Some (get x soup)) as E1.
  { by rewrite list_lookup_fmap, Hx. }
  assert (map (fun p => get p (reparse soup)) (walk_root step s (reparse soup)) !! i
          = Some (get x' (reparse soup))) as E2.
  { by rewrite list_lookup_fmap, Hx'. }
  rewrite H1, list_lookup_fmap in E1. rewrite H2, list_lookup_fmap in E2.
  destruct (hits_kids step s (kids_of soup) !! i) as [el|] eqn:Hel; [|done].
  destruct (hits_kids step s (kids_of (reparse soup)) !! i) as [el'|] eqn:Hel'; [|done].
  cbn in E1, E2. injection E1 as E1. injection E2 as E2.
  destruct (Forall2_lookup_lr _ _ _ i _ _ H3 Hel' Hel) as [pre ->].
  exists x', el, pre. by split_and!.
Qed.

End hits_facts.


Lemma select_reparse sel soup :
  length (select sel (reparse soup)) = length (select sel soup)
  /\ forall i x, select sel soup !! i = Some x ->
       exists x' el pre,
         select sel (reparse soup) !! i = Some x'
         /\ get x soup = Some el
         /\ get x' (reparse soup) = Some (reparse_in pre el).
Proof. apply (walk_root_reparse chain_step sel soup). Qed.

Lemma label_reads_back l labels text pre t a :
  STATIC_LABELS !! l = Some labels -> text ∈ desired labels ->
  heading_text (reparse_in pre (Elem t a [Text text])) = text.
Proof.
  intros [_ [-> | ->]]%static_labels_cases Hin; cbn [reparse_in map];
    destruct (pre || keeps_blanks t);
    repeat (apply elem_of_cons in Hin as [->|Hin]; [by vm_compute|]);
    by apply elem_of_nil in Hin.
Qed.

Lemma headings_read_back l labels side out :
  STATIC_LABELS !! l = Some labels -> side ∈ ["left"; "right"] ->
  localized l labels out ->
  _headings_from_panel (reparse out) (sel_panel side)
  = take (length (select (sel_section_h3 side) out)) (desired labels).
Proof.
  intros Hl Hside [_ Hloc]. unfold _headings_from_panel. cbn zeta.
  change (sel_panel side ++ [by_class ["section"]; by_tag "h3"])
    with (sel_section_h3 side).
  destruct (select_reparse (sel_section_h3 side) out) as [Hlen Hre].
  pose proof (desired_length l labels Hl) as Hd.
  apply list_eq. intros i. rewrite list_lookup_fmap.
  destruct (decide (i < length (select (sel_section_h3 side) out) `min` 5)) as [Hi|Hi].
  - rewrite lookup_take_lt by lia. rewrite (lookup_take_lt (desired labels)) by lia.
    destruct (lookup_lt_is_Some_2 (select (sel_section_h3 side) out) i) as [x Hx]; [lia|].
    destruct (lookup_lt_is_Some_2 (desired labels) i) as [text Ht]; [lia|].
    destruct (Hre i x Hx) as (x' & el & pre & Hx' & Hel & Hg').
    destruct (Hloc side i x text Hside Hx Ht) as (t & a & Hg).
    rewrite Hg in Hel. injection Hel as <-.
    rewrite Hx', Ht. cbn [fmap option_fmap option_map]. f_equal.
    unfold text_at. rewrite Hg'.
    eapply label_reads_back; [done|]. by eapply list_elem_of_lookup_2.
  - destruct (decide (i < 5)) as [H5|H5].
    + rewrite lookup_take_lt by lia.
      rewrite (lookup_ge_None_2 (select _ (reparse out))) by lia.
      by rewrite lookup_take_ge by lia.
    + rewrite lookup_take_ge by lia.
      destruct (decide (i < length (select (sel_section_h3 side) out))).
      * rewrite lookup_take_lt by lia. by rewrite lookup_ge_None_2 by lia.
      * by rewrite lookup_take_ge by lia.
Qed.

Lemma lang_read_back l labels out :
  STATIC_LABELS !! l = Some labels -> localized l labels out ->
  ui_doc_lang (detect_ui_labels_from_html (reparse out)) = Some l.
Proof.
  intros Hl [(h & t & a & ks & Hh & Hg & Ha) _].
  apply static_labels_cases in Hl as [Hs _].
  unfold detect_ui_labels_from_html. cbn [ui_doc_lang]. unfold html_attr.
  unfold select_one in *. rewrite head_lookup in Hh.
  destruct (select_reparse sel_html out) as [_ Hre].
  destruct (Hre 0 h Hh) as (x' & el & pre & Hx' & Hel & Hg').
  rewrite Hg in Hel. injection Hel as <-.
  rewrite head_lookup, Hx'. cbn [mbind option_bind]. rewrite Hg'.
  cbn [reparse_in mbind option_bind]. rewrite Ha.
  rewrite bool_decide_true; [done|].
  unfold lang_supported in Hs. apply orb_true_iff in Hs as [Hs|Hs];
    apply bool_decide_eq_true in Hs; injection Hs as ->; [by left | by right; left].
Qed.

(** X15. What the synthesizer of Variant B writes as language and headings
    is what the detector reads from the printed result: for a label
    language of [STATIC_LABELS], on a document of the template with an
    [html] element, [detect_ui_labels_from_html] finds in the printed and
    parsed output that language as the language of the document, and as
    headings of each panel the vocabulary of the language, position by
    position, for as many headings as the panel has. *)
Theorem detect_after_synthesize (base : node) (fields : gmap string string)
    (l : string) (labels : gmap string string) (out : node) :
  STATIC_LABELS !! l = Some labels ->
  select sel_html base <> [] ->
  well_formed_B (Some l) base ->
  VariantB.apply_fields_to_html base fields (Some l) = Some out ->
  ui_doc_lang (detect_ui_labels_from_html (reparse out)) = Some l
  /\ ui_left (detect_ui_labels_from_html (reparse out))
     = take (length (select (sel_section_h3 "left") out)) (desired labels)
  /\ ui_right (detect_ui_labels_from_html (reparse out))
     = take (length (select (sel_section_h3 "right") out)) (desired labels).
Proof.
  intros Hl Hhtml Hwf Hout.
  pose proof (headings_overwritten_B base fields l labels out Hl Hhtml Hwf Hout) as Hloc.
  split_and!.
  - by eapply lang_read_back.
  - apply (headings_read_back l labels "left" out Hl); [by left | done].
  - apply (headings_read_back l labels "right" out Hl); [by right; left | done].
Qed.

Lemma detect_after_synthesize_witness :
  exists labels out,
    STATIC_LABELS !! "en" = Some labels
    /\ VariantB.apply_fields_to_html two_headings_doc
         (VariantB.parse_html_fields two_headings_doc) (Some "en") = Some out
    /\ ui_doc_lang (detect_ui_labels_from_html (reparse out)) = Some "en"
    /\ ui_left (detect_ui_labels_from_html (reparse out))
       = take (length (select (sel_section_h3 "left") out)) (desired labels)
    /\ ui_right (detect_ui_labels_from_html (reparse out))
       = take (length (select (sel_section_h3 "right") out)) (desired labels).
Proof.
  eexists _, _. split; [by vm_compute|]. split; [by vm_compute|].
  refine (detect_after_synthesize two_headings_doc
            (VariantB.parse_html_fields two_headings_doc) "en" _ _ _ _ _ _).
  - by vm_compute.
  - by vm_compute.
  - apply (bool_decide_unpack _). by vm_compute.
  - by vm_compute.
Defined.
